(** * quiki: the wikifier parser, its catches, the gallery block and the
      configuration getters, embedded in Rocq

    The development follows the Go sources:
    - [src/wikifier/parser.go]        (Parse, parseLine, parseByte, handleByte, nextByte)
    - [src/wikifier/parser-catch.go]  (genericCatch and its methods)
    - [src/wikifier/block-gallery.go] (galleryBlock)
    - [src/config/config.go]          (Config.Get, GetMap, GetStringMap, GetBool,
                                       Require, RequireMany)
    - [src/markdown/quikirenderer/renderer.go] (renderDocument, renderHeading, the
                                       brace count of renderCodeBlockLang)

    Go strings and byte slices are lists of 8-bit characters, Go [int]s are
    integers of [Z] (wrapped to 64 bits where a counter is incremented or
    decremented), pointers to catches and blocks are indices into a heap
    that the parser state carries, and a function that can fail returns an
    [outcome]: a value, a Go [error], or a run-time panic. *)

From Stdlib Require Import ZArith Ascii String List Lia Bool.
From stdpp Require Import base option list gmap strings.

Local Open Scope Z_scope.

Set Warnings "-register-all".

(** ** Go primitives *)

Module Go.

Definition byte := ascii.
Definition gostring := list byte.

(** A string literal of the source. *)
Definition lit (s : string) : gostring := list_ascii_of_string s.
Arguments lit : simpl never.

Definition byteVal (b : byte) : Z := Z.of_N (N_of_ascii b).
Definition byteOf (z : Z) : byte := ascii_of_N (Z.to_N z).

Definition eqb (a b : byte) : bool := Ascii.eqb a b.

Definition NUL : byte := "000"%char.
Definition TAB : byte := "009"%char.
Definition LF : byte := "010"%char.
Definition FF : byte := "012"%char.
Definition CR : byte := "013"%char.
Definition SP : byte := " "%char.
Definition BACKSLASH : byte := "\"%char.

Definition streq (a b : gostring) : bool := bool_decide (a = b).

(** [int] is 64 bits wide: [x++] and [x--] wrap around. *)
Definition wrap64 (z : Z) : Z := (z + 2 ^ 63) mod 2 ^ 64 - 2 ^ 63.
Definition incr (z : Z) : Z := wrap64 (z + 1).
Definition decr (z : Z) : Z := wrap64 (z - 1).

(** [len(s)] *)
Definition len {A} (s : list A) : Z := Z.of_nat (length s).

(** The conversion [string(b)] of a byte [b]: Go converts an integer
    value to the UTF-8 encoding of the code point with that number, so a
    byte below 0x80 gives the one-byte string and a byte from 0x80 up
    gives two bytes. (The conversion [string([]byte{...})] of a slice
    keeps the bytes as they are.) *)
Definition stringOfByte (b : byte) : gostring :=
  let n := byteVal b in
  if n <? 128 then [b]
  else [byteOf (Z.lor 192 (Z.shiftr n 6)); byteOf (Z.lor 128 (Z.land n 63))].

Definition isDigit (b : byte) : bool :=
  let n := byteVal b in (48 <=? n) && (n <=? 57).

(** regexp [\w]: ASCII letters, digits and underscore. *)
Definition isWord (b : byte) : bool :=
  let n := byteVal b in
  isDigit b || ((65 <=? n) && (n <=? 90)) || ((97 <=? n) && (n <=? 122))
  || eqb b "_"%char.

(** regexp [\s]: tab, newline, form feed, carriage return, space. *)
Definition isSpace (b : byte) : bool :=
  eqb b TAB || eqb b LF || eqb b FF || eqb b CR || eqb b SP.

(** [strings.Split(s, sep)] for a one-byte separator: the pieces between
    the separators, at least one piece. *)
Fixpoint splitByte (sep : byte) (s : gostring) : list gostring :=
  match s with
  | [] => [[]]
  | c :: s' =>
      if eqb c sep then [] :: splitByte sep s'
      else match splitByte sep s' with
           | [] => [[c]]
           | piece :: rest => (c :: piece) :: rest
           end
  end.

(** [strings.Join(pieces, sep)] for a one-byte separator. *)
Fixpoint joinByte (sep : byte) (pieces : list gostring) : gostring :=
  match pieces with
  | [] => []
  | [piece] => piece
  | piece :: more => piece ++ sep :: joinByte sep more
  end.

(** [strings.HasPrefix] *)
Fixpoint hasPrefix (s pre : gostring) : bool :=
  match pre, s with
  | [], _ => true
  | p :: pre', c :: s' => eqb p c && hasPrefix s' pre'
  | _ :: _, [] => false
  end.

(** [strings.TrimPrefix] *)
Definition trimPrefix (s pre : gostring) : gostring :=
  if hasPrefix s pre then drop (length pre) s else s.

(** [strings.TrimLeft(s, "\t ")] *)
Fixpoint trimLeftBlank (s : gostring) : gostring :=
  match s with
  | c :: s' => if eqb c TAB || eqb c SP then trimLeftBlank s' else s
  | [] => []
  end.

(** [strings.LastIndexByte(s, c)], with [None] for -1. *)
Fixpoint lastIndexByte (s : gostring) (c : byte) : option nat :=
  match s with
  | [] => None
  | x :: s' =>
      match lastIndexByte s' c with
      | Some i => Some (S i)
      | None => if eqb x c then Some 0%nat else None
      end
  end.

(** [s[len(s)-1] == c] for a non-empty [s] *)
Definition endsWith (s : gostring) (c : byte) : bool :=
  match last s with
  | Some x => eqb x c
  | None => false
  end.

(** What a call returns: a value, an [error], or a run-time panic (nil
    dereference, index out of range). *)
Inductive outcome (A : Type) : Type :=
| Ok (a : A)
| Err (msg : gostring)
| Panic.
Arguments Ok {A} a.
Arguments Err {A} msg.
Arguments Panic {A}.

#[global] Instance outcome_ret : MRet outcome := fun A a => Ok a.
#[global] Instance outcome_bind : MBind outcome := fun A B k m =>
  match m with
  | Ok a => k a
  | Err e => Err e
  | Panic => Panic
  end.

(** A Go operation that panics where the model has no value. *)
Definition orPanic {A} (o : option A) : outcome A :=
  match o with
  | Some a => Ok a
  | None => Panic
  end.

End Go.

Export Go.

(** ** Catches ([src/wikifier/parser-catch.go])

    [parser.go] calls the catch methods under the names of its own
    revision ([getLastString], [getParentCatch], [pushContents],
    [getPositionedContent], [getPositionedPrefixContent]); they are the
    methods [lastString], [parentCatch], [appendContents], [posContent] and
    [positionedPrefixContent] of [parser-catch.go]. *)

Module Catch.

(** A pointer to a catch (a block or a variable name) in the parser's heap. *)
Definition ref := nat.

(** [Position] ([parserPosition] in [parser.go]) *)
Record Position := { pos_line : Z; pos_column : Z }.

(** The dynamic values ([interface{}]) that content can hold, with the
    types [appendContent] switches on. *)
Inductive iface :=
| IString (s : gostring)                (* string *)
| IBlock (r : ref)                      (* *parserBlock *)
| ISlice (items : list iface)           (* []interface{} *)
| IPosContent (pc : posContent)         (* posContent *)
| IPosContents (pcs : list posContent)  (* []posContent *)
with posContent :=
| PosContent (content : iface) (pos : Position).

Definition content (pc : posContent) : iface :=
  match pc with PosContent c _ => c end.

Definition pos (pc : posContent) : Position :=
  match pc with PosContent _ p => p end.

Record genericCatch := {
  positioned : list posContent;
  positionedPrefix : list posContent;
  line : gostring;
  firstNewline : bool;
  removeIndent : gostring
}.

(** [&genericCatch{}] *)
Definition emptyCatch : genericCatch :=
  {| positioned := []; positionedPrefix := []; line := [];
     firstNewline := false; removeIndent := [] |}.

Definition setPositioned (l : list posContent) (c : genericCatch) : genericCatch :=
  {| positioned := l; positionedPrefix := positionedPrefix c; line := line c;
     firstNewline := firstNewline c; removeIndent := removeIndent c |}.

Definition setLine (l : gostring) (c : genericCatch) : genericCatch :=
  {| positioned := positioned c; positionedPrefix := positionedPrefix c; line := l;
     firstNewline := firstNewline c; removeIndent := removeIndent c |}.

Definition setFirstNewline (b : bool) (c : genericCatch) : genericCatch :=
  {| positioned := positioned c; positionedPrefix := positionedPrefix c; line := line c;
     firstNewline := b; removeIndent := removeIndent c |}.

Definition setRemoveIndent (s : gostring) (c : genericCatch) : genericCatch :=
  {| positioned := positioned c; positionedPrefix := positionedPrefix c; line := line c;
     firstNewline := firstNewline c; removeIndent := s |}.

(** [c.positioned[len(c.positioned)-1].content = v]; the index is out of
    range when the list is empty. *)
Definition setLast (v : iface) (l : list posContent) : option (list posContent) :=
  match last l with
  | Some (PosContent _ p) => Some (<[pred (length l) := PosContent v p]> l)
  | None => None
  end.

(** [setLastContent] *)
Definition setLastContent (v : iface) (c : genericCatch) : option genericCatch :=
  l ← setLast v (positioned c); Some (setPositioned l c).

(** [lastContent]: [None] is the nil interface of an empty list. *)
Definition lastContent (c : genericCatch) : option iface :=
  content <$> last (positioned c).

(** [lastString] *)
Definition lastString (c : genericCatch) : gostring :=
  match lastContent c with
  | Some (IString s) => s
  | _ => []
  end.

(** [pushContent] *)
Definition pushContent (item : iface) (p : Position) (c : genericCatch) : genericCatch :=
  setPositioned (positioned c ++ [PosContent item p]) c.

(** [appendContents] *)
Definition appendContents (pcs : list posContent) (c : genericCatch) : genericCatch :=
  setPositioned (positioned c ++ pcs) c.

(** [finishLine] *)
Definition finishLine (c : genericCatch) : genericCatch :=
  let c := setLine [] c in
  match lastContent c with
  | Some (IString lastStr) =>
      if streq (removeIndent c) [] then c
      else
        let lineStart := default 0%nat (lastIndexByte lastStr LF) in
        let newPortion := trimPrefix (drop lineStart lastStr) (removeIndent c) in
        let newStr := take lineStart lastStr ++ newPortion in
        match setLast (IString newStr) (positioned c) with
        | Some l => setPositioned l c
        | None => c
        end
  | _ => c
  end.

(** The first half of [appendString]: the bookkeeping of the current line
    when [s] ends in a newline. *)
Definition noteLine (s : gostring) (c : genericCatch) : genericCatch :=
  let c := setLine (line c ++ s) c in
  if endsWith s LF then
    let c :=
      if negb (firstNewline c) && (2 <? len (line c)) then
        let c := setFirstNewline true c in
        let afterTrim := trimLeftBlank (line c) in
        let difference := (length (line c) - length afterTrim)%nat in
        if (difference =? 0)%nat then c
        else setRemoveIndent (take difference (line c)) c
      else c in
    finishLine c
  else c.

(** [appendString]: [s[len(s)-1]] panics on the empty string. *)
Definition appendString (s : gostring) (p : Position) (c : genericCatch) : option genericCatch :=
  match s with
  | [] => None
  | _ =>
      let c := noteLine s c in
      match lastContent c with
      | None => Some (pushContent (IString s) p c)
      | Some (IString v) =>
          if negb (streq v []) && endsWith v LF then Some (pushContent (IString s) p c)
          else setLastContent (IString (v ++ s)) c
      | Some _ => Some (pushContent (IString s) p c)
      end
  end.

(** [appendContent]: any combination of blocks and strings. *)
Fixpoint appendContent (v : iface) (p : Position) (c : genericCatch) : option genericCatch :=
  match v with
  | IString s => appendString s p c
  | IPosContents pcs => Some (appendContents pcs c)
  | ISlice items =>
      (fix each (l : list iface) (c : genericCatch) : option genericCatch :=
         match l with
         | [] => Some c
         | item :: l' =>
             match appendContent item p c with
             | Some c' => each l' c'
             | None => None
             end
         end) items c
  | IPosContent (PosContent v' p') => appendContent v' p' c
  | IBlock _ => Some (pushContent v p c)
  end.

(** No two consecutive elements are both strings unless the earlier string
    ends with a newline. *)
Definition separated (l : list posContent) : Prop :=
  forall (i : nat) (a b : gostring) (pa pb : Position),
    l !! i = Some (PosContent (IString a) pa) ->
    l !! S i = Some (PosContent (IString b) pb) ->
    endsWith a LF = true.

(** The indent to remove is made of tabs and spaces: [appendString] takes it
    from what [strings.TrimLeft(c.line, "\t ")] trims. *)
Definition blankIndent (c : genericCatch) : Prop :=
  Forall (fun b => b = TAB \/ b = SP) (removeIndent c).

(** [finishLine] and the line bookkeeping leave the list as it is, but for
    a last string that loses its indent. *)
Inductive trimmedLast (l l' : list posContent) : Prop :=
| trimmed_same : l' = l -> trimmedLast l l'
| trimmed_last (l0 : list posContent) (v v' : gostring) (p : Position) :
    l = l0 ++ [PosContent (IString v) p] ->
    l' = l0 ++ [PosContent (IString v') p] ->
    LF ∉ v -> LF ∉ v' ->
    trimmedLast l l'.

(** The content values of a positioned list ([content] and [prefixContent]). *)
Definition contents (l : list posContent) : list iface := map content l.

(** Induction on content values, through the slices and the positioned
    items that hold them. *)
Section IfaceInduction.

Variable P : iface -> Prop.
Hypothesis HString : forall s, P (IString s).
Hypothesis HBlock : forall r, P (IBlock r).
Hypothesis HSlice : forall items, Forall P items -> P (ISlice items).
Hypothesis HPosContent : forall v q, P v -> P (IPosContent (PosContent v q)).
Hypothesis HPosContents : forall pcs, P (IPosContents pcs).

Fixpoint iface_nested_ind (v : iface) : P v :=
  match v with
  | IString s => HString s
  | IBlock r => HBlock r
  | ISlice items =>
      HSlice items
        ((fix each (l : list iface) : Forall P l :=
            match l with
            | [] => @List.Forall_nil iface P
            | item :: l' =>
                @List.Forall_cons iface P item l' (iface_nested_ind item) (each l')
            end) items)
  | IPosContent (PosContent v' q) => HPosContent v' q (iface_nested_ind v')
  | IPosContents pcs => HPosContents pcs
  end.

End IfaceInduction.

(** The value holds an empty string where [appendContent] looks for
    strings: in itself, in an item of a slice, or in a positioned item. *)
Fixpoint holdsEmptyString (v : iface) : bool :=
  match v with
  | IString s => streq s []
  | ISlice items =>
      (fix any (l : list iface) : bool :=
         match l with
         | [] => false
         | item :: l' => holdsEmptyString item || any l'
         end) items
  | IPosContent (PosContent v' _) => holdsEmptyString v'
  | IBlock _ => false
  | IPosContents _ => false
  end.

(** The list [l'] continues the list [l]: every element of [l] is in its
    place, with its position, and is as it was, but for a string at the end
    of [l], in the place of which [l'] may have another string. *)
Definition continues (l l' : list posContent) : Prop :=
  (length l <= length l')%nat
  /\ forall (i : nat) (x : posContent), l !! i = Some x ->
       exists x', l' !! i = Some x' /\ pos x' = pos x
         /\ (x' = x
             \/ (S i = length l
                 /\ exists s s', content x = IString s /\ content x' = IString s')).

End Catch.

(** ** The parser ([src/wikifier/parser.go]) *)

Module Parser.

Import Catch.

(** Modelled from the spec: the declaration of [parserBlock] is not in
    [parser.go]. A block is "a typed tree node with: type, optional name,
    ordered list of class suffixes, source position range (open and close),
    parent pointer" and its content; the fields are those that [parser.go]
    reads and writes (the struct literals of [Parse] and [parseByte],
    [closed], [closePos]). The embedded [*genericCatch] is [blockCatch]; the
    back pointer [parser] is the state that every function here takes. *)
Record parserBlock := {
  typ : gostring;
  name : gostring;
  classes : list gostring;
  openPos : Position;
  closePos : Position;
  closed : bool;
  parent : option ref;
  blockCatch : genericCatch
}.

(** Modelled from the spec: [parserVariableName], the catch that
    [newParserVariableName] returns, is not in [parser.go]. It is one of
    the four kinds of catch, "variable-name": a [genericCatch] with the
    [parent] that [parseByte] sets. *)
Record parserVariableName := {
  vnParent : option ref;
  vnCatch : genericCatch
}.

(** What a [parserCatch] pointer refers to. *)
Inductive catchObj :=
| CBlock (b : parserBlock)
| CVarName (v : parserVariableName).

Record parser := {
  pos : Position;
  last : byte;
  this : byte;
  next : byte;
  skip : bool;
  ignore : bool;
  escape : bool;
  catch : option ref;
  block : option ref;
  commentLevel : Z;
  braceLevel : Z;
  braceFirst : bool;
  varNotInterpolated : bool;
  varNegated : bool;
  heap : list catchObj
}.

Definition set_pos (v : Position) (p : parser) : parser :=
  {| pos := v; last := last p; this := this p; next := next p;
     skip := skip p; ignore := ignore p; escape := escape p;
     catch := catch p; block := block p; commentLevel := commentLevel p;
     braceLevel := braceLevel p; braceFirst := braceFirst p;
     varNotInterpolated := varNotInterpolated p; varNegated := varNegated p;
     heap := heap p |}.

Definition set_last (v : byte) (p : parser) : parser :=
  {| pos := pos p; last := v; this := this p; next := next p; skip := skip p;
     ignore := ignore p; escape := escape p; catch := catch p;
     block := block p; commentLevel := commentLevel p;
     braceLevel := braceLevel p; braceFirst := braceFirst p;
     varNotInterpolated := varNotInterpolated p; varNegated := varNegated p;
     heap := heap p |}.

Definition set_this (v : byte) (p : parser) : parser :=
  {| pos := pos p; last := last p; this := v; next := next p; skip := skip p;
     ignore := ignore p; escape := escape p; catch := catch p;
     block := block p; commentLevel := commentLevel p;
     braceLevel := braceLevel p; braceFirst := braceFirst p;
     varNotInterpolated := varNotInterpolated p; varNegated := varNegated p;
     heap := heap p |}.

Definition set_next (v : byte) (p : parser) : parser :=
  {| pos := pos p; last := last p; this := this p; next := v; skip := skip p;
     ignore := ignore p; escape := escape p; catch := catch p;
     block := block p; commentLevel := commentLevel p;
     braceLevel := braceLevel p; braceFirst := braceFirst p;
     varNotInterpolated := varNotInterpolated p; varNegated := varNegated p;
     heap := heap p |}.

Definition set_skip (v : bool) (p : parser) : parser :=
  {| pos := pos p; last := last p; this := this p; next := next p; skip := v;
     ignore := ignore p; escape := escape p; catch := catch p;
     block := block p; commentLevel := commentLevel p;
     braceLevel := braceLevel p; braceFirst := braceFirst p;
     varNotInterpolated := varNotInterpolated p; varNegated := varNegated p;
     heap := heap p |}.

Definition set_ignore (v : bool) (p : parser) : parser :=
  {| pos := pos p; last := last p; this := this p; next := next p;
     skip := skip p; ignore := v; escape := escape p; catch := catch p;
     block := block p; commentLevel := commentLevel p;
     braceLevel := braceLevel p; braceFirst := braceFirst p;
     varNotInterpolated := varNotInterpolated p; varNegated := varNegated p;
     heap := heap p |}.

Definition set_escape (v : bool) (p : parser) : parser :=
  {| pos := pos p; last := last p; this := this p; next := next p;
     skip := skip p; ignore := ignore p; escape := v; catch := catch p;
     block := block p; commentLevel := commentLevel p;
     braceLevel := braceLevel p; braceFirst := braceFirst p;
     varNotInterpolated := varNotInterpolated p; varNegated := varNegated p;
     heap := heap p |}.

Definition set_catch (v : option ref) (p : parser) : parser :=
  {| pos := pos p; last := last p; this := this p; next := next p;
     skip := skip p; ignore := ignore p; escape := escape p; catch := v;
     block := block p; commentLevel := commentLevel p;
     braceLevel := braceLevel p; braceFirst := braceFirst p;
     varNotInterpolated := varNotInterpolated p; varNegated := varNegated p;
     heap := heap p |}.

Definition set_block (v : option ref) (p : parser) : parser :=
  {| pos := pos p; last := last p; this := this p; next := next p;
     skip := skip p; ignore := ignore p; escape := escape p;
     catch := catch p; block := v; commentLevel := commentLevel p;
     braceLevel := braceLevel p; braceFirst := braceFirst p;
     varNotInterpolated := varNotInterpolated p; varNegated := varNegated p;
     heap := heap p |}.

Definition set_commentLevel (v : Z) (p : parser) : parser :=
  {| pos := pos p; last := last p; this := this p; next := next p;
     skip := skip p; ignore := ignore p; escape := escape p;
     catch := catch p; block := block p; commentLevel := v;
     braceLevel := braceLevel p; braceFirst := braceFirst p;
     varNotInterpolated := varNotInterpolated p; varNegated := varNegated p;
     heap := heap p |}.

Definition set_braceLevel (v : Z) (p : parser) : parser :=
  {| pos := pos p; last := last p; this := this p; next := next p;
     skip := skip p; ignore := ignore p; escape := escape p;
     catch := catch p; block := block p; commentLevel := commentLevel p;
     braceLevel := v; braceFirst := braceFirst p;
     varNotInterpolated := varNotInterpolated p; varNegated := varNegated p;
     heap := heap p |}.

Definition set_braceFirst (v : bool) (p : parser) : parser :=
  {| pos := pos p; last := last p; this := this p; next := next p;
     skip := skip p; ignore := ignore p; escape := escape p;
     catch := catch p; block := block p; commentLevel := commentLevel p;
     braceLevel := braceLevel p; braceFirst := v;
     varNotInterpolated := varNotInterpolated p; varNegated := varNegated p;
     heap := heap p |}.

Definition set_varNotInterpolated (v : bool) (p : parser) : parser :=
  {| pos := pos p; last := last p; this := this p; next := next p;
     skip := skip p; ignore := ignore p; escape := escape p;
     catch := catch p; block := block p; commentLevel := commentLevel p;
     braceLevel := braceLevel p; braceFirst := braceFirst p;
     varNotInterpolated := v; varNegated := varNegated p; heap := heap p |}.

Definition set_varNegated (v : bool) (p : parser) : parser :=
  {| pos := pos p; last := last p; this := this p; next := next p;
     skip := skip p; ignore := ignore p; escape := escape p;
     catch := catch p; block := block p; commentLevel := commentLevel p;
     braceLevel := braceLevel p; braceFirst := braceFirst p;
     varNotInterpolated := varNotInterpolated p; varNegated := v;
     heap := heap p |}.

Definition set_heap (v : list catchObj) (p : parser) : parser :=
  {| pos := pos p; last := last p; this := this p; next := next p;
     skip := skip p; ignore := ignore p; escape := escape p;
     catch := catch p; block := block p; commentLevel := commentLevel p;
     braceLevel := braceLevel p; braceFirst := braceFirst p;
     varNotInterpolated := varNotInterpolated p; varNegated := varNegated p;
     heap := v |}.

(** *** The catch interface on heap objects *)

(** The [genericCatch] that the object embeds. *)
Definition gc (o : catchObj) : genericCatch :=
  match o with
  | CBlock b => blockCatch b
  | CVarName v => vnCatch v
  end.

Definition set_blockCatch (g : genericCatch) (b : parserBlock) : parserBlock :=
  {| typ := typ b; name := name b; classes := classes b; openPos := openPos b;
     closePos := closePos b; closed := closed b; parent := parent b;
     blockCatch := g |}.

Definition set_gc (g : genericCatch) (o : catchObj) : catchObj :=
  match o with
  | CBlock b => CBlock (set_blockCatch g b)
  | CVarName v => CVarName {| vnParent := vnParent v; vnCatch := g |}
  end.

(** The constants of [parser-catch.go]. *)
Definition catchTypeVariableName : gostring := lit "Variable name".
Definition catchTypeVariableValue : gostring := lit "Variable value".
Definition catchTypeBlock : gostring := lit "Block".
Definition catchTypeBraceEscape : gostring := lit "Brace escape".

(** Modelled from the spec: the methods [catchType] of [parserBlock] and of
    [parserVariableName] are not in [parser.go]; each catch advertises "a
    human-readable kind name", which [parser-catch.go] has as constants. *)
Definition catchType (o : catchObj) : gostring :=
  match o with
  | CBlock _ => catchTypeBlock
  | CVarName _ => catchTypeVariableName
  end.

(** Modelled from the spec: the methods [getParentCatch] are not in
    [parser.go]. "The parser holds the current catch as a tagged value plus
    a parent pointer": the parent catch of a block is its [parent] block,
    the only link that the struct literals of [Parse] and [parseByte] set
    (nil for [main]); the parent of a variable name is the [parent] that
    [parseByte] assigns. *)
Definition getParentCatch (o : catchObj) : option ref :=
  match o with
  | CBlock b => parent b
  | CVarName v => vnParent v
  end.

(** Modelled from the spec: the methods [byteOK] are not in [parser.go]. A
    block takes every byte ("non-ASCII is passed through as content");
    "Variable name characters: [A-Za-z0-9_.]". *)
Definition byteOK (o : catchObj) (b : byte) : bool :=
  match o with
  | CBlock _ => true
  | CVarName _ => isWord b || eqb b "."%char
  end.

(** Modelled from the spec: the methods [shouldSkipByte] are not in
    [parser.go]. No byte ends a block but the [}] that [parseByte] handles;
    a variable name is ended by white space, the [skip_chars => qr/\s/] of
    the comment kept in [parseByte]. *)
Definition shouldSkipByte (o : catchObj) (b : byte) : bool :=
  match o with
  | CBlock _ => false
  | CVarName _ => isSpace b
  end.

(** Modelled from the spec: [newParserVariableName] is not in [parser.go].
    The new catch has the prefix, with its position, as prefix content
    ([prefix => [ $prefix, $c->pos ]] in the comment kept in [parseByte]);
    [parent_] is what [catch.parent = p.catch] assigns next. *)
Definition newParserVariableName (pfx : gostring) (at_ : Position)
    (parent_ : option ref) : catchObj :=
  CVarName {| vnParent := parent_;
              vnCatch := {| positioned := [];
                            positionedPrefix := [PosContent (IString pfx) at_];
                            line := []; firstNewline := false; removeIndent := [] |} |}.

(** Dereference a catch or block pointer: nil and dangling pointers panic. *)
Definition deref (r : option ref) (p : parser) : outcome catchObj :=
  match r with
  | Some i => orPanic (heap p !! i)
  | None => Panic
  end.

(** [p.block], which is a [*parserBlock]. *)
Definition derefBlock (p : parser) : outcome parserBlock :=
  o ← deref (block p) p;
  match o with
  | CBlock b => Ok b
  | CVarName _ => Panic
  end.

(** Call a method of [genericCatch] on [p.catch]; [None] from the method is
    its panic. *)
Definition onCatch (f : genericCatch -> option genericCatch) (p : parser) : outcome parser :=
  match catch p with
  | None => Panic
  | Some r =>
      o ← orPanic (heap p !! r);
      g ← orPanic (f (gc o));
      Ok (set_heap (<[r := set_gc g o]> (heap p)) p)
  end.

(** [p.catch = p.catch.getParentCatch()] *)
Definition popCatch (p : parser) : outcome parser :=
  o ← deref (catch p) p;
  Ok (set_catch (getParentCatch o) p).

(** *** nextByte *)

Definition nextByte (b : byte) (p : parser) : outcome parser :=
  let p := set_ignore false p in
  let p := set_last b p in
  if eqb b BACKSLASH && negb (escape p) && (braceLevel p =? 0)
  then Ok (set_escape true p)
  else Ok (set_escape false p).

(** *** handleByte *)

(** The string "\u2424" (the symbol for newline), in UTF-8. *)
Definition u2424 : gostring := ["226"; "144"; "164"]%char.

Definition invalidByteError (b : byte) (o : catchObj) : gostring :=
  let char := stringOfByte b in
  let char := if streq char [LF] then u2424 else char in
  let err := lit "Invalid byte '" ++ char ++ lit "' in " ++ catchType o ++ lit "." in
  let str := lastString (gc o) in
  if streq str [] then err else err ++ lit "Partial: " ++ str.

Definition handleByte (b : byte) (p : parser) : outcome parser :=
  match catch p with
  | None => Err (lit "Nothing to catch byte: " ++ stringOfByte b)
  | Some r =>
      o ← orPanic (heap p !! r);
      (* reinject the backslash *)
      let add := if ignore p && escape p then [last p; b] else stringOfByte b in
      p ← (if shouldSkipByte o b then
             (* terminate the catch, give its content to the parent *)
             let pc := positioned (gc o) in
             let pc := match positionedPrefix (gc o) with
                       | [] => pc
                       | pfx => pfx ++ pc
                       end in
             let p := set_catch (getParentCatch o) p in
             onCatch (fun g => Some (appendContents pc g)) p
           else if negb (byteOK o b) then Err (invalidByteError b o)
           else Ok p);
      p ← onCatch (appendString add (pos p)) p;
      nextByte b p
  end.

(** *** parseByte: the backward scan for the block type and name *)

Record scanState := {
  inBlockName : Z;
  charsScanned : Z;
  blockType : gostring;
  blockName : gostring
}.

Definition scanStart : scanState :=
  {| inBlockName := 0; charsScanned := 0; blockType := []; blockName := [] |}.

(** regexp [[\w\-\$\.]]: a byte that can be part of the block type. *)
Definition isTypeByte (b : byte) : bool :=
  isWord b || eqb b "-"%char || eqb b "$"%char || eqb b "."%char.

(** The loop [for i := len(lastContent) - 1; i != -1; i--], over the bytes
    of [lastContent] from the last one backward. The counters cannot leave
    the range of [int]: each moves by one per byte of a string. *)
Fixpoint scanBack (backward : list byte) (st : scanState) : scanState :=
  match backward with
  | [] => st
  | lastChar :: more =>
      let scanned := charsScanned st + 1 in
      let depth :=
        if eqb lastChar "]"%char then inBlockName st + 1
        else if eqb lastChar "["%char then inBlockName st - 1
        else inBlockName st in
      let st := {| inBlockName := depth; charsScanned := scanned;
                   blockType := blockType st; blockName := blockName st |} in
      if eqb lastChar "]"%char && (depth =? 1) then
        (* we just entered the block name *)
        scanBack more st
      else if eqb lastChar "["%char && negb (depth =? 1) then
        (* exiting the block name, or still in it *)
        scanBack more st
      else if negb (depth =? 0) then
        (* we are in the block name *)
        scanBack more {| inBlockName := depth; charsScanned := scanned;
                         blockType := blockType st;
                         blockName := stringOfByte lastChar ++ blockName st |}
      else if isTypeByte lastChar then
        (* this could be part of the block type *)
        scanBack more {| inBlockName := depth; charsScanned := scanned;
                         blockType := stringOfByte lastChar ++ blockType st;
                         blockName := blockName st |}
      else if eqb lastChar "~"%char && negb (streq (blockType st) []) then
        (* tilde terminates the block type *)
        st
      else if isSpace lastChar && streq (blockType st) [] then
        (* space between things *)
        scanBack more st
      else
        (* give this byte back and bail *)
        {| inBlockName := depth; charsScanned := scanned - 1;
           blockType := blockType st; blockName := blockName st |}
  end.

Definition scanHeader (lastContent : gostring) : scanState :=
  scanBack (rev lastContent) scanStart.

(** [strings.Split(blockType, ".")]: if the type contains dots, it has
    classes. *)
Definition splitClasses (blockType_ : gostring) : gostring * list gostring :=
  match splitByte "."%char blockType_ with
  | head :: (_ :: _) as tail => (head, tail)
  | _ => (blockType_, [])
  end.

(** The block type that the scan of [lastContent] gives, before defaults. *)
Definition scannedType (lastContent : gostring) : gostring :=
  fst (splitClasses (blockType (scanHeader lastContent))).

(** What follows the scan: classes, the default type, models. The result
    is the type, the name and the classes of the block to create. *)
Definition headerOf (st : scanState) : gostring * gostring * list gostring :=
  let '(ty, cls) := splitClasses (blockType st) in
  (* if there is no type at this point, assume it is a map *)
  let ty := if streq ty [] then lit "map" else ty in
  (* if the block type starts with $, it is a model *)
  match ty with
  | c :: ty' => if eqb c "$"%char then (lit "model", ty', cls)
                else (ty, blockName st, cls)
  | [] => (ty, blockName st, cls)
  end.

Definition variableTokens (b : byte) : bool :=
  eqb b "@"%char || eqb b "%"%char || eqb b ":"%char || eqb b ";"%char
  || eqb b "-"%char.

(** *** parseByte: its branches *)

(** BRACE ESCAPE: the bytes of a region opened by [{{]. *)
Definition braceEscape (b : byte) (p : parser) : outcome parser :=
  let isFirst := braceFirst p in
  let p := set_braceFirst false p in
  p ← (if eqb b "{"%char && negb isFirst then
         (* increase brace depth *)
         Ok (set_braceLevel (incr (braceLevel p)) p)
       else if eqb b "}"%char then
         (* decrease brace depth *)
         let p := set_braceLevel (decr (braceLevel p)) p in
         (* if this was the last brace, clear the brace escape catch *)
         if braceLevel p =? 0 then popCatch p else Ok p
       else Ok p);
  (* proceed to the next byte if this was the first or last brace *)
  if isFirst || (braceLevel p =? 0) then nextByte b p
  else handleByte b p.

(** The body of the branch [b == '{'] once the byte is known not to be
    escaped: it ends by falling through to [handleByte]. *)
Definition openBlock (p : parser) : outcome parser :=
  if eqb (next p) "@"%char then
    (* {@some_var} *)
    Ok (set_skip true p)
  else
    o ← deref (catch p) p;
    let lastContent := lastString (gc o) in
    (* if there is no lastContent, give up because the block has no type *)
    if streq lastContent [] then Err (lit "Block has no type")
    else
      let st := scanHeader lastContent in
      (* overwrite last content with the title and name stripped out *)
      let kept := take (Z.to_nat (len lastContent - charsScanned st)) lastContent in
      p ← onCatch (setLastContent (IString kept)) p;
      let '(blockType, blockName, blockClasses) := headerOf st in
      (* create the block *)
      let blk := {| typ := blockType; name := blockName; classes := blockClasses;
                    openPos := pos p; closePos := {| pos_line := 0; pos_column := 0 |};
                    closed := false; parent := block p;
                    blockCatch := emptyCatch |} in
      let r := length (heap p) in
      let p := set_heap (heap p ++ [CBlock blk]) p in
      (* set the current block *)
      let p := set_block (Some r) p in
      let p := set_catch (Some r) p in
      (* if the next char is a brace, this is a brace escaped block *)
      if eqb (next p) "{"%char then
        Ok (set_braceLevel (incr (braceLevel p)) (set_braceFirst true p))
      else Ok p.

(** [p.block.closed = true; p.block.closePos = p.pos] *)
Definition markClosed (at_ : Position) (b : parserBlock) : parserBlock :=
  {| typ := typ b; name := name b; classes := classes b; openPos := openPos b;
     closePos := at_; closed := true; parent := parent b;
     blockCatch := blockCatch b |}.

(** The body of the branch [b == '}'] for a byte that is not escaped. *)
Definition closeBlock (p : parser) : outcome parser :=
  blk ← derefBlock p;
  (* we cannot close the main block *)
  if streq (typ blk) (lit "main") then Err (lit "Attempted to close main block")
  else
    match block p with
    | None => Panic
    | Some r =>
        (* normal block. add the block itself *)
        let addContents := ISlice [IBlock r] in
        (* close the block *)
        let p := set_heap (<[r := CBlock (markClosed (pos p) blk)]> (heap p)) p in
        (* clear the catch *)
        let p := set_block (parent blk) p in
        p ← popCatch p;
        onCatch (appendContent addContents (pos p)) p
    end.

(** The body of the branch for the variable tokens of the main block, for a
    byte that is not escaped. *)
Definition variableToken (b : byte) (p : parser) : outcome parser :=
  if (eqb b "@"%char || eqb b "%"%char) && bool_decide (catch p = block p) then
    (* entering a variable declaration *)
    let p := if eqb b "%"%char then set_varNotInterpolated true p else p in
    let pfx := stringOfByte b in
    let '(pfx, p) :=
      if eqb (last p) "-"%char
      then (stringOfByte (last p) ++ pfx, set_varNegated true p)
      else (pfx, p) in
    (* catch the var name *)
    let r := length (heap p) in
    let p := set_heap (heap p ++ [newParserVariableName pfx (pos p) (catch p)]) p in
    Ok (set_catch (Some r) p)
  else if eqb b ":"%char then
    (* [p.catch.catchType()] is called *)
    _ ← deref (catch p) p; Ok p
  else if eqb b ";"%char then
    _ ← deref (catch p) p; Ok p
  else Ok p.

(** *** parseByte *)

Definition parseByte (b : byte) (p : parser) : outcome parser :=
  (* BRACE ESCAPE *)
  if negb (braceLevel p =? 0) then braceEscape b p
  (* COMMENTS: entrance *)
  else if eqb b "/"%char && eqb (next p) "*"%char then
    let p := set_ignore true p in
    if escape p then handleByte b p
    else nextByte b (set_commentLevel (incr (commentLevel p)) p)
  (* exit *)
  else if eqb b "*"%char && eqb (next p) "/"%char then
    if commentLevel p =? 0 then handleByte b p
    else nextByte b (set_skip true (set_commentLevel (decr (commentLevel p)) p))
  (* we're inside a comment; skip to next byte *)
  else if negb (commentLevel p =? 0) then nextByte b p
  (* BLOCKS *)
  else if eqb b "{"%char then
    let p := set_ignore true p in
    if escape p then handleByte b p
    else p ← openBlock p; handleByte b p
  else if eqb b "}"%char then
    let p := set_ignore true p in
    if escape p then handleByte b p
    else p ← closeBlock p; handleByte b p
  else if eqb b BACKSLASH then
    (* the escape will be handled later *)
    if escape p then handleByte b p else nextByte b p
  else
    blk ← derefBlock p;
    if streq (typ blk) (lit "main") && variableTokens b && negb (eqb (last p) "["%char)
    then
      let p := set_ignore true p in
      if escape p then handleByte b p
      else p ← variableToken b p; handleByte b p
    else handleByte b p.

(** *** parseLine and Parse *)

(** The loop [for i, b := range line] from index [i] on. *)
Fixpoint parseLineFrom (i : nat) (bytes : list byte) (p : parser) : outcome parser :=
  match bytes with
  | [] => Ok p
  | b :: rest =>
      if skip p then
        (* skip this byte *)
        parseLineFrom (S i) rest (set_skip false p)
      else
        (* update column and bytes *)
        let p := set_pos {| pos_line := pos_line (pos p);
                            pos_column := Z.of_nat i + 1 |} p in
        let p := set_this b p in
        let p := set_next (match rest with
                           | n :: _ => n
                           | [] => NUL
                           end) p in
        p ← parseByte b p;
        parseLineFrom (S i) rest p
  end.

Definition parseLine (line_ : gostring) (p : parser) : outcome parser :=
  parseLineFrom 0 line_ p.

(** The loop [for i, line := range strings.Split(input, "\n")]. *)
Fixpoint parseLines (i : nat) (lines : list gostring) (p : parser) : outcome parser :=
  match lines with
  | [] => Ok p
  | l :: rest =>
      let p := set_pos {| pos_line := Z.of_nat i + 1;
                          pos_column := pos_column (pos p) |} p in
      p ← parseLine l p;
      parseLines (S i) rest p
  end.

(** [mb := &parserBlock{typ: "main", genericCatch: &genericCatch{}}] *)
Definition mainBlock : parserBlock :=
  {| typ := lit "main"; name := []; classes := [];
     openPos := {| pos_line := 0; pos_column := 0 |};
     closePos := {| pos_line := 0; pos_column := 0 |};
     closed := false; parent := None; blockCatch := emptyCatch |}.

(** The main block is the first object of the heap. *)
Definition mainRef : ref := 0%nat.

(** [p := &parser{block: mb}; p.catch = mb] *)
Definition newParser : parser :=
  {| pos := {| pos_line := 0; pos_column := 0 |};
     last := NUL; this := NUL; next := NUL;
     skip := false; ignore := false; escape := false;
     catch := Some mainRef; block := Some mainRef;
     commentLevel := 0; braceLevel := 0; braceFirst := false;
     varNotInterpolated := false; varNegated := false;
     heap := [CBlock mainBlock] |}.

(** [Parse] returns its [error]; the block tree it has built is reachable
    from the main block of the parser, which the Go function only logs and
    the embedding returns. *)
Definition Parse (input : gostring) : outcome parser :=
  parseLines 0 (splitByte LF input) newParser.

(** The content of a catch of the final heap ([getContent]). *)
Definition contentOf (r : ref) (p : parser) : list iface :=
  match heap p !! r with
  | Some o => contents (positioned (gc o))
  | None => []
  end.

(** The type of a block of the final heap. *)
Definition typeOf (r : ref) (p : parser) : gostring :=
  match heap p !! r with
  | Some (CBlock b) => typ b
  | _ => []
  end.

(** *** The depth of the braces in a brace escape *)

(** The depth after a byte met at the depth [n]. *)
Definition braceStep (n : Z) (b : byte) : Z :=
  if eqb b "{"%char then n + 1
  else if eqb b "}"%char then n - 1
  else n.

Definition depthAfter (n : Z) (w : list byte) : Z := fold_left braceStep w n.

(** The bytes [w], met at the depth [n], do not close the region. *)
Fixpoint staysInside (n : Z) (w : list byte) : bool :=
  match w with
  | [] => true
  | b :: w' => (0 <? braceStep n b) && staysInside (braceStep n b) w'
  end.

(** A byte of ASCII that is not the newline, which no line holds. *)
Definition plainByte (b : byte) : Prop := byteVal b < 128 /\ b <> LF.

(** *** Invariants of the heap *)

(** A block of type [main] is never marked closed. *)
Definition mainNeverClosed (h : list catchObj) : Prop :=
  forall (r : ref) (b : parserBlock),
    h !! r = Some (CBlock b) -> typ b = lit "main" -> closed b = false.

(** The main block of [Parse] stays the first object of the heap. *)
Definition mainAtRoot (h : list catchObj) : Prop :=
  exists b, h !! mainRef = Some (CBlock b) /\ typ b = lit "main".

(** How an object of the heap may change: a block stays a block of the same
    type, and if its type is [main] its [closed] flag stays. *)
Definition evolvesObj (o o' : catchObj) : Prop :=
  match o, o' with
  | CBlock b, CBlock b' =>
      typ b' = typ b /\ (typ b = lit "main" -> closed b' = closed b)
  | CVarName _, CVarName _ => True
  | _, _ => False
  end.

(** What holds of an object added to the heap, and later. *)
Definition freshObj (o : catchObj) : Prop :=
  match o with
  | CBlock b => typ b = lit "main" -> closed b = false
  | CVarName _ => True
  end.

(** How the heap may change: objects evolve, new ones are added at the end. *)
Definition evolves (h h' : list catchObj) : Prop :=
  (forall (r : ref) (o : catchObj), h !! r = Some o ->
     exists o', h' !! r = Some o' /\ evolvesObj o o')
  /\ (forall (r : ref) (o' : catchObj), h' !! r = Some o' ->
        (length h <= r)%nat -> freshObj o').

(** *** What the properties of [Parse] are stated with *)

(** The bytes that [parseByte] gives a meaning to outside comments and brace
    escapes: the braces, the backslash, the two bytes of the comment
    delimiters and the variable tokens. *)
Definition syntaxByte (b : byte) : bool :=
  eqb b "{"%char || eqb b "}"%char || eqb b BACKSLASH || eqb b "/"%char
  || eqb b "*"%char || variableTokens b.

(** What [handleByte] adds for the bytes [w] when none is escaped:
    [string(b)] of each. *)
Definition reencoded (w : list byte) : gostring := flat_map stringOfByte w.

(** The parser has met nothing but text: it is in the main block, outside
    comments, brace escapes and escapes, and the main block holds the text
    [t] as its one string, or nothing when [t] is empty. *)
Definition textOnly (t : gostring) (p : parser) : Prop :=
  braceLevel p = 0 /\ commentLevel p = 0 /\ escape p = false /\ skip p = false
  /\ ignore p = false /\ catch p = Some mainRef /\ block p = Some mainRef
  /\ endsWith t LF = false
  /\ exists g, heap p = [CBlock (set_blockCatch g mainBlock)]
       /\ (positioned g = [] /\ t = []
           \/ exists q, positioned g = [PosContent (IString t) q] /\ t <> []).

(** The errors that [parseByte] and [handleByte] return. *)
Definition knownError (e : gostring) : Prop :=
  e = lit "Block has no type" \/ e = lit "Attempted to close main block"
  \/ (exists b, e = lit "Nothing to catch byte: " ++ stringOfByte b)
  \/ (exists b o, e = invalidByteError b o).

(** What the tree of the blocks is made of: the type of a block, its
    parent and whether it is closed; nothing for a variable name. *)
Definition skeleton (o : catchObj) : option (gostring * option ref * bool) :=
  match o with
  | CBlock b => Some (typ b, parent b, closed b)
  | CVarName _ => None
  end.

(** [onPath sk cur r]: the block [r] is the block [cur] or one of the
    blocks around it, its parent, the parent of its parent and so on. *)
Inductive onPath (sk : list (option (gostring * option ref * bool))) : ref -> ref -> Prop :=
| onPath_here (cur : ref) : onPath sk cur cur
| onPath_up (cur par r : ref) (ty : gostring) (c : bool) :
    sk !! cur = Some (Some (ty, Some par, c)) -> onPath sk par r -> onPath sk cur r.

(** The blocks are a tree under the main block: the first object is the
    main block, open and without a parent; every block has a type, and
    every other block has a parent that is a block created before it. *)
Definition treeSkeleton (sk : list (option (gostring * option ref * bool))) : Prop :=
  sk !! mainRef = Some (Some (lit "main", None, false))
  /\ forall (r : ref) (ty : gostring) (par : option ref) (c : bool),
       sk !! r = Some (Some (ty, par, c)) ->
       ty <> []
       /\ (r <> mainRef ->
           exists r' x, par = Some r' /\ (r' < r)%nat /\ sk !! r' = Some (Some x)).

(** The open blocks are the current block and the blocks around it. *)
Definition openOnPath (sk : list (option (gostring * option ref * bool))) (cur : ref) : Prop :=
  forall (r : ref) (ty : gostring) (par : option ref) (c : bool),
    sk !! r = Some (Some (ty, par, c)) -> (c = false <-> onPath sk cur r).

(** The blocks are a tree, the current block is one of them, and the open
    blocks are those from it up to the main block. *)
Definition structured (p : parser) : Prop :=
  treeSkeleton (skeleton <$> heap p)
  /\ exists cur x, block p = Some cur
       /\ (skeleton <$> heap p) !! cur = Some (Some x)
       /\ openOnPath (skeleton <$> heap p) cur.

End Parser.

(** ** The gallery block ([src/wikifier/block-gallery.go]) *)

Module Gallery.

(** [strconv.Atoi]: an optional sign and decimal digits, at least one, with
    a value of the range of [int]. *)
Fixpoint digitsVal (acc : Z) (s : gostring) : option Z :=
  match s with
  | [] => Some acc
  | c :: s' => if isDigit c then digitsVal (acc * 10 + (byteVal c - 48)) s' else None
  end.

Definition Atoi (s : gostring) : option Z :=
  let '(negative, digits) :=
    match s with
    | c :: s' => if eqb c "-"%char then (true, s')
                 else if eqb c "+"%char then (false, s')
                 else (false, s)
    | [] => (false, [])
    end in
  match digits with
  | [] => None
  | _ =>
      v ← digitsVal 0 digits;
      let v := if negative : bool then - v else v in
      if (- 2 ^ 63 <=? v) && (v <? 2 ^ 63) then Some v else None
  end.

(** A pointer to an image block. *)
Definition imgRef := nat.

(** Modelled from the spec: [Map] is not in [block-gallery.go]. A gallery is
    "a map whose anonymous values must be image blocks", and a map has
    "insertion-ordered keys"; its values are taken by their dynamic type,
    which is what [GetStr], [GetBlock] and the type assertion to an image
    block look at. *)
Inductive mapValue :=
| VStr (s : gostring)
| VImage (r : imgRef)      (* a block that is an [*imageBlock] *)
| VBlock                   (* any other block *)
| VOther.                  (* neither a string nor a block *)

Record galleryEntry := {
  thumbPath : gostring;
  img : imgRef
}.

(** [galleryBlock]; the embedded [*Map] is the list of its keys with their
    values, in the order of [OrderedKeys]. *)
Record galleryBlock := {
  thumbHeight : Z;
  images : list galleryEntry;
  Map : list (gostring * mapValue)
}.

Definition set_thumbHeight (h : Z) (g : galleryBlock) : galleryBlock :=
  {| thumbHeight := h; images := images g; Map := Map g |}.

Definition set_images (l : list galleryEntry) (g : galleryBlock) : galleryBlock :=
  {| thumbHeight := thumbHeight g; images := l; Map := Map g |}.

(** [newGalleryBlock], with the map that [newMapBlock] returns. *)
Definition newGalleryBlock (m : list (gostring * mapValue)) : galleryBlock :=
  {| thumbHeight := 220; images := []; Map := m |}.

(** Modelled from the spec: [Map.OrderedKeys], the keys in the order of
    insertion. *)
Definition OrderedKeys (g : galleryBlock) : list gostring := map fst (Map g).

(** The value of a key. *)
Fixpoint lookupKey (k : gostring) (m : list (gostring * mapValue)) : option mapValue :=
  match m with
  | [] => None
  | (k', v) :: m' => if streq k k' then Some v else lookupKey k m'
  end.

(** Modelled from the spec: [Map.GetStr], a typed getter that gives the
    value of a key that holds a string and an error ([None]) otherwise. *)
Definition GetStr (g : galleryBlock) (k : gostring) : option gostring :=
  match lookupKey k (Map g) with
  | Some (VStr s) => Some s
  | _ => None
  end.

(** Modelled from the spec: [Map.GetBlock], the typed getter for a key that
    holds a block. *)
Definition GetBlock (g : galleryBlock) (k : gostring) : option mapValue :=
  match lookupKey k (Map g) with
  | Some (VImage r) => Some (VImage r)
  | Some VBlock => Some VBlock
  | _ => None
  end.

(** The thumbnail height in force after the keys [keys] of the map [m],
    starting from [h]: the value of the last [thumb_height] among them that
    holds an integer. *)
Definition declaredHeight (m : list (gostring * mapValue)) (keys : list gostring) (h : Z) : Z :=
  fold_left (fun h k =>
               if streq k (lit "thumb_height") then
                 match lookupKey k m with
                 | Some (VStr s) => default h (Atoi s)
                 | _ => h
                 end
               else h) keys h.

(** The image that a key of the map stands for, if it does: the key is not
    [thumb_height], starts with [anon_] and holds an image block. *)
Definition imageOf (m : list (gostring * mapValue)) (k : gostring) : option imgRef :=
  if streq k (lit "thumb_height") then None
  else if negb (hasPrefix k (lit "anon_")) then None
  else match lookupKey k m with
       | Some (VImage r) => Some r
       | _ => None
       end.

(** A key that [parse] takes without a warning: [thumb_height] with an
    integer, or an anonymous image. *)
Definition keyAccepted (m : list (gostring * mapValue)) (k : gostring) : bool :=
  if streq k (lit "thumb_height") then
    match lookupKey k m with
    | Some (VStr s) => bool_decide (is_Some (Atoi s))
    | _ => false
    end
  else if negb (hasPrefix k (lit "anon_")) then false
  else match lookupKey k m with
       | Some (VImage _) => true
       | _ => false
       end.

Section Parse.

(** The parts of the page and of the image block that are not in
    [block-gallery.go]: the page with its options [Opt.Image.Retina] and
    [Opt.Root.Image], what an image holds besides the fields used here,
    and [imageBlock.parse]. *)
Variable Page : Type.
Variable retina : Page -> list Z.
Variable rootImage : Page -> gostring.
Variable imageExtra : Type.

Record imageBlock := {
  path : gostring;
  file : gostring;
  height : Z;
  width : Z;
  parsedDimensions : bool;
  extra : imageExtra
}.

Variable imageParse : Page -> imageBlock -> Page * imageBlock.

(** What [parse] works on: the gallery, the page, the image blocks that the
    pointers refer to, and the warnings given. *)
Record state := {
  gallery : galleryBlock;
  page : Page;
  imgs : list imageBlock;
  warnings : list gostring
}.

Definition warn (msg : gostring) (st : state) : state :=
  {| gallery := gallery st; page := page st; imgs := imgs st;
     warnings := warnings st ++ [msg] |}.

Definition set_gallery (g : galleryBlock) (st : state) : state :=
  {| gallery := g; page := page st; imgs := imgs st; warnings := warnings st |}.

(** The largest retina scale: [addImage] computes it and does not use it. *)
Definition largestScale (scales : list Z) : Z :=
  fold_left (fun multi scale => if multi <? scale then scale else multi) scales 1.

(** The image as [addImage] hands it to [img.parse]. *)
Definition forThumbnail (h : Z) (im : imageBlock) : imageBlock :=
  {| path := path im; file := file im; height := h; width := 0;
     parsedDimensions := true; extra := extra im |}.

Definition set_path (s : gostring) (im : imageBlock) : imageBlock :=
  {| path := s; file := file im; height := height im; width := width im;
     parsedDimensions := parsedDimensions im; extra := extra im |}.

(** [addImage]; a dangling image pointer leaves the state as it is. *)
Definition addImage (r : imgRef) (st : state) : state :=
  match imgs st !! r with
  | None => st
  | Some im =>
      (* generate the thumbnail *)
      let '(pg, parsed) := imageParse (page st) (forThumbnail (thumbHeight (gallery st)) im) in
      (* fix paths *)
      let entry := {| thumbPath := path parsed; img := r |} in
      let full := set_path (rootImage pg ++ lit "/" ++ file parsed) parsed in
      (* add the image *)
      {| gallery := set_images (images (gallery st) ++ [entry]) (gallery st);
         page := pg;
         imgs := <[r := full]> (imgs st);
         warnings := warnings st |}
  end.

(** The body of the loop of [parse] for one key. The texts of the errors of
    [GetStr] and [GetBlock] are not in the file: the warning names the key. *)
Definition parseKey (imgKey : gostring) (st : state) : state :=
  if streq imgKey (lit "thumb_height") then
    (* thumbnail height *)
    match GetStr (gallery st) imgKey with
    | None => warn (imgKey ++ lit ": not a string") st
    | Some thumbHeight_ =>
        match Atoi thumbHeight_ with
        | None => warn (lit "thumb_height: expected integer") st
        | Some h => set_gallery (set_thumbHeight h (gallery st)) st
        end
    end
  else if negb (hasPrefix imgKey (lit "anon_")) then
    (* unknown key *)
    warn (lit "Invalid key '" ++ imgKey ++ lit "'") st
  else
    match GetBlock (gallery st) imgKey with
    | None => warn (imgKey ++ lit ": not a block") st
    | Some (VImage r) => addImage r st
    | Some _ => warn (imgKey ++ lit ": expected Block<image{}>") st
    end.

(** The loop [for _, imgKey := range g.OrderedKeys()]. *)
Definition parseKeys (keys : list gostring) (st : state) : state :=
  fold_left (fun st k => parseKey k st) keys st.

(** [parse], after [g.Map.parse(page)] has filled the map. *)
Definition parse (st : state) : state :=
  parseKeys (OrderedKeys (gallery st)) st.

End Parse.

End Gallery.

(** ** Configuration ([src/config/config.go]) *)

Module Config.

(** The values of the variable map ([interface{}]). *)
Inductive cvalue :=
| CString (s : gostring)
| CMap (m : gmap gostring cvalue)
| COther.

Record Config := {
  path : gostring;
  vars : gmap gostring cvalue;
  line : option Z
}.

(** [New] *)
Definition New (path_ : gostring) : Config :=
  {| path := path_; vars := ∅; line := None |}.

(** [isTrueString] *)
Definition isTrueString (str : gostring) : bool :=
  if streq str [] || streq str (lit "0") then false else true.

Section Getters.

(** [getWhere] and [getWarn] are not in [config.go]: [getWhere] gives the
    map that holds the variable and the last part of its name, or nil
    ([None]); [getWarn] gives the text of a warning. The calls of [warn]
    only report. *)
Variable getWhere : Config -> gostring -> bool -> option (gmap gostring cvalue * gostring).
Variable getWarn : Config -> gostring -> gostring.

(** [Get] *)
Definition Get (conf : Config) (varName : gostring) : gostring :=
  match getWhere conf varName false with
  | None => []
  | Some (where_, lastPart) =>
      match where_ !! lastPart with
      | Some (CString str) => str
      | None => []
      | Some _ => []
      end
  end.

(** [GetMap]: the map, [None] for nil. *)
Definition GetMap (conf : Config) (varName : gostring) : option (gmap gostring cvalue) :=
  match getWhere conf varName false with
  | None => None
  | Some (where_, lastPart) =>
      match where_ !! lastPart with
      | Some (CMap aMap) => Some aMap
      | None => None
      | Some _ => None
      end
  end.

(** [GetStringMap]: the entries of the map that hold a string; ranging
    over a nil map does nothing. *)
Definition GetStringMap (conf : Config) (varName : gostring) : gmap gostring gostring :=
  match GetMap conf varName with
  | None => ∅
  | Some aMap =>
      omap (fun iface_ => match iface_ with
                          | CString str => Some str
                          | _ => None
                          end) aMap
  end.

(** [GetBool] *)
Definition GetBool (conf : Config) (varName : gostring) : bool :=
  isTrueString (Get conf varName).

(** [Require]: the value and the error, [None] for nil. *)
Definition Require_ (conf : Config) (varName : gostring) : gostring * option gostring :=
  let val := Get conf varName in
  if negb (isTrueString val)
  then ([], Some (getWarn conf (lit "@" ++ varName ++ lit " is required")))
  else (val, None).

(** [RequireMany] *)
Fixpoint RequireMany (conf : Config) (varNames : list gostring) : option gostring :=
  match varNames with
  | [] => None
  | varName :: more =>
      match Require_ conf varName with
      | (_, Some err) => Some err
      | (_, None) => RequireMany conf more
      end
  end.

End Getters.

(** Modelled from the spec: [getWhere] is not in [config.go]. "Dotted names
    (a.b.c) traverse nested maps": the map that holds the variable is
    reached from the root map through the parts of the name but the last,
    and there is none where a part is missing or is not a map. *)
Fixpoint descend (parts : list gostring) (lastPart : gostring)
    (where_ : gmap gostring cvalue) : option (gmap gostring cvalue * gostring) :=
  match parts with
  | [] => Some (where_, lastPart)
  | part :: more =>
      match where_ !! lastPart with
      | Some (CMap inner) => descend more part inner
      | _ => None
      end
  end.

Definition getWhereDotted (conf : Config) (varName : gostring) (createAsNeeded : bool)
    : option (gmap gostring cvalue * gostring) :=
  match splitByte "."%char varName with
  | [] => None
  | first :: more => descend more first (vars conf)
  end.

(** Modelled from the spec: [getWarn] is not in [config.go]; the text of a
    warning names the file of the configuration. *)
Definition getWarnPath (conf : Config) (msg : gostring) : gostring :=
  path conf ++ lit ": " ++ msg.

End Config.

(** ** The Markdown renderer ([src/markdown/quikirenderer/renderer.go]) *)

Module Renderer.

(** The loop of [renderCodeBlockLang] over the bytes of the code, from the
    brace level and the count of opening braces so far; the loop is left
    when the level falls below 0. The counters move by one per byte and
    stay in the range of [int]. *)
Fixpoint braceScan (code : list byte) (braceLevel braceCount : Z) : Z * Z :=
  match code with
  | [] => (braceLevel, braceCount)
  | c :: code' =>
      if eqb c "{"%char then braceScan code' (braceLevel + 1) (braceCount + 1)
      else if eqb c "}"%char then
        let braceLevel := braceLevel - 1 in
        if braceLevel <? 0 then (braceLevel, braceCount)
        else braceScan code' braceLevel braceCount
      else braceScan code' braceLevel braceCount
  end.

(** [r.braceEscape = braceLevel == 0 && braceCount != 0] *)
Definition useBraceEscape (code : list byte) : bool :=
  let '(braceLevel, braceCount) := braceScan code 0 0 in
  (braceLevel =? 0) && negb (braceCount =? 0).

(** *** Headings and the document

    The fields of [Renderer] that [renderDocument] and [renderHeading] use;
    [PartialPage], [TableOfContents] and [PageTitle] are fields of the
    embedded [Config]. *)
Record Renderer := {
  PartialPage : bool;
  TableOfContents : bool;
  PageTitle : gostring;
  headingLevel : Z
}.

Definition set_headingLevel (v : Z) (r : Renderer) : Renderer :=
  {| PartialPage := PartialPage r; TableOfContents := TableOfContents r;
     PageTitle := PageTitle r; headingLevel := v |}.

(** A loop [for cond { body }] on the state [s] that the loop changes:
    [None] when it has not ended after [fuel] turns. The two loops of
    [renderHeading] count [i] up to a bound with [i++], which wraps around:
    they do not end when the bound is the largest [int]. *)
Fixpoint loop {S : Type} (fuel : nat) (cond : S -> bool) (body : S -> S) (s : S)
  : option S :=
  match fuel with
  | O => None
  | S fuel => if cond s then loop fuel cond body (body s) else Some s
  end.

(** The number of [{] less the number of [}] among the bytes of [w]: how
    many blocks the text written so far leaves open. *)
Fixpoint braceDepth (w : gostring) : Z :=
  match w with
  | [] => 0
  | c :: w' =>
      (if eqb c "{"%char then 1 else if eqb c "}"%char then -1 else 0) + braceDepth w'
  end.

Section Headings.

(** [quikiEscFmt] is not in [renderer.go]. *)
Variable quikiEscFmt : gostring -> gostring.

(** [renderDocument], on the renderer and what is written so far (the
    writes of [w] only add to it). *)
Definition renderDocument (fuel : nat) (entering : bool) (st : Renderer * gostring)
  : option (Renderer * gostring) :=
  let '(r, w) := st in
  if entering then
    (* partial page means don't include vars *)
    if PartialPage r then Some (r, w)
    else
      let w := w ++ lit "@page.author:       Markdown;" ++ [LF] in
      let w := w ++ lit "@page.generator:    quiki/markdown/goldmark;" ++ [LF] in
      let w := w ++ lit "@page.generated;" ++ [LF; LF] in
      let w := if TableOfContents r then w ++ lit "toc{}" ++ [LF; LF] else w in
      Some (r, w)
  else
    (* for ; r.headingLevel > 0; r.headingLevel-- *)
    '(r, w) ← loop fuel (fun '(r, _) => headingLevel r >? 0)
                 (fun '(r, w) => (set_headingLevel (decr (headingLevel r)) r,
                                  w ++ [LF] ++ lit "}"))
                 (r, w);
    let w := if negb (streq (PageTitle r) [])
             then w ++ [LF] ++ lit "@page.title: " ++ quikiEscFmt (PageTitle r)
                    ++ lit ";" ++ [LF]
             else w in
    Some (r, w).

(** [renderHeading] for a heading of the level [level] ([n.Level]). *)
Definition renderHeading (fuel : nat) (level : Z) (entering : bool)
    (st : Renderer * gostring) : option (Renderer * gostring) :=
  let '(r, w) := st in
  if entering then
    (* for i := n.Level; i <= r.headingLevel; i++ *)
    '(_, w) ← loop fuel (fun '(i, _) => i <=? headingLevel r)
                 (fun '(i, w) => (incr i, w ++ [LF] ++ lit "}" ++ [LF]))
                 (level, w);
    (* e.g. going from # to ### *)
    '(_, w) ← (if level >? incr (headingLevel r) then
                 loop fuel (fun '(i, _) => i <=? level)
                   (fun '(i, w) => (incr i, w ++ lit "~sec{" ++ [LF]))
                   (wrap64 (headingLevel r + 2), w)
               else Some (0, w));
    Some (set_headingLevel level r, w ++ lit "~sec[")
  else Some (r, w ++ lit "]" ++ lit "{" ++ [LF]).

End Headings.

End Renderer.

(** ** Concrete inputs *)

Module Examples.

Import Catch Parser.

(** The parser after a successful [Parse] of a source; the new parser
    when the parse fails. *)
Definition parserAfter (input : gostring) : parser :=
  match Parse input with
  | Ok p => p
  | _ => newParser
  end.

(** The two bytes C3 A9 of the UTF-8 text of the letter e with an acute
    accent. *)
Definition eAcute : gostring := ["195"; "169"]%char.

(** The source [x{{] followed by these bytes: a brace escape that holds
    the letter. *)
Definition braceEscapeSource : gostring := lit "x{{" ++ eAcute.

(** The sources [a\{] (an escaped brace) and [\a] (an escaped letter). *)
Definition escapedBraceSource : gostring := lit "a\{".
Definition escapedLetterSource : gostring := lit "\a".



(** What a variable name hands to its parent through [appendContents] when
    it ends: its prefix and its content. *)
Definition variablePieces : list posContent :=
  [PosContent (IString (lit "@")) {| pos_line := 1; pos_column := 1 |};
   PosContent (IString (lit "name")) {| pos_line := 1; pos_column := 2 |}].

(** A catch that holds the string [a]. *)
Definition catchWithA : genericCatch :=
  pushContent (IString (lit "a")) {| pos_line := 1; pos_column := 1 |} emptyCatch.

(** A gallery on a page without state, with an image parser that writes the
    height it is given into the path: [h220/], or [h100/], before the file. *)
Definition thumbParse (pg : unit) (im : Gallery.imageBlock unit)
    : unit * Gallery.imageBlock unit :=
  (pg, Gallery.set_path unit
         ((if Gallery.height _ im =? 220 then lit "h220/"
           else if Gallery.height _ im =? 100 then lit "h100/"
           else lit "h/") ++ Gallery.file _ im) im).

Definition picture : Gallery.imageBlock unit :=
  {| Gallery.path := lit "pic.png"; Gallery.file := lit "pic.png";
     Gallery.height := 0; Gallery.width := 0;
     Gallery.parsedDimensions := false; Gallery.extra := tt |}.

Definition galleryState (m : list (gostring * Gallery.mapValue)) : Gallery.state unit unit :=
  {| Gallery.gallery := Gallery.newGalleryBlock m; Gallery.page := tt;
     Gallery.imgs := [picture]; Gallery.warnings := [] |}.

(** [gallery { image {...}  thumb_height: 100; }] and the same keys in the
    other order. *)
Definition imageFirst : list (gostring * Gallery.mapValue) :=
  [(lit "anon_0", Gallery.VImage 0%nat); (lit "thumb_height", Gallery.VStr (lit "100"))].

Definition heightFirst : list (gostring * Gallery.mapValue) :=
  [(lit "thumb_height", Gallery.VStr (lit "100")); (lit "anon_0", Gallery.VImage 0%nat)].

Definition galleryParse (m : list (gostring * Gallery.mapValue)) : Gallery.state unit unit :=
  Gallery.parse unit (fun _ => lit "/images") unit thumbParse (galleryState m).

(** A configuration in which [debug] is "0" and [verbose] is not set. *)
Definition zeroConf : Config.Config :=
  {| Config.path := lit "quiki.conf";
     Config.vars := <[lit "debug" := Config.CString (lit "0")]> ∅;
     Config.line := None |}.

(** A position. *)
Definition somewhere : Position := {| pos_line := 1; pos_column := 1 |}.

(** A slice that holds an empty string after the string [a]. *)
Definition sliceWithEmpty : iface := ISlice [IString (lit "a"); IString []].

(** A slice of the string [b] and a block. *)
Definition stringAndBlock : iface := ISlice [IString (lit "b"); IBlock 1%nat].

(** A catch that removes the indent of one tab and whose last line is
    [x], indented. *)
Definition indentedCatch : genericCatch :=
  {| positioned := [PosContent (IString (TAB :: lit "x")) somewhere];
     positionedPrefix := []; line := TAB :: lit "x";
     firstNewline := true; removeIndent := [TAB] |}.

(** A scan that has read the type [infobox.wide] and the name [N]. *)
Definition dottedScan : scanState :=
  {| inBlockName := 0; charsScanned := 15;
     blockType := lit "infobox.wide"; blockName := lit "N" |}.

(** The parser before the [{] of [intro ~sec[Title] {], before the [}] of
    [a{b}], and after the backslash of [a\]. *)
Definition beforeOpening : parser := parserAfter (lit "intro ~sec[Title] ").
Definition beforeClosing : parser := parserAfter (lit "a{b").
Definition afterBackslash : parser := parserAfter (lit "a\").

(** The parser after [x{], with the second [{] of a brace escape next. *)
Definition enteringEscape : parser :=
  set_braceFirst true (set_braceLevel 1 (parserAfter (lit "x{"))).

(** Two lines of text. *)
Definition twoLines : gostring := lit "hello" ++ [LF] ++ lit "world".

(** A configuration with the map [nav], which holds a string and a map. *)
Definition mapConf : Config.Config :=
  {| Config.path := lit "quiki.conf";
     Config.vars :=
       <[lit "nav" := Config.CMap (<[lit "home" := Config.CString (lit "/")]>
                                     (<[lit "more" := Config.CMap ∅]> ∅))]> ∅;
     Config.line := None |}.

End Examples.

(** * Properties *)

Import Catch.

(** ** Configuration *)

Section ConfigProperties.

Import Config.

Lemma isTrueString_false (str : gostring) :
  isTrueString str = false <-> str = [] \/ str = lit "0".
Proof.
  unfold isTrueString, streq.
  repeat case_bool_decide; simpl; split; intros; try discriminate; tauto.
Qed.

(** C10. For every variable name, [Require] returns an error exactly when
    [Get] gives the empty string or the string "0", [GetBool] is false in
    exactly these cases, and [Require] then returns the same pair whichever
    of the two [Get] gave: a stored "0" cannot be told from a missing value. *)
Theorem Require_error_iff_Get_empty_or_zero
    (getWhere : Config -> gostring -> bool -> option (gmap gostring cvalue * gostring))
    (getWarn : Config -> gostring -> gostring)
    (conf : Config) (v : gostring) :
  let got := Get getWhere conf v in
  (is_Some (snd (Require_ getWhere getWarn conf v)) <-> got = [] \/ got = lit "0")
  /\ (GetBool getWhere conf v = false <-> got = [] \/ got = lit "0")
  /\ (is_Some (snd (Require_ getWhere getWarn conf v)) <-> GetBool getWhere conf v = false)
  /\ (snd (Require_ getWhere getWarn conf v) = None ->
      Require_ getWhere getWarn conf v = (got, None))
  /\ (got = [] \/ got = lit "0" ->
      Require_ getWhere getWarn conf v
      = ([], Some (getWarn conf (lit "@" ++ v ++ lit " is required")))).
Proof.
  intros got. unfold Require_, GetBool. fold got.
  pose proof (isTrueString_false got) as Hts.
  destruct (isTrueString got) eqn:E; simpl.
  - assert (Hn : ~ (got = [] \/ got = lit "0")) by (intros H; apply Hts in H; discriminate).
    repeat split; try (intros [x Hx]; discriminate); try discriminate; try tauto.
    all: intros H; exfalso; tauto.
  - assert (Hy : got = [] \/ got = lit "0") by (apply Hts; reflexivity).
    repeat split; eauto; try discriminate.
Qed.

End ConfigProperties.

(** ** Catches *)

Section CatchProperties.

Lemma eqb_true (a b : byte) : eqb a b = true <-> a = b.
Proof. apply Ascii.eqb_eq. Qed.

Lemma eqb_false (a b : byte) : eqb a b = false <-> a <> b.
Proof. apply Ascii.eqb_neq. Qed.

Lemma streq_true (a b : gostring) : streq a b = true <-> a = b.
Proof. unfold streq. apply bool_decide_eq_true. Qed.

Lemma streq_false (a b : gostring) : streq a b = false <-> a <> b.
Proof. unfold streq. apply bool_decide_eq_false. Qed.

Lemma endsWith_app (v s : gostring) (c : byte) :
  s <> [] -> endsWith (v ++ s) c = endsWith s c.
Proof.
  intros Hs. unfold endsWith. rewrite last_app.
  destruct (last s) eqn:E; [reflexivity|].
  apply last_None in E. contradiction.
Qed.

Lemma setLast_snoc (v w : iface) (p : Position) (l0 : list posContent) :
  setLast v (l0 ++ [PosContent w p]) = Some (l0 ++ [PosContent v p]).
Proof.
  unfold setLast. rewrite last_snoc. f_equal.
  rewrite length_app. simpl.
  replace (pred (length l0 + 1)) with (length l0 + 0)%nat by lia.
  rewrite insert_app_r. reflexivity.
Qed.

Lemma last_Some_snoc {A} (l : list A) (x : A) :
  last l = Some x -> exists l0, l = l0 ++ [x].
Proof.
  intros H. destruct l as [|y l] using rev_ind; [discriminate|].
  rewrite last_snoc in H. injection H as ->. eauto.
Qed.

Lemma separated_snoc_other (l : list posContent) (x : posContent) :
  separated l ->
  (forall a pa, last l = Some (PosContent (IString a) pa) ->
     forall b pb, x = PosContent (IString b) pb -> endsWith a LF = true) ->
  separated (l ++ [x]).
Proof.
  intros Hl Hx i a b pa pb Hi HSi.
  destruct (decide (S i < length l)%nat) as [Hlt|Hge].
  - rewrite lookup_app_l in Hi by lia. rewrite lookup_app_l in HSi by lia. eauto.
  - assert (S i = length l) as Hlen.
    { apply lookup_lt_Some in HSi. rewrite length_app in HSi. simpl in HSi. lia. }
    rewrite lookup_app_l in Hi by lia.
    rewrite lookup_app_r in HSi by lia.
    replace (S i - length l)%nat with 0%nat in HSi by lia. simpl in HSi.
    injection HSi as HSi.
    eapply Hx; [|exact HSi].
    rewrite last_lookup. rewrite <- Hlen. simpl. exact Hi.
Qed.

Lemma separated_replace_last (l0 : list posContent) (x y : posContent) :
  separated (l0 ++ [x]) ->
  (forall b pb, y = PosContent (IString b) pb -> exists b' pb', x = PosContent (IString b') pb') ->
  separated (l0 ++ [y]).
Proof.
  intros Hl Hy i a b pa pb Hi HSi.
  destruct (decide (S i < length l0)%nat) as [Hlt|Hge].
  - rewrite lookup_app_l in Hi by lia. rewrite lookup_app_l in HSi by lia.
    eapply (Hl i a b pa pb); rewrite lookup_app_l by lia; eauto.
  - assert (S i = length l0) as Hlen.
    { apply lookup_lt_Some in HSi. rewrite length_app in HSi. simpl in HSi. lia. }
    rewrite lookup_app_l in Hi by lia.
    rewrite lookup_app_r in HSi by lia.
    replace (S i - length l0)%nat with 0%nat in HSi by lia. simpl in HSi.
    injection HSi as HSi.
    destruct (Hy _ _ HSi) as (b' & pb' & ->).
    eapply (Hl i a b' pa pb').
    + rewrite lookup_app_l by lia. exact Hi.
    + rewrite lookup_app_r by lia.
      replace (S i - length l0)%nat with 0%nat by lia. reflexivity.
Qed.

Lemma lastIndexByte_Some (v : gostring) (c : byte) (k : nat) :
  lastIndexByte v c = Some k -> exists rest, drop k v = c :: rest.
Proof.
  revert k. induction v as [|x v IH]; intros k H; simpl in H; [discriminate|].
  destruct (lastIndexByte v c) as [i|] eqn:E.
  - injection H as <-. simpl. apply IH. reflexivity.
  - destruct (eqb x c) eqn:Ex; [|discriminate].
    injection H as <-. apply eqb_true in Ex. subst. simpl. eauto.
Qed.

Lemma lastIndexByte_None (v : gostring) (c : byte) :
  lastIndexByte v c = None -> c ∉ v.
Proof.
  induction v as [|x v IH]; intros H; simpl in H.
  - apply not_elem_of_nil.
  - destruct (lastIndexByte v c) eqn:E; [discriminate|].
    destruct (eqb x c) eqn:Ex; [discriminate|].
    apply eqb_false in Ex. apply not_elem_of_cons. split; [congruence|auto].
Qed.

Lemma endsWith_elem (v : gostring) (c : byte) :
  endsWith v c = true -> c ∈ v.
Proof.
  unfold endsWith. destruct (last v) as [x|] eqn:E; [|discriminate].
  intros H. apply eqb_true in H. subst.
  apply last_Some_snoc in E as [l0 ->]. apply elem_of_app. right. apply list_elem_of_here.
Qed.

Lemma endsWith_not_elem (v : gostring) (c : byte) :
  c ∉ v -> endsWith v c = false.
Proof.
  intros H. destruct (endsWith v c) eqn:E; [|reflexivity].
  apply endsWith_elem in E. contradiction.
Qed.

Lemma trimLeftBlank_split (l : gostring) :
  exists pre, l = pre ++ trimLeftBlank l /\ Forall (fun b => b = TAB \/ b = SP) pre.
Proof.
  induction l as [|c l IH]; simpl.
  - exists []. split; [reflexivity|constructor].
  - destruct (eqb c TAB || eqb c SP) eqn:E.
    + destruct IH as (pre & Hl & Hpre). exists (c :: pre). split.
      * simpl. congruence.
      * constructor; [|assumption].
        apply orb_true_iff in E as [E|E]; apply eqb_true in E; auto.
    + exists []. split; [reflexivity|constructor].
Qed.

Lemma hasPrefix_blank (s ri : gostring) :
  ri <> [] -> Forall (fun b => b = TAB \/ b = SP) ri ->
  hasPrefix (LF :: s) ri = false.
Proof.
  intros Hne Hb. destruct ri as [|r ri]; [contradiction|].
  inversion Hb as [|? ? Hr _]; subst. simpl.
  destruct Hr as [-> | ->]; reflexivity.
Qed.

Lemma finishLine_trimmed (c : genericCatch) :
  blankIndent c ->
  trimmedLast (positioned c) (positioned (finishLine c))
  /\ removeIndent (finishLine c) = removeIndent c.
Proof.
  intros Hb. unfold finishLine, lastContent. simpl.
  destruct (last (positioned c)) as [[w p]|] eqn:El; simpl;
    [|split; [apply trimmed_same|]; reflexivity].
  destruct w; try (split; [apply trimmed_same|]; reflexivity).
  destruct (streq (removeIndent c) []) eqn:Eri;
    [split; [apply trimmed_same|]; reflexivity|].
  apply streq_false in Eri.
  apply last_Some_snoc in El as [l0 El]. rewrite El.
  rewrite setLast_snoc. simpl. split; [|reflexivity].
  destruct (lastIndexByte s LF) as [k|] eqn:Ek; simpl.
  - destruct (lastIndexByte_Some _ _ _ Ek) as [rest Hd]. rewrite Hd.
    unfold trimPrefix. rewrite hasPrefix_blank by assumption.
    rewrite <- Hd. rewrite take_drop. apply trimmed_same. reflexivity.
  - apply lastIndexByte_None in Ek. rewrite drop_0.
    eapply trimmed_last; [reflexivity|reflexivity|exact Ek|].
    unfold trimPrefix.
    destruct (hasPrefix s (removeIndent c)); [|assumption].
    intros Hin. apply Ek. eapply subseteq_drop; eauto.
Qed.

Lemma noteLine_trimmed (s : gostring) (c : genericCatch) :
  blankIndent c ->
  trimmedLast (positioned c) (positioned (noteLine s c))
  /\ blankIndent (noteLine s c)
  /\ (endsWith s LF = false -> positioned (noteLine s c) = positioned c).
Proof.
  intros Hb. unfold noteLine.
  destruct (endsWith s LF);
    [|split; [apply trimmed_same; reflexivity|split; [exact Hb|reflexivity]]].
  match goal with |- context [finishLine ?x] => set (c1 := x) end.
  assert (Hp : positioned c1 = positioned c).
  { subst c1. simpl.
    destruct (negb (firstNewline c) && (2 <? len (line c ++ s))); [|reflexivity].
    simpl. destruct (_ =? _)%nat; reflexivity. }
  assert (Hb1 : blankIndent c1).
  { subst c1. unfold blankIndent. simpl.
    destruct (negb (firstNewline c) && (2 <? len (line c ++ s))); [|exact Hb].
    simpl. destruct (_ =? _)%nat eqn:Ed; [exact Hb|]. simpl.
    destruct (trimLeftBlank_split (line c ++ s)) as (pre & Hl & Hpre).
    remember (trimLeftBlank (line c ++ s)) as t eqn:Et. clear Et.
    rewrite Hl. rewrite length_app.
    replace (length pre + length t - length t)%nat with (length pre + 0)%nat by lia.
    rewrite take_app_add'; [|reflexivity]. rewrite take_0, app_nil_r. exact Hpre. }
  destruct (finishLine_trimmed c1 Hb1) as [Ht Hri].
  rewrite Hp in Ht. split; [exact Ht|]. split; [|discriminate].
  unfold blankIndent. rewrite Hri. exact Hb1.
Qed.

Lemma lastContent_snoc (l0 : list posContent) (w : iface) (p : Position) (c : genericCatch) :
  positioned c = l0 ++ [PosContent w p] -> lastContent c = Some w.
Proof. intros H. unfold lastContent. rewrite H, last_snoc. reflexivity. Qed.

(** What [appendString] does once the line is noted. *)
Lemma appendString_after_noteLine (s : gostring) (p : Position) (c : genericCatch) :
  s <> [] ->
  appendString s p c =
  let c1 := noteLine s c in
  match lastContent c1 with
  | Some (IString v) =>
      if endsWith v LF then Some (pushContent (IString s) p c1)
      else setLastContent (IString (v ++ s)) c1
  | _ => Some (pushContent (IString s) p c1)
  end.
Proof.
  intros Hs. unfold appendString. destruct s as [|x s]; [contradiction|].
  simpl. destruct (lastContent _) as [[v| | | |]|]; try reflexivity.
  destruct (streq v []) eqn:E; simpl; [|reflexivity].
  apply streq_true in E. subst. reflexivity.
Qed.

Lemma finishLine_shape (c : genericCatch) :
  positioned (finishLine c) = positioned c
  \/ exists l0 v v' q,
       positioned c = l0 ++ [PosContent (IString v) q]
       /\ positioned (finishLine c) = l0 ++ [PosContent (IString v') q].
Proof.
  unfold finishLine, lastContent. simpl.
  destruct (last (positioned c)) as [[w q]|] eqn:El; simpl; [|left; reflexivity].
  destruct w; try (left; reflexivity).
  destruct (streq (removeIndent c) []); [left; reflexivity|].
  apply last_Some_snoc in El as [l0 El]. rewrite El, setLast_snoc. simpl.
  right. eauto 6.
Qed.

Lemma noteLine_shape (s : gostring) (c : genericCatch) :
  positioned (noteLine s c) = positioned c
  \/ exists l0 v v' q,
       positioned c = l0 ++ [PosContent (IString v) q]
       /\ positioned (noteLine s c) = l0 ++ [PosContent (IString v') q].
Proof.
  unfold noteLine. destruct (endsWith s LF); [|left; reflexivity].
  match goal with |- context [finishLine ?x] => set (c1 := x) end.
  assert (Hp : positioned c1 = positioned c).
  { subst c1. simpl.
    destruct (negb (firstNewline c) && (2 <? len (line c ++ s))); [|reflexivity].
    simpl. destruct (_ =? _)%nat; reflexivity. }
  rewrite <- Hp. apply finishLine_shape.
Qed.

(** [appendString] keeps the strings separated, whatever the catch. *)
Lemma appendString_separated (s : gostring) (p : Position) (c : genericCatch) :
  s <> [] -> separated (positioned c) ->
  exists c', appendString s p c = Some c' /\ separated (positioned c').
Proof.
  intros Hs Hsep.
  rewrite (appendString_after_noteLine s p c Hs). cbv zeta.
  set (c1 := noteLine s c).
  assert (Hsep1 : separated (positioned c1)).
  { destruct (noteLine_shape s c) as [Heq | (l0 & v & v' & q & Hl & Hl')];
      fold c1 in Heq || fold c1 in Hl'.
    - rewrite Heq. exact Hsep.
    - rewrite Hl'. rewrite Hl in Hsep.
      eapply separated_replace_last; [exact Hsep|]. eauto. }
  unfold lastContent.
  destruct (last (positioned c1)) as [[w q]|] eqn:El; simpl.
  - pose proof El as El'. apply last_Some_snoc in El' as [l0 El'].
    assert (Hpush : (forall v, w = IString v -> endsWith v LF = true) ->
              separated (positioned (pushContent (IString s) p c1))).
    { intros Hw. simpl. apply separated_snoc_other; [exact Hsep1|].
      intros a pa Ha b pb _. rewrite El in Ha. injection Ha as -> ->. auto. }
    destruct w as [v| | | |];
      try (eexists; split; [reflexivity|]; apply Hpush; intros; discriminate).
    destruct (endsWith v LF) eqn:Ev.
    + eexists; split; [reflexivity|]. apply Hpush. intros v0 Hv0. congruence.
    + unfold setLastContent. rewrite El', setLast_snoc. simpl.
      eexists; split; [reflexivity|]. simpl.
      rewrite El' in Hsep1. eapply separated_replace_last; [exact Hsep1|]. eauto.
  - eexists; split; [reflexivity|]. simpl.
    apply separated_snoc_other; [exact Hsep1|].
    intros a pa Ha. rewrite El in Ha. discriminate.
Qed.

(** How [appendString] adds the string when the indent to remove is blank. *)
Lemma appendString_merges
    (s : gostring) (p : Position) (c : genericCatch) :
  s <> [] -> blankIndent c -> separated (positioned c) ->
  exists c', appendString s p c = Some c'
    /\ blankIndent c' /\ separated (positioned c')
    /\ match lastContent c with
       | Some (IString v) =>
           if endsWith v LF
           then positioned c' = positioned c ++ [PosContent (IString s) p]
           else length (positioned c') = length (positioned c)
                /\ exists v', lastContent c' = Some (IString (v' ++ s))
                              /\ (endsWith s LF = false -> v' = v)
       | _ => positioned c' = positioned c ++ [PosContent (IString s) p]
       end.
Proof.
  intros Hs Hb Hsep.
  rewrite (appendString_after_noteLine s p c Hs). cbv zeta.
  destruct (noteLine_trimmed s c Hb) as (Ht & Hb1 & Hsame).
  set (c1 := noteLine s c) in *.
  destruct Ht as [Heq | l0 v v' q Hl Hl' Hv Hv'].
  - (* the list is as it was *)
    assert (Hlc : lastContent c1 = lastContent c)
      by (unfold lastContent; rewrite Heq; reflexivity).
    rewrite Hlc.
    destruct (lastContent c) as [w|] eqn:Elast.
    + unfold lastContent in Elast.
      destruct (last (positioned c)) as [[w' q]|] eqn:El; [|discriminate].
      simpl in Elast. injection Elast as ->.
      apply last_Some_snoc in El as [l0 El].
      assert (Hpush : separated (positioned (pushContent (IString s) p c1))
                      \/ exists v, w = IString v /\ endsWith v LF = false).
      { destruct w as [v| | | |];
          try (left; simpl; rewrite Heq; apply separated_snoc_other; [exact Hsep|];
               intros a pa Ha; rewrite El, last_snoc in Ha; discriminate).
        destruct (endsWith v LF) eqn:Ev; [|right; eauto].
        left. simpl. rewrite Heq. apply separated_snoc_other; [exact Hsep|].
        intros a pa Ha. rewrite El, last_snoc in Ha. injection Ha as <- <-. auto. }
      destruct w as [v| | | |];
        try (eexists; split; [reflexivity|]; split; [exact Hb1|];
             split; [destruct Hpush as [H|(? & ? & _)]; [exact H|discriminate]|];
             simpl; rewrite Heq; reflexivity).
      destruct (endsWith v LF) eqn:Ev.
      * eexists; split; [reflexivity|]; split; [exact Hb1|].
        split; [destruct Hpush as [H|(? & H1 & H2)]; [exact H|]|].
        -- injection H1 as <-. congruence.
        -- simpl. rewrite Heq. reflexivity.
      * unfold setLastContent. rewrite Heq, El, setLast_snoc. simpl.
        eexists; split; [reflexivity|]. split; [exact Hb1|]. simpl.
        split; [|split].
        -- rewrite El in Hsep. eapply separated_replace_last; [exact Hsep|]. eauto.
        -- rewrite !length_app. reflexivity.
        -- exists v. split; [|reflexivity].
           unfold lastContent. simpl. rewrite last_snoc. reflexivity.
    + eexists; split; [reflexivity|]. split; [exact Hb1|]. simpl. rewrite Heq.
      split; [|reflexivity].
      apply separated_snoc_other; [exact Hsep|].
      intros a pa Ha. unfold lastContent in Elast. rewrite Ha in Elast. discriminate.
  - (* the last string has lost its indent: neither has a newline *)
    rewrite (lastContent_snoc _ _ _ _ Hl), (lastContent_snoc _ _ _ _ Hl').
    rewrite (endsWith_not_elem _ _ Hv), (endsWith_not_elem _ _ Hv').
    unfold setLastContent. rewrite Hl', setLast_snoc. simpl.
    eexists; split; [reflexivity|]. split; [exact Hb1|]. simpl.
    split; [|split].
    + rewrite Hl in Hsep. eapply separated_replace_last; [exact Hsep|]. eauto.
    + rewrite Hl, !length_app. reflexivity.
    + exists v'. split.
      * unfold lastContent. simpl. rewrite last_snoc. reflexivity.
      * intros Hns. apply Hsame in Hns. rewrite Hl, Hl' in Hns.
        apply app_inj_tail in Hns as [_ Hns]. congruence.
Qed.

(** C9, as amended. [appendString], which panics on the empty string,
    keeps the property that no two consecutive elements of the positioned
    list are both strings unless the earlier one ends with a newline; and,
    the indent to remove being made of tabs and spaces as [appendString]
    sets it, it merges the new string into the last element when that is a
    string that does not end in a newline, and adds a new element
    otherwise. (The methods that add elements as they are given,
    [appendContents] and [pushContent], do not keep the property.) *)
Theorem appendString_keeps_strings_separated
    (s : gostring) (p : Position) (c : genericCatch) :
  s <> [] -> separated (positioned c) ->
  exists c', appendString s p c = Some c'
    /\ separated (positioned c')
    /\ (blankIndent c ->
        blankIndent c'
        /\ match lastContent c with
           | Some (IString v) =>
               if endsWith v LF
               then positioned c' = positioned c ++ [PosContent (IString s) p]
               else length (positioned c') = length (positioned c)
                    /\ exists v', lastContent c' = Some (IString (v' ++ s))
                                  /\ (endsWith s LF = false -> v' = v)
           | _ => positioned c' = positioned c ++ [PosContent (IString s) p]
           end).
Proof.
  intros Hs Hsep.
  destruct (appendString_separated s p c Hs Hsep) as (c' & Hc' & Hsep').
  exists c'. split; [exact Hc'|]. split; [exact Hsep'|].
  intros Hb.
  destruct (appendString_merges s p c Hs Hb Hsep) as (c'' & Hc'' & Hb' & _ & Hm).
  rewrite Hc' in Hc''. injection Hc'' as <-. split; assumption.
Qed.

End CatchProperties.

(** ** The parser: how the heap evolves *)

Section HeapProperties.

Import Parser.

Lemma bind_Ok {A B} (m : outcome A) (k : A -> outcome B) (b : B) :
  (m ≫= k) = Ok b <-> exists a, m = Ok a /\ k a = Ok b.
Proof.
  destruct m as [a| |]; simpl; split.
  - intros H. exists a. auto.
  - intros (a' & Ha & Hk). injection Ha as <-. exact Hk.
  - discriminate.
  - intros (a' & Ha & _). discriminate.
  - discriminate.
  - intros (a' & Ha & _). discriminate.
Qed.

Lemma orPanic_Ok {A} (o : option A) (a : A) : orPanic o = Ok a <-> o = Some a.
Proof. destruct o; simpl; split; intros H; try discriminate; congruence. Qed.

Lemma evolvesObj_refl (o : catchObj) : evolvesObj o o.
Proof. destruct o; simpl; auto. Qed.

Lemma evolvesObj_trans (a b c : catchObj) :
  evolvesObj a b -> evolvesObj b c -> evolvesObj a c.
Proof.
  destruct a, b, c; simpl; try tauto.
  intros [H1 H2] [H3 H4]. split; [congruence|].
  intros Hm. rewrite H4 by congruence. auto.
Qed.

Lemma evolves_refl (h : list catchObj) : evolves h h.
Proof.
  split.
  - intros r o H. exists o. split; [exact H|apply evolvesObj_refl].
  - intros r o H Hr. apply lookup_lt_Some in H. lia.
Qed.

Lemma evolves_length (h h' : list catchObj) : evolves h h' -> (length h <= length h')%nat.
Proof.
  intros [H _]. destruct (decide (length h <= length h')%nat) as [|Hn]; [assumption|].
  destruct (lookup_lt_is_Some_2 h (length h')) as [o Ho]; [lia|].
  destruct (H _ _ Ho) as (o' & Ho' & _). apply lookup_lt_Some in Ho'. lia.
Qed.

Lemma evolves_trans (h1 h2 h3 : list catchObj) :
  evolves h1 h2 -> evolves h2 h3 -> evolves h1 h3.
Proof.
  intros H12 H23. pose proof (evolves_length _ _ H12) as Hlen.
  destruct H12 as [A1 B1], H23 as [A2 B2]. split.
  - intros r o H. destruct (A1 _ _ H) as (o2 & H2 & E2).
    destruct (A2 _ _ H2) as (o3 & H3 & E3).
    exists o3. split; [exact H3|]. eapply evolvesObj_trans; eauto.
  - intros r o3 H3 Hr.
    destruct (h2 !! r) as [o2|] eqn:E2.
    + pose proof (B1 _ _ E2 Hr) as F2.
      destruct (A2 _ _ E2) as (o3' & H3' & E3). rewrite H3 in H3'. injection H3' as <-.
      destruct o2, o3; simpl in *; try tauto.
      destruct E3 as [E3 E4]. intros Hm. rewrite E4 by congruence.
      apply F2. congruence.
    + apply (B2 _ _ H3). apply lookup_ge_None in E2. lia.
Qed.

Lemma evolves_insert (h : list catchObj) (r : ref) (o o' : catchObj) :
  h !! r = Some o -> evolvesObj o o' -> evolves h (<[r := o']> h).
Proof.
  intros Hr He. split.
  - intros r' o0 H0. destruct (decide (r = r')) as [<-|Hne].
    + exists o'. rewrite list_lookup_insert_eq by (eapply lookup_lt_Some; eauto).
      split; [reflexivity|]. congruence.
    + exists o0. rewrite list_lookup_insert_ne by assumption.
      split; [assumption|apply evolvesObj_refl].
  - intros r' o0 H0 Hge. apply lookup_lt_Some in H0. rewrite length_insert in H0. lia.
Qed.

Lemma evolves_snoc (h : list catchObj) (o : catchObj) :
  freshObj o -> evolves h (h ++ [o]).
Proof.
  intros Hf. split.
  - intros r o0 H0. exists o0. split; [|apply evolvesObj_refl].
    rewrite lookup_app_l by (eapply lookup_lt_Some; eauto). assumption.
  - intros r o' H' Hge.
    rewrite lookup_app_r in H' by lia.
    destruct (r - length h)%nat; simpl in H'; [|discriminate].
    congruence.
Qed.

Lemma evolvesObj_set_gc (g : genericCatch) (o : catchObj) : evolvesObj o (set_gc g o).
Proof. destruct o; simpl; auto. Qed.

Lemma onCatch_Ok (f : genericCatch -> option genericCatch) (p p' : parser) :
  onCatch f p = Ok p' <->
  exists r o g, catch p = Some r /\ heap p !! r = Some o /\ f (gc o) = Some g
                /\ p' = set_heap (<[r := set_gc g o]> (heap p)) p.
Proof.
  unfold onCatch. destruct (catch p) as [r|].
  - split.
    + intros H. apply bind_Ok in H as (o & Ho & H). apply orPanic_Ok in Ho.
      apply bind_Ok in H as (g & Hg & H). apply orPanic_Ok in Hg.
      injection H as <-. exists r, o, g. auto.
    + intros (r' & o & g & Hr & Ho & Hg & ->). injection Hr as <-.
      rewrite Ho. simpl. rewrite Hg. reflexivity.
  - split; [discriminate|]. intros (? & ? & ? & ? & _). discriminate.
Qed.

Lemma onCatch_evolves f p p' : onCatch f p = Ok p' -> evolves (heap p) (heap p').
Proof.
  intros H. apply onCatch_Ok in H as (r & o & g & _ & Ho & _ & ->). simpl.
  eapply evolves_insert; [exact Ho|apply evolvesObj_set_gc].
Qed.

Lemma popCatch_heap p p' : popCatch p = Ok p' -> heap p' = heap p.
Proof.
  unfold popCatch. intros H. apply bind_Ok in H as (o & _ & H).
  injection H as <-. reflexivity.
Qed.

Lemma nextByte_heap b p p' : nextByte b p = Ok p' -> heap p' = heap p.
Proof.
  unfold nextByte. destruct (_ && _); intros H; injection H as <-; reflexivity.
Qed.

Lemma nextByte_total b p : exists p', nextByte b p = Ok p'.
Proof. unfold nextByte. destruct (_ && _); eauto. Qed.

Lemma handleByte_evolves b p p' : handleByte b p = Ok p' -> evolves (heap p) (heap p').
Proof.
  unfold handleByte. destruct (catch p) as [r|] eqn:Ec; [|discriminate].
  intros H. apply bind_Ok in H as (o & Ho & H).
  apply bind_Ok in H as (p1 & H1 & H).
  apply bind_Ok in H as (p2 & H2 & H).
  apply nextByte_heap in H. rewrite H.
  apply onCatch_evolves in H2.
  eapply evolves_trans; [|exact H2].
  destruct (shouldSkipByte o b).
  - apply onCatch_evolves in H1. exact H1.
  - destruct (negb (byteOK o b)); [discriminate|].
    injection H1 as <-. apply evolves_refl.
Qed.

Lemma openBlock_evolves p p' : openBlock p = Ok p' -> evolves (heap p) (heap p').
Proof.
  unfold openBlock. destruct (eqb (next p) "@"%char).
  { intros H. injection H as <-. apply evolves_refl. }
  intros H. apply bind_Ok in H as (o & Ho & H).
  destruct (streq (lastString (gc o)) []); [discriminate|].
  apply bind_Ok in H as (p1 & H1 & H).
  apply onCatch_evolves in H1.
  eapply evolves_trans; [exact H1|].
  destruct (headerOf _) as [[ty nm] cls].
  assert (Hev : forall blk, closed blk = false ->
            evolves (heap p1) (heap p1 ++ [CBlock blk])).
  { intros blk Hc. apply evolves_snoc. simpl. auto. }
  destruct (eqb _ "{"%char) ; injection H as <-; simpl; apply Hev; reflexivity.
Qed.

Lemma derefBlock_Ok p blk :
  derefBlock p = Ok blk <-> exists r, block p = Some r /\ heap p !! r = Some (CBlock blk).
Proof.
  unfold derefBlock, deref. destruct (block p) as [r|].
  - destruct (heap p !! r) as [[b|v]|] eqn:E; simpl; split; intros H.
    + injection H as <-. exists r. split; [reflexivity|exact E].
    + destruct H as (r' & Hr & Hb). congruence.
    + discriminate.
    + destruct H as (r' & Hr & Hb). congruence.
    + discriminate.
    + destruct H as (r' & Hr & Hb). congruence.
  - simpl. split; [discriminate|]. intros (? & ? & _). discriminate.
Qed.

Lemma closeBlock_evolves p p' : closeBlock p = Ok p' -> evolves (heap p) (heap p').
Proof.
  unfold closeBlock. intros H. apply bind_Ok in H as (blk & Hb & H).
  apply derefBlock_Ok in Hb as (r & Hr & Hblk).
  destruct (streq (typ blk) (lit "main")) eqn:Em; [discriminate|].
  apply streq_false in Em.
  rewrite Hr in H.
  apply bind_Ok in H as (p1 & H1 & H).
  apply popCatch_heap in H1. apply onCatch_evolves in H.
  rewrite H1 in H. simpl in H.
  eapply evolves_trans; [|exact H].
  eapply evolves_insert; [exact Hblk|]. simpl. split; [reflexivity|]. contradiction.
Qed.

Lemma variableToken_evolves b p p' :
  variableToken b p = Ok p' -> evolves (heap p) (heap p').
Proof.
  unfold variableToken.
  destruct (_ && bool_decide _).
  - destruct (eqb b "%"%char); destruct (eqb (last _) "-"%char);
      intros H; injection H as <-; simpl; apply evolves_snoc; exact I.
  - destruct (eqb b ":"%char); [|destruct (eqb b ";"%char)];
      intros H; try (apply bind_Ok in H as (? & _ & H));
      injection H as <-; apply evolves_refl.
Qed.

Lemma braceEscape_evolves b p p' : braceEscape b p = Ok p' -> evolves (heap p) (heap p').
Proof.
  unfold braceEscape. intros H. apply bind_Ok in H as (p1 & H1 & H).
  assert (E1 : heap p1 = heap p).
  { destruct (_ && _); [injection H1 as <-; reflexivity|].
    destruct (eqb b "}"%char); [|injection H1 as <-; reflexivity].
    destruct (_ =? 0); [apply popCatch_heap in H1; exact H1|].
    injection H1 as <-. reflexivity. }
  rewrite <- E1.
  destruct (_ || _).
  - apply nextByte_heap in H. rewrite H. apply evolves_refl.
  - apply handleByte_evolves in H. exact H.
Qed.

Lemma parseByte_evolves b p p' : parseByte b p = Ok p' -> evolves (heap p) (heap p').
Proof.
  unfold parseByte.
  repeat match goal with
         | |- (if ?c then _ else _) = _ -> _ => destruct c
         | |- (let _ := _ in _) = _ -> _ => cbv zeta
         end;
    try (intros H; apply braceEscape_evolves in H; exact H);
    try (intros H; apply handleByte_evolves in H; exact H);
    try (intros H; apply nextByte_heap in H; rewrite H; apply evolves_refl).
  - intros H. apply bind_Ok in H as (p1 & H1 & H).
    apply openBlock_evolves in H1. apply handleByte_evolves in H.
    eapply evolves_trans; eauto.
  - intros H. apply bind_Ok in H as (p1 & H1 & H).
    apply closeBlock_evolves in H1. apply handleByte_evolves in H.
    eapply evolves_trans; eauto.
  - intros H. apply bind_Ok in H as (blk & _ & H). revert H.
    repeat match goal with
           | |- (if ?c then _ else _) = _ -> _ => destruct c
           end;
      try (intros H; apply handleByte_evolves in H; exact H).
    intros H. apply bind_Ok in H as (p1 & H1 & H).
    apply variableToken_evolves in H1. apply handleByte_evolves in H.
    eapply evolves_trans; eauto.
Qed.

Lemma parseLineFrom_evolves bytes i p p' :
  parseLineFrom i bytes p = Ok p' -> evolves (heap p) (heap p').
Proof.
  revert i p. induction bytes as [|b rest IH]; intros i p; simpl.
  - intros H. injection H as <-. apply evolves_refl.
  - destruct (skip p).
    + intros H. apply IH in H. exact H.
    + intros H. apply bind_Ok in H as (p1 & H1 & H).
      apply parseByte_evolves in H1. apply IH in H.
      eapply evolves_trans; eauto.
Qed.

Lemma parseLines_evolves lines i p p' :
  parseLines i lines p = Ok p' -> evolves (heap p) (heap p').
Proof.
  revert i p. induction lines as [|l rest IH]; intros i p; simpl.
  - intros H. injection H as <-. apply evolves_refl.
  - intros H. apply bind_Ok in H as (p1 & H1 & H).
    apply parseLineFrom_evolves in H1. apply IH in H.
    eapply evolves_trans; eauto.
Qed.

Lemma evolves_mainNeverClosed h h' :
  evolves h h' -> mainNeverClosed h -> mainNeverClosed h'.
Proof.
  intros [A B] Hm r b' Hr Ht.
  destruct (h !! r) as [o|] eqn:E.
  - destruct (A _ _ E) as (o' & Ho' & He). rewrite Hr in Ho'. injection Ho' as <-.
    destruct o as [b|v]; simpl in He; [|contradiction].
    destruct He as [E1 E2]. rewrite E1 in Ht. rewrite (E2 Ht).
    eapply Hm; [exact E|exact Ht].
  - apply lookup_ge_None in E. exact (B _ _ Hr E Ht).
Qed.

Lemma evolves_mainAtRoot h h' : evolves h h' -> mainAtRoot h -> mainAtRoot h'.
Proof.
  intros [A _] (b & Hb & Ht). destruct (A _ _ Hb) as (o' & Ho' & He).
  destruct o' as [b'|]; simpl in He; [|contradiction].
  exists b'. split; [exact Ho'|]. destruct He. congruence.
Qed.

End HeapProperties.

(** ** The parser: closing blocks, comments *)

Section ParserProperties.

Import Parser.

Lemma newParser_main : mainNeverClosed (heap newParser) /\ mainAtRoot (heap newParser).
Proof.
  split.
  - intros [|r] b H Ht; simpl in H; [|discriminate].
    injection H as <-. reflexivity.
  - exists mainBlock. split; reflexivity.
Qed.

(** C3. An unescaped [}] met outside comments and brace escapes while the
    current block has the type [main] makes [parseByte] fail with the error
    "Attempted to close main block", and with it the line, whatever follows
    the byte; and whatever the input, a parse that succeeds leaves the main
    block, and every block of type [main], not closed. *)
Theorem closing_main_fails :
  (forall (p : parser) (blk : parserBlock),
      braceLevel p = 0 -> commentLevel p = 0 -> escape p = false ->
      derefBlock p = Ok blk -> typ blk = lit "main" ->
      parseByte "}"%char p = Err (lit "Attempted to close main block")
      /\ forall (i : nat) (rest : list byte),
           skip p = false ->
           parseLineFrom i ("}"%char :: rest) p
           = Err (lit "Attempted to close main block"))
  /\ (forall (input : gostring) (p : parser),
        Parse input = Ok p ->
        mainNeverClosed (heap p)
        /\ exists b, heap p !! mainRef = Some (CBlock b)
                     /\ typ b = lit "main" /\ closed b = false).
Proof.
  assert (Hstep : forall (p : parser) (blk : parserBlock),
            braceLevel p = 0 -> commentLevel p = 0 -> escape p = false ->
            derefBlock p = Ok blk -> typ blk = lit "main" ->
            parseByte "}"%char p = Err (lit "Attempted to close main block")).
  { intros p blk Hb Hc He Hd Ht. unfold parseByte.
    rewrite Hb, Hc. simpl. rewrite He.
    unfold closeBlock.
    replace (derefBlock (set_ignore true p)) with (derefBlock p) by reflexivity.
    rewrite Hd. simpl. rewrite Ht. reflexivity. }
  split.
  - intros p blk Hb Hc He Hd Ht. split; [eapply Hstep; eauto|].
    intros i rest Hs. simpl. rewrite Hs.
    erewrite Hstep; [reflexivity| | | | |exact Ht]; try assumption.
  - intros input p H. unfold Parse in H. apply parseLines_evolves in H.
    destruct newParser_main as [Hn Hr].
    pose proof (evolves_mainNeverClosed _ _ H Hn) as Hn'.
    destruct (evolves_mainAtRoot _ _ H Hr) as (b & Hb & Ht).
    split; [exact Hn'|]. exists b. split; [exact Hb|]. split; [exact Ht|].
    eapply Hn'; eauto.
Qed.


Lemma appendString_last (s : gostring) (q : Position) (c : genericCatch) :
  s <> [] ->
  exists c' v', appendString s q c = Some c'
                /\ lastContent c' = Some (IString (v' ++ s)).
Proof.
  intros Hs. rewrite (appendString_after_noteLine s q c Hs). cbv zeta.
  set (c1 := noteLine s c).
  assert (Hpush : exists c' v', Some (pushContent (IString s) q c1) = Some c'
                                /\ lastContent c' = Some (IString (v' ++ s))).
  { eexists. exists []. split; [reflexivity|].
    unfold lastContent. simpl. rewrite last_snoc. reflexivity. }
  destruct (lastContent c1) as [[v| | | |]|] eqn:El; try exact Hpush.
  destruct (endsWith v LF); [exact Hpush|].
  unfold lastContent in El.
  destruct (list.last (positioned c1)) as [[w q']|] eqn:E; [|discriminate].
  apply last_Some_snoc in E as [l0 E].
  unfold setLastContent. rewrite E, setLast_snoc. simpl.
  eexists. exists v. split; [reflexivity|].
  unfold lastContent. simpl. rewrite last_snoc. reflexivity.
Qed.

Lemma deref_Ok (x : option ref) (p : parser) (o : catchObj) :
  deref x p = Ok o <-> exists r, x = Some r /\ heap p !! r = Some o.
Proof.
  unfold deref. destruct x as [r|].
  - rewrite orPanic_Ok. split; [eauto|]. intros (r' & Hr & H). congruence.
  - split; [discriminate|]. intros (r' & Hr & _). discriminate.
Qed.

(** [handleByte] on a catch that is a block: the byte is added. *)
Lemma handleByte_block (b : byte) (p : parser) (r : ref) (blk : parserBlock) :
  catch p = Some r -> heap p !! r = Some (CBlock blk) ->
  let add := if ignore p && escape p then [last p; b] else stringOfByte b in
  exists g v',
    appendString add (pos p) (blockCatch blk) = Some g
    /\ lastContent g = Some (IString (v' ++ add))
    /\ handleByte b p
       = nextByte b (set_heap (<[r := CBlock (set_blockCatch g blk)]> (heap p)) p).
Proof.
  intros Hc Hr add.
  assert (Hadd : add <> []).
  { subst add. destruct (ignore p && escape p); [discriminate|].
    unfold stringOfByte. destruct (_ <? _); discriminate. }
  destruct (appendString_last add (pos p) (blockCatch blk) Hadd) as (g & v' & Hg & Hl).
  exists g, v'. split; [exact Hg|]. split; [exact Hl|].
  unfold handleByte. rewrite Hc, Hr. simpl.
  unfold onCatch. rewrite Hc, Hr. simpl. fold add. rewrite Hg. reflexivity.
Qed.

Lemma headerOf_map (lastContent_ : gostring) :
  scannedType lastContent_ = [] ->
  exists nm cls, headerOf (scanHeader lastContent_) = (lit "map", nm, cls).
Proof.
  unfold scannedType, headerOf. intros H.
  destruct (splitClasses _) as [ty cls]. simpl in H. subst ty.
  simpl. eauto.
Qed.

(** C7, as amended. At an unescaped [{] that is not followed by [@],
    outside comments and brace escapes: when the last string of the current
    catch is empty, [parseByte] fails with "Block has no type"; when it is
    not empty and the scan gives an empty block type, the type defaults to
    [map] and the block is created as the new current block and catch. *)
Theorem untyped_block_defaults_to_map (p : parser) (o : catchObj) :
  braceLevel p = 0 -> commentLevel p = 0 -> escape p = false ->
  next p <> "@"%char ->
  deref (catch p) p = Ok o ->
  (lastString (gc o) = [] ->
     parseByte "{"%char p = Err (lit "Block has no type"))
  /\ (lastString (gc o) <> [] -> scannedType (lastString (gc o)) = [] ->
      exists (p' : parser) (blk : parserBlock),
        parseByte "{"%char p = Ok p'
        /\ block p' = Some (length (heap p))
        /\ catch p' = Some (length (heap p))
        /\ heap p' !! length (heap p) = Some (CBlock blk)
        /\ typ blk = lit "map" /\ parent blk = block p /\ closed blk = false).
Proof.
  intros Hb Hc He Hn Hd.
  assert (Hpb : parseByte "{"%char p
                = (openBlock (set_ignore true p) ≫= handleByte "{"%char)).
  { unfold parseByte. rewrite Hb, Hc. simpl. rewrite He. reflexivity. }
  rewrite Hpb. unfold openBlock. simpl next.
  apply eqb_false in Hn. rewrite Hn.
  replace (deref (catch (set_ignore true p)) (set_ignore true p))
    with (deref (catch p) p) by reflexivity.
  rewrite Hd. cbn [mbind outcome_bind].
  split.
  - intros Hl. rewrite Hl. reflexivity.
  - intros Hl Hs. apply streq_false in Hl. rewrite Hl.
    apply deref_Ok in Hd as (rc & Hrc & Ho).
    (* the last content is a string: it can be overwritten *)
    assert (Hset : exists g, setLastContent
                     (IString (take (Z.to_nat (len (lastString (gc o))
                        - charsScanned (scanHeader (lastString (gc o)))))
                        (lastString (gc o)))) (gc o) = Some g).
    { apply streq_false in Hl. unfold lastString, lastContent in Hl.
      unfold setLastContent, setLast.
      destruct (list.last (positioned (gc o))) as [[w q]|]; [|contradiction].
      simpl. eauto. }
    destruct Hset as [g Hg].
    unfold onCatch at 1. simpl catch. simpl heap. rewrite Hrc, Ho.
    cbn [mbind outcome_bind orPanic]. rewrite Hg. cbn [mbind outcome_bind orPanic].
    destruct (headerOf_map _ Hs) as (nm & cls & Hh). rewrite Hh.
    set (h1 := <[rc := set_gc g o]> (heap p)).
    assert (Hlen : length h1 = length (heap p)) by (subst h1; apply length_insert).
    match goal with
    | |- context [if eqb (next ?q) "{"%char then Ok ?a else Ok ?b] =>
        assert (Hcase : exists p1, (if eqb (next q) "{"%char then Ok a else Ok b) = Ok p1
                  /\ catch p1 = Some (length h1) /\ block p1 = Some (length h1)
                  /\ ignore p1 = true /\ escape p1 = false
                  /\ exists blk, heap p1 = h1 ++ [CBlock blk] /\ typ blk = lit "map"
                       /\ parent blk = block p /\ closed blk = false)
    end.
    { destruct (eqb _ "{"%char); eexists; (split; [reflexivity|]); simpl;
        rewrite He; repeat split; eexists; repeat split; reflexivity. }
    destruct Hcase as (p1 & -> & Hc1 & Hb1 & Hi1 & He1 & blk & Hh1 & Ht & Hp & Hcl).
    cbn [mbind outcome_bind].
    assert (Hr1 : heap p1 !! length h1 = Some (CBlock blk)).
    { rewrite Hh1. rewrite lookup_app_r by lia.
      replace (length h1 - length h1)%nat with 0%nat by lia. reflexivity. }
    destruct (handleByte_block "{"%char p1 _ blk Hc1 Hr1) as (g' & v' & _ & _ & Hhb).
    rewrite Hhb. destruct (nextByte_total "{"%char
      (set_heap (<[length h1 := CBlock (set_blockCatch g' blk)]> (heap p1)) p1)) as [p' Hp'].
    exists p', (set_blockCatch g' blk). split; [exact Hp'|].
    unfold nextByte in Hp'.
    destruct (_ && _); injection Hp' as <-; simpl; rewrite <- Hlen;
      repeat split; try assumption;
      apply list_lookup_insert_eq; eapply lookup_lt_Some; eauto.
Qed.

Lemma splitByte_nonempty (sep : byte) (s : gostring) : splitByte sep s <> [].
Proof.
  destruct s as [|c s]; simpl; [discriminate|].
  destruct (eqb c sep); [discriminate|].
  destruct (splitByte sep s); discriminate.
Qed.



End ParserProperties.

(** ** The gallery block *)

Section GalleryProperties.

Import Gallery.

Context {Page imageExtra : Type}.
Variable retina : Page -> list Z.
Variable rootImage : Page -> gostring.
Variable imageParse : Page -> imageBlock imageExtra -> Page * imageBlock imageExtra.

Local Abbreviation parseKey := (parseKey Page rootImage imageExtra imageParse).
Local Abbreviation parseKeys := (parseKeys Page rootImage imageExtra imageParse).
Local Abbreviation addImage := (addImage Page rootImage imageExtra imageParse).
Local Abbreviation parse := (Gallery.parse Page rootImage imageExtra imageParse).
Local Abbreviation state := (state Page imageExtra).

Lemma addImage_gallery (r : imgRef) (st : state) :
  Map (gallery _ _ (addImage r st)) = Map (gallery _ _ st)
  /\ thumbHeight (gallery _ _ (addImage r st)) = thumbHeight (gallery _ _ st)
  /\ images (gallery _ _ st) `prefix_of` images (gallery _ _ (addImage r st)).
Proof.
  unfold Gallery.addImage. destruct (imgs _ _ st !! r) as [im|];
    [|repeat split; reflexivity].
  destruct (imageParse _ _) as [pg parsed]. simpl.
  repeat split. apply prefix_app_r. reflexivity.
Qed.

Lemma parseKey_gallery (k : gostring) (st : state) :
  Map (gallery _ _ (parseKey k st)) = Map (gallery _ _ st)
  /\ thumbHeight (gallery _ _ (parseKey k st))
     = declaredHeight (Map (gallery _ _ st)) [k] (thumbHeight (gallery _ _ st))
  /\ images (gallery _ _ st) `prefix_of` images (gallery _ _ (parseKey k st)).
Proof.
  unfold Gallery.parseKey, declaredHeight, GetStr, GetBlock. simpl.
  destruct (streq k (lit "thumb_height")) eqn:Ek.
  - destruct (lookupKey k _) as [[s| | |]|]; simpl; try (repeat split; reflexivity).
    destruct (Atoi s); simpl; repeat split; reflexivity.
  - destruct (negb _); simpl; try (repeat split; reflexivity).
    destruct (lookupKey k _) as [[s|r| |]|]; simpl; try (repeat split; reflexivity).
    apply addImage_gallery.
Qed.





End GalleryProperties.

(** ** The parser: the inside of a brace escape and of a comment *)

Section RegionProperties.

Import Parser.

Lemma incr_small (n : Z) : - 2 ^ 63 <= n + 1 < 2 ^ 63 -> incr n = n + 1.
Proof.
  intros H. unfold incr, wrap64. rewrite Z.mod_small by lia. lia.
Qed.

Lemma decr_small (n : Z) : - 2 ^ 63 <= n - 1 < 2 ^ 63 -> decr n = n - 1.
Proof.
  intros H. unfold decr, wrap64. rewrite Z.mod_small by lia. lia.
Qed.

Lemma appendString_onto_string (s v : gostring) (at_ q : Position) (l0 : list posContent)
    (c : genericCatch) :
  s <> [] -> endsWith s LF = false ->
  positioned c = l0 ++ [PosContent (IString v) q] -> endsWith v LF = false ->
  exists g, appendString s at_ c = Some g
            /\ positioned g = l0 ++ [PosContent (IString (v ++ s)) q].
Proof.
  intros Hs Hn Hp Hv.
  rewrite (appendString_after_noteLine s at_ c Hs). cbv zeta.
  assert (Hc1 : positioned (noteLine s c) = positioned c).
  { unfold noteLine. rewrite Hn. reflexivity. }
  rewrite (lastContent_snoc l0 (IString v) q) by (rewrite Hc1; exact Hp).
  rewrite Hv. unfold setLastContent. rewrite Hc1, Hp, setLast_snoc. simpl.
  eexists. split; reflexivity.
Qed.

Lemma handleByte_block_eq (b : byte) (p : parser) (r : ref) (blk : parserBlock)
    (g : genericCatch) :
  catch p = Some r -> heap p !! r = Some (CBlock blk) ->
  appendString (if ignore p && escape p then [last p; b] else stringOfByte b)
               (pos p) (blockCatch blk) = Some g ->
  handleByte b p
  = nextByte b (set_heap (<[r := CBlock (set_blockCatch g blk)]> (heap p)) p).
Proof.
  intros Hc Hr Hg. unfold handleByte. rewrite Hc, Hr.
  cbn [mbind outcome_bind orPanic shouldSkipByte byteOK negb].
  unfold onCatch. rewrite Hc, Hr.
  cbn [mbind outcome_bind orPanic gc].
  match goal with
  | |- context [orPanic ?x] => replace x with (Some g) by (symmetry; exact Hg)
  end.
  reflexivity.
Qed.

Lemma stringOfByte_plain (b : byte) : byteVal b < 128 -> stringOfByte b = [b].
Proof.
  intros H. unfold stringOfByte. apply Z.ltb_lt in H. rewrite H. reflexivity.
Qed.

Lemma endsWith_single (b c : byte) : endsWith [b] c = eqb b c.
Proof. reflexivity. Qed.

(** One byte inside a brace escape: it is counted and added to the block. *)
Lemma brace_escape_step (b : byte) (p : parser) (r : ref) (blk : parserBlock)
    (l0 : list posContent) (v : gostring) (q : Position) :
  0 < braceLevel p -> braceLevel p + 1 < 2 ^ 63 ->
  braceFirst p = false -> escape p = false ->
  catch p = Some r -> heap p !! r = Some (CBlock blk) ->
  positioned (blockCatch blk) = l0 ++ [PosContent (IString v) q] ->
  endsWith v LF = false ->
  plainByte b -> 0 < braceStep (braceLevel p) b ->
  exists (p' : parser) (g : genericCatch),
    parseByte b p = Ok p'
    /\ braceLevel p' = braceStep (braceLevel p) b
    /\ braceFirst p' = false /\ escape p' = false /\ skip p' = skip p
    /\ catch p' = Some r /\ block p' = block p /\ commentLevel p' = commentLevel p
    /\ heap p' = <[r := CBlock (set_blockCatch g blk)]> (heap p)
    /\ positioned g = l0 ++ [PosContent (IString (v ++ [b])) q].
Proof.
  intros Hpos Hmax Hfirst Hesc Hc Hr Hp Hv [Hb Hlf] Hstep.
  assert (Hadd : exists g, forall (i : bool) (at_ : Position) (l : byte),
            appendString (if i && false then [l; b] else stringOfByte b) at_ (blockCatch blk)
            = Some g
            /\ positioned g = l0 ++ [PosContent (IString (v ++ [b])) q]).
  { destruct (appendString_onto_string [b] v {| pos_line := 0; pos_column := 0 |} q l0
                (blockCatch blk)) as (g & Hg & Hpg); try assumption; try discriminate.
    { rewrite endsWith_single. apply eqb_false. exact Hlf. }
    exists (setPositioned (l0 ++ [PosContent (IString (v ++ [b])) q])
              (setLine (line (blockCatch blk) ++ [b]) (blockCatch blk))).
    intros i at_ l. rewrite andb_false_r, (stringOfByte_plain b Hb).
    destruct (appendString_onto_string [b] v at_ q l0 (blockCatch blk)) as (g' & Hg' & Hpg');
      try assumption; try discriminate.
    { rewrite endsWith_single. apply eqb_false. exact Hlf. }
    split; [|reflexivity].
    rewrite (appendString_after_noteLine [b] at_ _ ltac:(discriminate)). cbv zeta.
    assert (Hn : noteLine [b] (blockCatch blk)
                 = setLine (line (blockCatch blk) ++ [b]) (blockCatch blk)).
    { unfold noteLine. rewrite endsWith_single.
      apply eqb_false in Hlf. rewrite Hlf. reflexivity. }
    rewrite Hn.
    rewrite (lastContent_snoc l0 (IString v) q) by exact Hp.
    rewrite Hv. unfold setLastContent. simpl positioned. rewrite Hp, setLast_snoc.
    reflexivity. }
  destruct Hadd as [g Hadd].
  assert (Hnz : (braceLevel p =? 0) = false) by (apply Z.eqb_neq; lia).
  assert (Hsz : (braceStep (braceLevel p) b =? 0) = false) by (apply Z.eqb_neq; lia).
  (* the state that [handleByte] gets *)
  set (p1 := set_braceLevel (braceStep (braceLevel p) b) (set_braceFirst false p)).
  assert (Hbe : parseByte b p = handleByte b p1).
  { unfold parseByte. rewrite Hnz. simpl. unfold braceEscape. rewrite Hfirst. simpl.
    unfold braceStep in *.
    destruct (eqb b "{"%char) eqn:E1; simpl.
    - rewrite incr_small by lia. cbn [mbind outcome_bind]. simpl.
      rewrite Hsz. reflexivity.
    - destruct (eqb b "}"%char) eqn:E2; simpl.
      + rewrite decr_small by lia. rewrite Hsz. cbn [mbind outcome_bind]. simpl.
        rewrite Hsz. reflexivity.
      + rewrite Hnz. subst p1.
        replace (set_braceLevel (braceLevel p) (set_braceFirst false p))
          with (set_braceFirst false p); [reflexivity|].
        destruct p; reflexivity. }
  destruct (Hadd (ignore p1) (pos p1) (last p1)) as [Hg Hpg].
  rewrite Hbe.
  rewrite (handleByte_block_eq b p1 r blk g); [| exact Hc | exact Hr |].
  2:{ replace (escape p1) with false by (symmetry; exact Hesc). exact Hg. }
  unfold nextByte. simpl. rewrite Hesc, Hsz. rewrite andb_false_r. simpl.
  eexists. exists g. split; [reflexivity|]. simpl.
  repeat split; assumption.
Qed.

Lemma set_blockCatch_same (blk : parserBlock) : set_blockCatch (blockCatch blk) blk = blk.
Proof. destruct blk; reflexivity. Qed.

Lemma parseLineFrom_cons (i : nat) (b : byte) (rest : list byte) (p : parser) :
  skip p = false ->
  parseLineFrom i (b :: rest) p
  = parseByte b (set_next (match rest with n :: _ => n | [] => NUL end)
                   (set_this b
                      (set_pos {| pos_line := pos_line (pos p);
                                  pos_column := Z.of_nat i + 1 |} p)))
      ≫= parseLineFrom (S i) rest.
Proof. intros H. simpl. rewrite H. reflexivity. Qed.

(** The bytes inside a brace escape, as long as they do not close it: they
    are counted, and added to the content of the block as they are. *)
Lemma brace_escape_body (w rest : list byte) :
  forall (i : nat) (p : parser) (r : ref) (blk : parserBlock)
         (l0 : list posContent) (v : gostring) (q : Position),
    0 < braceLevel p -> braceLevel p + len w < 2 ^ 63 ->
    braceFirst p = false -> escape p = false -> skip p = false ->
    catch p = Some r -> heap p !! r = Some (CBlock blk) ->
    positioned (blockCatch blk) = l0 ++ [PosContent (IString v) q] ->
    endsWith v LF = false ->
    Forall plainByte w -> staysInside (braceLevel p) w = true ->
    exists (p' : parser) (g : genericCatch),
      parseLineFrom i (w ++ rest) p = parseLineFrom (i + length w) rest p'
      /\ braceLevel p' = depthAfter (braceLevel p) w
      /\ braceFirst p' = false /\ escape p' = false /\ skip p' = false
      /\ catch p' = Some r /\ block p' = block p /\ commentLevel p' = commentLevel p
      /\ heap p' = <[r := CBlock (set_blockCatch g blk)]> (heap p)
      /\ positioned g = l0 ++ [PosContent (IString (v ++ w)) q].
Proof.
  induction w as [|b w IH]; intros i p r blk l0 v q Hpos Hmax Hfirst Hesc Hskip Hc Hr Hp Hv Hw Hin.
  - exists p, (blockCatch blk). simpl. rewrite Nat.add_0_r, app_nil_r.
    repeat split; try assumption; try reflexivity.
    rewrite set_blockCatch_same. symmetry. apply list_insert_id. exact Hr.
  - inversion Hw as [|? ? Hb Hw']; subst.
    simpl in Hin. apply andb_true_iff in Hin as [Hstep Hin]. apply Z.ltb_lt in Hstep.
    unfold len in Hmax. simpl length in Hmax.
    rewrite <- app_comm_cons, (parseLineFrom_cons i b (w ++ rest) p Hskip).
    match goal with |- context [parseByte b ?x] => set (pm := x) end.
    destruct (brace_escape_step b pm r blk l0 v q) as
      (p1 & g1 & Hp1 & Hl1 & Hf1 & He1 & Hs1 & Hc1 & Hb1 & Hcl1 & Hh1 & Hg1);
      try assumption; try (simpl; lia).
    rewrite Hp1. cbn [mbind outcome_bind].
    change (braceLevel pm) with (braceLevel p) in Hl1.
    change (skip pm) with (skip p) in Hs1.
    change (block pm) with (block p) in Hb1.
    change (commentLevel pm) with (commentLevel p) in Hcl1.
    change (heap pm) with (heap p) in Hh1.
    assert (Hle : braceStep (braceLevel p) b <= braceLevel p + 1).
    { unfold braceStep. destruct (eqb b "{"%char); [lia|].
      destruct (eqb b "}"%char); lia. }
    destruct (IH (S i) p1 r (set_blockCatch g1 blk) l0 (v ++ [b]) q) as
      (p' & g & Hrun & Hl & Hf & He & Hs & Hc' & Hb' & Hcl & Hh & Hg).
    + rewrite Hl1. exact Hstep.
    + rewrite Hl1. unfold len. lia.
    + exact Hf1.
    + exact He1.
    + rewrite Hs1. exact Hskip.
    + exact Hc1.
    + rewrite Hh1. apply list_lookup_insert_eq. eapply lookup_lt_Some; eauto.
    + exact Hg1.
    + rewrite endsWith_app by discriminate. rewrite endsWith_single.
      apply eqb_false. apply Hb.
    + exact Hw'.
    + rewrite Hl1. exact Hin.
    + exists p', g. rewrite Hrun.
      replace (S i + length w)%nat with (i + length (b :: w))%nat by (simpl; lia).
      split; [reflexivity|].
      split; [rewrite Hl, Hl1; reflexivity|].
      repeat (split; [first [assumption | congruence]|]).
      split.
      * rewrite Hh, Hh1. simpl heap. rewrite list_insert_insert_eq. reflexivity.
      * rewrite Hg, <- app_assoc. reflexivity.
Qed.

(** X15. A whole brace escape on one line, from the state in which the
    block has just been opened: the second [{] is dropped, the bytes up to
    the [}] that brings the depth back to 0 are added to the content of the
    block as they are, provided they are bytes of ASCII, and that [}] ends
    the region, is dropped, and gives the catch back to the parent of the
    block. *)
Lemma brace_escape_region (w rest : list byte) (i : nat) (p : parser) (r : ref)
    (blk : parserBlock) (l0 : list posContent) (v : gostring) (q : Position) :
  braceLevel p = 1 -> braceFirst p = true -> escape p = false -> skip p = false ->
  len w < 2 ^ 62 ->
  catch p = Some r -> heap p !! r = Some (CBlock blk) ->
  positioned (blockCatch blk) = l0 ++ [PosContent (IString v) q] ->
  endsWith v LF = false ->
  Forall plainByte w -> staysInside 1 w = true -> depthAfter 1 w = 1 ->
  exists (p' : parser) (g : genericCatch),
    parseLineFrom i ("{"%char :: w ++ "}"%char :: rest) p
    = parseLineFrom (i + length w + 2) rest p'
    /\ braceLevel p' = 0 /\ braceFirst p' = false /\ escape p' = false /\ skip p' = false
    /\ catch p' = parent blk /\ block p' = block p
    /\ heap p' = <[r := CBlock (set_blockCatch g blk)]> (heap p)
    /\ positioned g = l0 ++ [PosContent (IString (v ++ w)) q].
Proof.
  intros Hl Hfirst Hesc Hskip Hlen Hc Hr Hp Hv Hw Hin Hd.
  (* the second brace *)
  rewrite (parseLineFrom_cons i _ _ p Hskip).
  match goal with |- context [parseByte _ ?x] => set (pm := x) end.
  assert (H1 : exists p1, parseByte "{"%char pm = Ok p1
             /\ braceLevel p1 = 1 /\ braceFirst p1 = false /\ escape p1 = false
             /\ skip p1 = false /\ catch p1 = Some r /\ block p1 = block p
             /\ commentLevel p1 = commentLevel p /\ heap p1 = heap p).
  { unfold parseByte. replace (braceLevel pm) with 1 by (symmetry; exact Hl).
    simpl. unfold braceEscape. replace (braceFirst pm) with true by (symmetry; exact Hfirst).
    simpl. unfold nextByte. simpl.
    eexists. split; [reflexivity|]. simpl. repeat split; assumption. }
  destruct H1 as (p1 & -> & Hl1 & Hf1 & He1 & Hs1 & Hc1 & Hb1 & Hcl1 & Hh1).
  cbn [mbind outcome_bind].
  (* the bytes of the region *)
  destruct (brace_escape_body w ("}"%char :: rest) (S i) p1 r blk l0 v q) as
    (p2 & g & Hrun & Hl2 & Hf2 & He2 & Hs2 & Hc2 & Hb2 & Hcl2 & Hh2 & Hg);
    try assumption; try (rewrite Hl1; first [lia | assumption]).
  { rewrite Hh1. exact Hr. }
  rewrite Hrun, Hl1, Hd in *.
  (* the closing brace *)
  rewrite (parseLineFrom_cons _ _ _ p2 Hs2).
  match goal with |- context [parseByte _ ?x] => set (pc := x) end.
  assert (Hr2 : heap p2 !! r = Some (CBlock (set_blockCatch g blk))).
  { rewrite Hh2, Hh1. apply list_lookup_insert_eq. eapply lookup_lt_Some; eauto. }
  assert (H3 : exists p3, parseByte "}"%char pc = Ok p3
             /\ braceLevel p3 = 0 /\ braceFirst p3 = false /\ escape p3 = false
             /\ skip p3 = false /\ catch p3 = parent blk /\ block p3 = block p2
             /\ heap p3 = heap p2).
  { unfold parseByte. replace (braceLevel pc) with 1 by (symmetry; exact Hl2).
    simpl. unfold braceEscape. replace (braceFirst pc) with false by (symmetry; exact Hf2).
    simpl. unfold popCatch, deref. simpl catch. simpl heap. simpl braceLevel.
    rewrite Hl2, Hc2, Hr2. change (decr 1) with 0.
    cbn [mbind outcome_bind orPanic]. simpl.
    unfold nextByte. simpl.
    eexists. split; [reflexivity|]. simpl. repeat split; assumption. }
  destruct H3 as (p3 & -> & Hl3 & Hf3 & He3 & Hs3 & Hc3 & Hb3 & Hh3).
  cbn [mbind outcome_bind].
  exists p3, g.
  replace (S (S i + length w)) with (i + length w + 2)%nat by lia.
  split; [reflexivity|].
  repeat (split; [first [assumption | congruence]|]).
  exact Hg.
Qed.

(** In a comment, bytes that are neither [/] nor [*] are dropped: nothing
    of the heap, of the level or of the current catch and block changes. *)
Lemma comment_bytes_discarded (w rest : list byte) :
  forall (i : nat) (p : parser),
    braceLevel p = 0 -> commentLevel p <> 0 -> skip p = false ->
    Forall (fun b => b <> "/"%char /\ b <> "*"%char) w ->
    exists p' : parser,
      parseLineFrom i (w ++ rest) p = parseLineFrom (i + length w) rest p'
      /\ heap p' = heap p /\ catch p' = catch p /\ block p' = block p
      /\ commentLevel p' = commentLevel p /\ braceLevel p' = 0 /\ skip p' = false.
Proof.
  induction w as [|b w IH]; intros i p Hb Hc Hs Hw.
  - exists p. simpl. rewrite Nat.add_0_r. repeat split; assumption.
  - inversion Hw as [|? ? [Hb1 Hb2] Hw']; subst.
    rewrite <- app_comm_cons, (parseLineFrom_cons i b (w ++ rest) p Hs).
    match goal with |- context [parseByte b ?x] => set (pm := x) end.
    assert (H1 : exists p1, parseByte b pm = Ok p1
               /\ heap p1 = heap p /\ catch p1 = catch p /\ block p1 = block p
               /\ commentLevel p1 = commentLevel p /\ braceLevel p1 = 0
               /\ skip p1 = false).
    { unfold parseByte. replace (braceLevel pm) with 0 by (symmetry; exact Hb).
      apply eqb_false in Hb1, Hb2. rewrite Hb1, Hb2. simpl.
      apply Z.eqb_neq in Hc. rewrite Hc. simpl.
      unfold nextByte. simpl.
      destruct (_ && _); eexists; (split; [reflexivity|]); simpl;
        apply Z.eqb_neq in Hc; repeat split; assumption. }
    destruct H1 as (p1 & -> & Hh1 & Hc1 & Hbl1 & Hcl1 & Hbr1 & Hs1).
    cbn [mbind outcome_bind].
    destruct (IH (S i) p1) as (p' & Hrun & Hh & Hc' & Hbl & Hcl & Hbr & Hs');
      try assumption; try congruence.
    exists p'. rewrite Hrun.
    replace (S i + length w)%nat with (i + length (b :: w))%nat by (simpl; lia).
    split; [reflexivity|]. repeat split; congruence.
Qed.

(** X14. An escaped byte outside comments and brace escapes, while the
    catch is a block whose last element is a string that does not end in a
    newline: a brace is added to that string with the backslash before it,
    and a byte of ASCII without meaning for the parser is added alone,
    without the backslash. *)
Lemma escaped_byte_added (b : byte) (p : parser) (r : ref) (blk cur : parserBlock)
    (l0 : list posContent) (v : gostring) (q : Position) :
  braceLevel p = 0 -> commentLevel p = 0 -> escape p = true -> ignore p = false ->
  derefBlock p = Ok cur -> catch p = Some r -> heap p !! r = Some (CBlock blk) ->
  positioned (blockCatch blk) = l0 ++ [PosContent (IString v) q] ->
  endsWith v LF = false ->
  (b = "{"%char \/ b = "}"%char ->
     exists (p' : parser) (g : genericCatch),
       parseByte b p = Ok p'
       /\ heap p' = <[r := CBlock (set_blockCatch g blk)]> (heap p)
       /\ positioned g = l0 ++ [PosContent (IString (v ++ [last p; b])) q])
  /\ (plainByte b ->
      b <> "{"%char -> b <> "}"%char -> b <> BACKSLASH -> b <> "/"%char -> b <> "*"%char ->
      variableTokens b = false ->
      exists (p' : parser) (g : genericCatch),
        parseByte b p = Ok p'
        /\ heap p' = <[r := CBlock (set_blockCatch g blk)]> (heap p)
        /\ positioned g = l0 ++ [PosContent (IString (v ++ [b])) q]).
Proof.
  intros Hb Hc He Hi Hd Hcatch Hr Hp Hv.
  split.
  - intros Hbrace.
    assert (Hpb : parseByte b p = handleByte b (set_ignore true p)).
    { unfold parseByte. rewrite Hb, Hc.
      destruct Hbrace as [-> | ->]; simpl; rewrite He; reflexivity. }
    assert (Hlf : endsWith [last p; b] LF = false).
    { destruct Hbrace as [-> | ->]; reflexivity. }
    destruct (appendString_onto_string [last p; b] v (pos p) q l0 (blockCatch blk))
      as (g & Hg & Hpg); try assumption; try discriminate.
    rewrite Hpb.
    rewrite (handleByte_block_eq b (set_ignore true p) r blk g Hcatch Hr).
    + destruct (nextByte_total b
        (set_heap (<[r := CBlock (set_blockCatch g blk)]> (heap (set_ignore true p)))
           (set_ignore true p))) as [p' Hp'].
      exists p', g. split; [exact Hp'|]. split; [|exact Hpg].
      apply nextByte_heap in Hp'. exact Hp'.
    + simpl. rewrite He. exact Hg.
  - intros [Hplain Hnl] H1 H2 H3 H4 H5 Hvt.
    apply eqb_false in H1, H2, H3, H4, H5.
    assert (Hpb : parseByte b p = handleByte b p).
    { unfold parseByte. rewrite Hb, Hc, H1, H2, H3, H4, H5. simpl.
      rewrite Hd. cbn [mbind outcome_bind]. rewrite Hvt.
      rewrite andb_false_r. reflexivity. }
    assert (Hlf : endsWith [b] LF = false).
    { rewrite endsWith_single. apply eqb_false. exact Hnl. }
    destruct (appendString_onto_string [b] v (pos p) q l0 (blockCatch blk))
      as (g & Hg & Hpg); try assumption; try discriminate.
    rewrite Hpb.
    rewrite (handleByte_block_eq b p r blk g Hcatch Hr).
    + destruct (nextByte_total b
        (set_heap (<[r := CBlock (set_blockCatch g blk)]> (heap p)) p)) as [p' Hp'].
      exists p', g. split; [exact Hp'|]. split; [|exact Hpg].
      apply nextByte_heap in Hp'. exact Hp'.
    + rewrite Hi. simpl. rewrite (stringOfByte_plain b Hplain). exact Hg.
Qed.


End RegionProperties.

(** ** The claims on concrete inputs *)

Section Concrete.

Import Parser Examples.

Lemma Require_error_iff_Get_empty_or_zero_witness :
  Config.Require_ Config.getWhereDotted Config.getWarnPath zeroConf (lit "debug")
  = ([], Some (lit "quiki.conf: @debug is required"))
  /\ Config.Require_ Config.getWhereDotted Config.getWarnPath zeroConf (lit "verbose")
     = ([], Some (lit "quiki.conf: @verbose is required")).
Proof.
  split.
  - apply (proj2 (proj2 (proj2 (proj2 (Require_error_iff_Get_empty_or_zero
             Config.getWhereDotted Config.getWarnPath zeroConf (lit "debug")))))).
    right. vm_compute. reflexivity.
  - apply (proj2 (proj2 (proj2 (proj2 (Require_error_iff_Get_empty_or_zero
             Config.getWhereDotted Config.getWarnPath zeroConf (lit "verbose")))))).
    left. vm_compute. reflexivity.
Defined.

Lemma appendString_keeps_strings_separated_witness :
  lit "b" <> [] /\ separated (positioned catchWithA)
  /\ exists c', appendString (lit "b") {| pos_line := 1; pos_column := 2 |} catchWithA = Some c'
                /\ separated (positioned c')
                /\ (blankIndent catchWithA ->
                    blankIndent c'
                    /\ length (positioned c') = length (positioned catchWithA)
                    /\ exists v', lastContent c' = Some (IString (v' ++ lit "b"))
                                  /\ (endsWith (lit "b") LF = false -> v' = lit "a")).
Proof.
  assert (H1 : lit "b" <> []) by discriminate.
  assert (H3 : separated (positioned catchWithA)).
  { intros [|i] a b pa pb Hi HSi; simpl in HSi; discriminate. }
  split; [exact H1|]. split; [exact H3|].
  exact (appendString_keeps_strings_separated
           (lit "b") {| pos_line := 1; pos_column := 2 |} catchWithA H1 H3).
Defined.

(** C9 fails as it is stated: the catch that [appendContents] gives from
    the empty catch and the pieces of a variable name holds the two strings
    [@] and [name] next to each other, and [@] does not end with a newline. *)
Lemma appendContents_joins_strings :
  ~ separated (positioned (appendContents variablePieces emptyCatch)).
Proof.
  intros H.
  specialize (H 0%nat (lit "@") (lit "name") _ _ eq_refl eq_refl).
  vm_compute in H. discriminate.
Qed.

Lemma closing_main_fails_witness :
  parseByte "}"%char newParser = Err (lit "Attempted to close main block")
  /\ closed mainBlock = false.
Proof.
  split.
  - apply (proj1 closing_main_fails newParser mainBlock); reflexivity.
  - reflexivity.
Defined.


(** C7 fails as it is stated: a block opened before any content has no
    named type, and the parse stops with an error. *)
Lemma block_without_content_aborts :
  Parse (lit "{") = Err (lit "Block has no type").
Proof. vm_compute. reflexivity. Qed.

Lemma untyped_block_defaults_to_map_witness :
  let p := parserAfter (lit " ") in
  exists o, deref (catch p) p = Ok o
    /\ exists (p' : parser) (blk : parserBlock),
        parseByte "{"%char p = Ok p'
        /\ block p' = Some (length (heap p))
        /\ catch p' = Some (length (heap p))
        /\ heap p' !! length (heap p) = Some (CBlock blk)
        /\ typ blk = lit "map" /\ parent blk = block p /\ closed blk = false.
Proof.
  intros p.
  assert (Hd : exists o, deref (catch p) p = Ok o /\ lastString (gc o) = lit " ").
  { eexists. split; vm_compute; reflexivity. }
  destruct Hd as (o & Hd & Hl). exists o. split; [exact Hd|].
  apply (proj2 (untyped_block_defaults_to_map p o eq_refl eq_refl eq_refl
                  ltac:(vm_compute; discriminate) Hd)).
  - rewrite Hl. discriminate.
  - rewrite Hl. vm_compute. reflexivity.
Defined.



(** C1 on the source [x{{] followed by the bytes C3 A9 (the letter e with an
    acute accent in UTF-8): the two bytes inside the brace escape reach the
    content of the block as the four bytes C3 83 C2 A9, after the [{] that
    opened the block, and not as they are. *)
Theorem brace_escape_reencodes_bytes :
  (exists p, Parse braceEscapeSource = Ok p)
  /\ typeOf 1%nat (parserAfter braceEscapeSource) = lit "x"
  /\ braceLevel (parserAfter braceEscapeSource) = 1
  /\ contentOf 1%nat (parserAfter braceEscapeSource)
     = [IString (lit "{" ++ ["195"; "131"; "194"; "169"]%char)]
  /\ contentOf 1%nat (parserAfter braceEscapeSource)
     <> [IString (lit "{" ++ eAcute)].
Proof.
  split; [eexists; vm_compute; reflexivity|].
  split; [vm_compute; reflexivity|].
  split; [vm_compute; reflexivity|].
  split; [vm_compute; reflexivity|].
  vm_compute. discriminate.
Qed.

(** With the parent catch of a block being its parent block, a brace escape
    cannot be closed: the end of the region gives the catch back to the
    parent, the [}] that closes the block gives it back once more, and the
    block is then added to the nil catch above the main block. *)
Lemma brace_escaped_block_close_panics :
  Parse (lit "x{{a}}") = Panic.
Proof. vm_compute. reflexivity. Qed.


(** Comments nest: of [a /* b /* c */ d */ e] the main block gets [a  e]. *)
Lemma nested_comment_dropped :
  contentOf mainRef (parserAfter (lit "a /* b /* c */ d */ e")) = [IString (lit "a  e")].
Proof. vm_compute. reflexivity. Qed.

(** A brace escape of bytes of ASCII on the source [x{{ if x { y } }]: the
    content of the block is the [{] that opened it and the bytes of the
    region. *)
Lemma brace_escape_ascii_literal :
  contentOf 1%nat (parserAfter (lit "x{{ if x { y } }")) = [IString (lit "{ if x { y } ")].
Proof. vm_compute. reflexivity. Qed.

(** C2 on the sources [a\{] and [\a]: the escaped brace reaches the content
    with its backslash, the escaped letter without it. *)
Theorem escape_reinjects_for_syntax_bytes_only :
  (exists p, Parse escapedBraceSource = Ok p)
  /\ contentOf mainRef (parserAfter escapedBraceSource) = [IString (lit "a\{")]
  /\ (exists p, Parse escapedLetterSource = Ok p)
  /\ contentOf mainRef (parserAfter escapedLetterSource) = [IString (lit "a")].
Proof.
  repeat split; try (vm_compute; reflexivity); eexists; vm_compute; reflexivity.
Qed.



End Concrete.

(** * Further properties of the code *)


(** ** Catches: what the content keeps *)

Section CatchContent.

Lemma continues_refl (l : list posContent) : continues l l.
Proof.
  split; [lia|]. intros i x H. exists x. auto.
Qed.

Lemma continues_trans (l1 l2 l3 : list posContent) :
  continues l1 l2 -> continues l2 l3 -> continues l1 l3.
Proof.
  intros [L12 H12] [L23 H23]. split; [lia|].
  intros i x Hx. destruct (H12 _ _ Hx) as (x2 & Hx2 & Hp2 & Hc2).
  destruct (H23 _ _ Hx2) as (x3 & Hx3 & Hp3 & Hc3).
  exists x3. split; [exact Hx3|]. split; [congruence|].
  pose proof (lookup_lt_Some _ _ _ Hx) as Hlt.
  destruct Hc2 as [-> | (Hi & s & s' & Hs & Hs')].
  - destruct Hc3 as [-> | (Hi & s & s' & Hs & Hs')]; [left; reflexivity|].
    right. split; [lia|]. eauto.
  - destruct Hc3 as [-> | (Hi' & t & t' & Ht & Ht')]; [right; eauto|].
    right. split; [exact Hi|]. eauto.
Qed.

Lemma continues_app (l m : list posContent) : continues l (l ++ m).
Proof.
  split; [rewrite length_app; lia|].
  intros i x H. exists x. rewrite lookup_app_l by (eapply lookup_lt_Some; eauto). auto.
Qed.

Lemma continues_replace_last (l0 : list posContent) (v v' : gostring) (q : Position) :
  continues (l0 ++ [PosContent (IString v) q]) (l0 ++ [PosContent (IString v') q]).
Proof.
  split; [rewrite !length_app; simpl; lia|].
  intros i x H.
  destruct (decide (i < length l0)%nat) as [Hlt|Hge].
  - rewrite lookup_app_l in H by assumption. exists x.
    rewrite lookup_app_l by assumption. auto.
  - pose proof (lookup_lt_Some _ _ _ H) as Hi. rewrite length_app in Hi. simpl in Hi.
    assert (i = length l0) as -> by lia.
    rewrite lookup_app_r in H by lia. rewrite Nat.sub_diag in H. simpl in H.
    injection H as <-.
    exists (PosContent (IString v') q).
    rewrite lookup_app_r by lia. rewrite Nat.sub_diag. simpl.
    split; [reflexivity|]. split; [reflexivity|]. right.
    split; [rewrite length_app; simpl; lia|]. eauto.
Qed.

Lemma appendString_continues (s : gostring) (p : Position) (c c' : genericCatch) :
  appendString s p c = Some c' -> continues (positioned c) (positioned c').
Proof.
  intros H.
  assert (Hs : s <> []) by (intros ->; discriminate).
  rewrite (appendString_after_noteLine s p c Hs) in H. cbv zeta in H.
  set (c1 := noteLine s c) in *.
  assert (H1 : continues (positioned c) (positioned c1)).
  { destruct (noteLine_shape s c) as [Heq | (l0 & v & v' & q & Hl & Hl')];
      fold c1 in Heq || fold c1 in Hl'.
    - rewrite Heq. apply continues_refl.
    - rewrite Hl, Hl'. apply continues_replace_last. }
  eapply continues_trans; [exact H1|].
  assert (Hpush : continues (positioned c1) (positioned (pushContent (IString s) p c1))).
  { simpl. apply continues_app. }
  unfold lastContent in H.
  destruct (last (positioned c1)) as [[w q]|] eqn:El; simpl in H.
  - destruct w as [v| | | |]; try (injection H as <-; exact Hpush).
    destruct (endsWith v LF); [injection H as <-; exact Hpush|].
    apply last_Some_snoc in El as [l0 El].
    unfold setLastContent in H. rewrite El, setLast_snoc in H. simpl in H.
    injection H as <-. simpl. rewrite El. apply continues_replace_last.
  - injection H as <-. exact Hpush.
Qed.

(** X2. [appendContent] never removes or moves content: after it every
    element that was there is in its place with its position, and is as it
    was, unless it was the last element and a string, in the place of which
    there may be another string. *)
Theorem appendContent_continues_content (v : iface) :
  forall (p : Position) (c c' : genericCatch),
    appendContent v p c = Some c' -> continues (positioned c) (positioned c').
Proof.
  induction v as [s|r|items IH|v q IH|pcs] using iface_nested_ind; intros p c c' H.
  - simpl in H. eapply appendString_continues; eauto.
  - simpl in H. injection H as <-. simpl. apply continues_app.
  - simpl in H. revert c H. induction IH as [|item l Hitem _ IHl]; intros c H.
    + injection H as <-. apply continues_refl.
    + destruct (appendContent item p c) as [c1|] eqn:E1; [|discriminate].
      eapply continues_trans; [eapply Hitem; eauto|]. apply IHl. exact H.
  - simpl in H. eapply IH; eauto.
  - simpl in H. injection H as <-. simpl. apply continues_app.
Qed.

(** X1. [appendContent] panics exactly when the value holds an empty
    string, as itself, as an item of a slice or as the content of a
    positioned item, at any depth: [appendString] then takes the last byte
    of the empty string. Blocks and slices of positioned items never make
    it panic. *)
Theorem appendContent_fails_iff_empty_string (v : iface) :
  forall (p : Position) (c : genericCatch),
    appendContent v p c = None <-> holdsEmptyString v = true.
Proof.
  induction v as [s|r|items IH|v q IH|pcs] using iface_nested_ind; intros p c.
  - simpl. unfold appendString. destruct s as [|x s].
    + split; reflexivity.
    + replace (streq (x :: s) []) with false by reflexivity.
      split; [|discriminate].
      destruct (appendString_last (x :: s) p c ltac:(discriminate)) as (c' & v' & Hc' & _).
      unfold appendString in Hc'. rewrite Hc'. discriminate.
  - simpl. split; discriminate.
  - simpl. revert c. induction IH as [|item l Hitem _ IHl]; intros c.
    + split; discriminate.
    + destruct (appendContent item p c) as [c1|] eqn:E1.
      * rewrite IHl. pose proof (Hitem p c) as Hi.
        destruct (holdsEmptyString item); [|reflexivity].
        destruct Hi as [_ Hi]. rewrite Hi in E1 by reflexivity. discriminate.
      * apply Hitem in E1. rewrite E1. split; reflexivity.
  - simpl. apply IH.
  - simpl. split; discriminate.
Qed.


Lemma hasPrefix_true (pre s : gostring) :
  hasPrefix s pre = true -> s = pre ++ drop (length pre) s.
Proof.
  revert s. induction pre as [|x pre IH]; intros s H; simpl in *.
  - rewrite drop_0. reflexivity.
  - destruct s as [|y s]; [discriminate|].
    apply andb_true_iff in H as [Hx H]. apply eqb_true in Hx. subst y.
    simpl. f_equal. apply IH. exact H.
Qed.

Lemma hasPrefix_app (pre s : gostring) : hasPrefix (pre ++ s) pre = true.
Proof.
  induction pre as [|x pre IH]; simpl; [destruct s; reflexivity|].
  rewrite IH. unfold eqb. rewrite Ascii.eqb_refl. reflexivity.
Qed.

Lemma lastIndexByte_absent (v : gostring) (c : byte) :
  c ∉ v -> lastIndexByte v c = None.
Proof.
  intros H. destruct (lastIndexByte v c) as [k|] eqn:E; [|reflexivity].
  destruct (lastIndexByte_Some _ _ _ E) as [rest Hd].
  exfalso. apply H. eapply subseteq_drop. rewrite Hd. apply list_elem_of_here.
Qed.

Lemma finishLine_fields (c : genericCatch) :
  line (finishLine c) = [] /\ removeIndent (finishLine c) = removeIndent c
  /\ firstNewline (finishLine c) = firstNewline c.
Proof.
  unfold finishLine, lastContent. simpl.
  destruct (last (positioned c)) as [[w q]|]; simpl; [|auto].
  destruct w; auto.
  destruct (streq (removeIndent c) []); auto.
  destruct (setLast _ _); auto.
Qed.

(** X3. [finishLine], on a catch whose indent to remove is made of tabs and
    spaces: it empties the current line and keeps the indent and the
    flag of the first newline; it leaves the content as it is or takes the
    indent away from the front of the last element, a string; and it does
    take it away when the last element is a string without a newline that
    starts with the indent. *)
Theorem finishLine_strips_indent (c : genericCatch) :
  blankIndent c ->
  (line (finishLine c) = [] /\ removeIndent (finishLine c) = removeIndent c
   /\ firstNewline (finishLine c) = firstNewline c)
  /\ (positioned (finishLine c) = positioned c
      \/ exists l0 v' q,
           removeIndent c <> []
           /\ positioned c = l0 ++ [PosContent (IString (removeIndent c ++ v')) q]
           /\ positioned (finishLine c) = l0 ++ [PosContent (IString v') q])
  /\ (forall l0 v' q,
        positioned c = l0 ++ [PosContent (IString (removeIndent c ++ v')) q] ->
        LF ∉ removeIndent c ++ v' ->
        positioned (finishLine c) = l0 ++ [PosContent (IString v') q]).
Proof.
  intros Hb. split; [apply finishLine_fields|]. split.
  - unfold finishLine, lastContent. simpl.
    destruct (last (positioned c)) as [[w q]|] eqn:El; simpl; [|left; reflexivity].
    destruct w as [s| | | |]; try (left; reflexivity).
    destruct (streq (removeIndent c) []) eqn:Eri; [left; reflexivity|].
    apply streq_false in Eri.
    apply last_Some_snoc in El as [l0 El]. rewrite El, setLast_snoc. simpl.
    destruct (lastIndexByte s LF) as [k|] eqn:Ek; simpl.
    + destruct (lastIndexByte_Some _ _ _ Ek) as [rest Hd]. rewrite Hd.
      unfold trimPrefix. rewrite hasPrefix_blank by assumption.
      rewrite <- Hd, take_drop. left. reflexivity.
    + rewrite drop_0. unfold trimPrefix.
      destruct (hasPrefix s (removeIndent c)) eqn:Eh; [|left; reflexivity].
      right. exists l0, (drop (length (removeIndent c)) s), q.
      split; [exact Eri|]. split; [|reflexivity].
      rewrite <- (hasPrefix_true _ _ Eh). reflexivity.
  - intros l0 v' q Hl Hn. unfold finishLine.
    rewrite (lastContent_snoc l0 (IString (removeIndent c ++ v')) q) by exact Hl.
    simpl removeIndent.
    destruct (streq (removeIndent c) []) eqn:Eri.
    + apply streq_true in Eri. simpl. rewrite Hl, Eri. reflexivity.
    + simpl positioned. rewrite Hl, setLast_snoc. simpl.
      rewrite (lastIndexByte_absent _ _ Hn). simpl. rewrite drop_0.
      unfold trimPrefix. rewrite hasPrefix_app, drop_app_length. reflexivity.
Qed.

Lemma noteLine_fields (s : gostring) (c : genericCatch) :
  line (noteLine s c) = (if endsWith s LF then [] else line c ++ s)
  /\ (firstNewline c = true ->
      firstNewline (noteLine s c) = true /\ removeIndent (noteLine s c) = removeIndent c)
  /\ (endsWith s LF = false ->
      firstNewline (noteLine s c) = firstNewline c
      /\ removeIndent (noteLine s c) = removeIndent c).
Proof.
  unfold noteLine. destruct (endsWith s LF); [|simpl; auto].
  match goal with |- context [finishLine ?x] => set (c1 := x) end.
  destruct (finishLine_fields c1) as (Hl & Hr & Hf). rewrite Hl, Hr, Hf.
  split; [reflexivity|]. split; [|discriminate].
  intros Hfn. subst c1. simpl. rewrite Hfn. simpl. auto.
Qed.

(** X4. After [appendString] the current line is empty if the string ends
    in a newline and is the line so far followed by the string if not; once
    a first newline has been seen the indent to remove stays as it is; and
    a string that does not end in a newline changes neither the indent nor
    the flag. *)
Theorem appendString_line_bookkeeping (s : gostring) (p : Position) (c c' : genericCatch) :
  appendString s p c = Some c' ->
  line c' = (if endsWith s LF then [] else line c ++ s)
  /\ (firstNewline c = true -> firstNewline c' = true /\ removeIndent c' = removeIndent c)
  /\ (endsWith s LF = false ->
      firstNewline c' = firstNewline c /\ removeIndent c' = removeIndent c).
Proof.
  intros H.
  assert (Hs : s <> []) by (intros ->; discriminate).
  rewrite (appendString_after_noteLine s p c Hs) in H. cbv zeta in H.
  assert (Hsame : line c' = line (noteLine s c)
                  /\ firstNewline c' = firstNewline (noteLine s c)
                  /\ removeIndent c' = removeIndent (noteLine s c)).
  { destruct (lastContent (noteLine s c)) as [[v| | | |]|];
      try (injection H as <-; simpl; auto).
    destruct (endsWith v LF); [injection H as <-; simpl; auto|].
    unfold setLastContent in H.
    destruct (setLast _ _); simpl in H; [|discriminate].
    injection H as <-. simpl. auto. }
  destruct Hsame as (-> & -> & ->). apply noteLine_fields.
Qed.

(** X5. [setLastContent] panics exactly on a catch without content;
    otherwise it puts the value in the place of the last element, keeps the
    number of elements, the elements before the last and the position of
    the last; and after [pushContent] it gives the catch that pushing the
    new value would have given. *)
Theorem setLastContent_replaces_last (v : iface) (c : genericCatch) :
  (setLastContent v c = None <-> positioned c = [])
  /\ (forall c', setLastContent v c = Some c' ->
        lastContent c' = Some v
        /\ length (positioned c') = length (positioned c)
        /\ (forall i, (S i < length (positioned c))%nat ->
              positioned c' !! i = positioned c !! i)
        /\ pos <$> last (positioned c') = pos <$> last (positioned c))
  /\ (forall (w : iface) (q : Position),
        setLastContent v (pushContent w q c) = Some (pushContent v q c)).
Proof.
  split; [|split].
  - unfold setLastContent, setLast.
    destruct (last (positioned c)) as [[w q]|] eqn:E; simpl.
    + split; [discriminate|]. intros H. rewrite H in E. discriminate.
    + apply last_None in E. split; auto.
  - intros c' H. unfold setLastContent in H.
    destruct (last (positioned c)) as [[w q]|] eqn:E.
    + apply last_Some_snoc in E as [l0 E]. rewrite E, setLast_snoc in H. simpl in H.
      injection H as <-. simpl. rewrite E.
      unfold lastContent. simpl. rewrite !last_snoc. simpl.
      split; [reflexivity|]. split; [rewrite !length_app; reflexivity|].
      split; [|reflexivity].
      intros i Hi. rewrite length_app in Hi. simpl in Hi.
      rewrite !lookup_app_l by lia. reflexivity.
    + unfold setLast in H. rewrite E in H. discriminate.
  - intros w q. unfold setLastContent, pushContent. simpl.
    rewrite setLast_snoc. simpl. reflexivity.
Qed.

Lemma noteLine_plain (s : gostring) (c : genericCatch) :
  endsWith s LF = false -> noteLine s c = setLine (line c ++ s) c.
Proof. intros H. unfold noteLine. rewrite H. reflexivity. Qed.

(** X6. Appending a string in two parts is appending it at once: for
    two strings that are not empty and do not end in a newline,
    [appendString] of the first and then of the second gives the catch
    that [appendString] of the two joined gives, at the position of the
    first. *)
Theorem appendString_in_two_steps (s1 s2 : gostring) (p p2 : Position) (c : genericCatch) :
  s1 <> [] -> s2 <> [] -> endsWith s1 LF = false -> endsWith s2 LF = false ->
  (appendString s1 p c ≫= appendString s2 p2) = appendString (s1 ++ s2) p c.
Proof.
  intros H1 H2 E1 E2.
  assert (H12 : s1 ++ s2 <> []) by (intros H; apply app_eq_nil in H as [? _]; contradiction).
  assert (E12 : endsWith (s1 ++ s2) LF = false) by (rewrite endsWith_app; assumption).
  rewrite (appendString_after_noteLine s1 p c H1).
  rewrite (appendString_after_noteLine (s1 ++ s2) p c H12). cbv zeta.
  rewrite !noteLine_plain by assumption.
  unfold lastContent. simpl positioned.
  assert (Hpush : (Some (pushContent (IString s1) p (setLine (line c ++ s1) c))
                     ≫= appendString s2 p2)
                  = Some (pushContent (IString (s1 ++ s2)) p
                            (setLine (line c ++ s1 ++ s2) c))).
  { cbn [mbind option_bind].
    rewrite (appendString_after_noteLine s2 p2 _ H2). cbv zeta.
    rewrite noteLine_plain by assumption.
    unfold lastContent. simpl. rewrite last_snoc. simpl. rewrite E1.
    unfold setLastContent. simpl. rewrite setLast_snoc. simpl.
    unfold pushContent, setPositioned, setLine. simpl. rewrite <- app_assoc. reflexivity. }
  destruct (last (positioned c)) as [[w q]|] eqn:El; simpl; [|exact Hpush].
  destruct w as [v| | | |]; try exact Hpush.
  destruct (endsWith v LF) eqn:Ev; [exact Hpush|].
  apply last_Some_snoc in El as [l0 El].
  unfold setLastContent. simpl. rewrite El, !setLast_snoc. simpl.
  rewrite (appendString_after_noteLine s2 p2 _ H2). cbv zeta.
  rewrite noteLine_plain by assumption.
  unfold lastContent. simpl. rewrite last_snoc. simpl.
  rewrite endsWith_app by assumption. rewrite E1.
  unfold setLastContent. simpl. rewrite setLast_snoc. simpl.
  unfold setPositioned, setLine. simpl. rewrite <- !app_assoc. reflexivity.
Qed.

End CatchContent.

(** ** The parser: the header of a block *)

Section HeaderProperties.

Import Parser.

Lemma len_cons {A} (x : A) (l : list A) : len (x :: l) = 1 + len l.
Proof. unfold len. simpl length. lia. Qed.

Lemma len_app {A} (l m : list A) : len (l ++ m) = len l + len m.
Proof. unfold len. rewrite length_app. lia. Qed.

Lemma scanBack_range (l : list byte) (st : scanState) :
  charsScanned st <= charsScanned (scanBack l st) <= charsScanned st + len l.
Proof.
  revert st. induction l as [|c l IH]; intros st.
  - simpl. unfold len. simpl. lia.
  - rewrite len_cons. pose proof (Zle_0_nat (length l)) as Hl. fold (len l) in Hl.
    simpl.
    repeat match goal with
           | |- context [if ?b then _ else _] => destruct b
           end;
      try (match goal with
           | |- context [scanBack l ?s] => specialize (IH s)
           end; simpl in IH; lia);
      simpl; lia.
Qed.

(** X7. The scan of the last string counts between 0 and [len] of the
    string bytes, so that the slice [lastContent[:len(lastContent) -
    charsScanned]] is in range and [charsScanned] bytes shorter than the
    string. *)
Theorem scanHeader_within_last_string (s : gostring) :
  0 <= charsScanned (scanHeader s) <= len s
  /\ len (take (Z.to_nat (len s - charsScanned (scanHeader s))) s)
     = len s - charsScanned (scanHeader s).
Proof.
  pose proof (scanBack_range (rev s) scanStart) as H.
  unfold scanHeader. simpl in H.
  replace (len (rev s)) with (len s) in H by (unfold len; rewrite length_rev; reflexivity).
  split; [exact H|].
  unfold len in *. rewrite length_take. lia.
Qed.

Lemma typeByte_facts (c : byte) :
  isTypeByte c = true ->
  eqb c "]"%char = false /\ eqb c "["%char = false /\ stringOfByte c = [c].
Proof.
  intros H.
  destruct c as [[] [] [] [] [] [] [] []];
    first [ vm_compute in H; discriminate H | repeat split; vm_compute; reflexivity ].
Qed.

Lemma spaceByte_facts (c : byte) :
  isSpace c = true ->
  eqb c "]"%char = false /\ eqb c "["%char = false /\ isTypeByte c = false
  /\ eqb c "~"%char = false.
Proof.
  intros H.
  destruct c as [[] [] [] [] [] [] [] []];
    first [ vm_compute in H; discriminate H | repeat split; vm_compute; reflexivity ].
Qed.

(** White space before anything of the type has been read. *)
Lemma scanBack_spaces (sp more : list byte) :
  forall st : scanState,
    Forall (fun b => isSpace b = true) sp ->
    inBlockName st = 0 -> blockType st = [] ->
    scanBack (rev sp ++ more) st
    = scanBack more {| inBlockName := 0; charsScanned := charsScanned st + len sp;
                       blockType := []; blockName := blockName st |}.
Proof.
  induction sp as [|c sp IH] using rev_ind; intros st Hsp Hd Ht.
  - simpl. unfold len. simpl. rewrite Z.add_0_r. destruct st; simpl in *. subst. reflexivity.
  - apply Forall_app in Hsp as [Hsp Hc]. inversion Hc as [|? ? Hc' _]; subst.
    destruct (spaceByte_facts c Hc') as (E1 & E2 & E3 & E4).
    rewrite rev_app_distr. simpl. rewrite E1, E2, Hd, E3, E4, Hc', Ht. simpl.
    rewrite IH; [|assumption|reflexivity|reflexivity]. simpl.
    replace (len (sp ++ [c])) with (len sp + 1)
      by (unfold len; rewrite length_app; simpl; lia).
    do 2 f_equal. lia.
Qed.

(** The bytes of the type. *)
Lemma scanBack_type (ty more : list byte) :
  forall st : scanState,
    Forall (fun b => isTypeByte b = true) ty ->
    inBlockName st = 0 ->
    scanBack (rev ty ++ more) st
    = scanBack more {| inBlockName := 0; charsScanned := charsScanned st + len ty;
                       blockType := ty ++ blockType st; blockName := blockName st |}.
Proof.
  induction ty as [|c ty IH] using rev_ind; intros st Hty Hd.
  - simpl. unfold len. simpl. rewrite Z.add_0_r. destruct st; simpl in *. subst. reflexivity.
  - apply Forall_app in Hty as [Hty Hc]. inversion Hc as [|? ? Hc' _]; subst.
    destruct (typeByte_facts c Hc') as (E1 & E2 & E3).
    rewrite rev_app_distr. simpl. rewrite E1, E2, Hd, Hc', E3. simpl.
    rewrite IH; [|assumption|reflexivity]. simpl.
    replace (len (ty ++ [c])) with (len ty + 1)
      by (unfold len; rewrite length_app; simpl; lia).
    rewrite <- app_assoc. simpl. do 2 f_equal. lia.
Qed.

(** The bytes of the name, between the brackets. *)
Lemma scanBack_name (nm more : list byte) :
  forall st : scanState,
    Forall (fun b => b <> "["%char /\ b <> "]"%char /\ byteVal b < 128) nm ->
    inBlockName st = 1 ->
    scanBack (rev nm ++ more) st
    = scanBack more {| inBlockName := 1; charsScanned := charsScanned st + len nm;
                       blockType := blockType st; blockName := nm ++ blockName st |}.
Proof.
  induction nm as [|c nm IH] using rev_ind; intros st Hnm Hd.
  - simpl. unfold len. simpl. rewrite Z.add_0_r. destruct st; simpl in *. subst. reflexivity.
  - apply Forall_app in Hnm as [Hnm Hc]. inversion Hc as [|? ? (C1 & C2 & C3) _]; subst.
    apply eqb_false in C1, C2.
    rewrite rev_app_distr. simpl. rewrite C1, C2, Hd. simpl.
    rewrite (stringOfByte_plain c C3).
    rewrite IH; [|assumption|reflexivity]. simpl.
    replace (len (nm ++ [c])) with (len nm + 1)
      by (unfold len; rewrite length_app; simpl; lia).
    rewrite <- app_assoc. simpl. do 2 f_equal. lia.
Qed.

(** X8. The scan reads a header written as a tilde, the type, and a name
    in brackets: whatever comes before the tilde, with white space allowed
    before the bracket and before the brace, it gives the type and the
    name, and counts the bytes from the tilde on; and without the bracket
    part it gives the type and the empty name. *)
Theorem scanHeader_reads_type_and_name (pre ty sp1 nm sp2 : gostring) :
  ty <> [] ->
  Forall (fun b => isTypeByte b = true) ty ->
  Forall (fun b => isSpace b = true) sp1 ->
  Forall (fun b => isSpace b = true) sp2 ->
  Forall (fun b => b <> "["%char /\ b <> "]"%char /\ byteVal b < 128) nm ->
  scanHeader (pre ++ "~"%char :: ty ++ sp1 ++ "["%char :: nm ++ "]"%char :: sp2)
  = {| inBlockName := 0;
       charsScanned := 1 + len ty + len sp1 + 1 + len nm + 1 + len sp2;
       blockType := ty; blockName := nm |}
  /\ scanHeader (pre ++ "~"%char :: ty ++ sp2)
     = {| inBlockName := 0; charsScanned := 1 + len ty + len sp2;
          blockType := ty; blockName := [] |}.
Proof.
  intros Hne Hty Hsp1 Hsp2 Hnm. unfold scanHeader.
  assert (Htilde : forall (more : list byte) (n : Z) (name_ : gostring),
            scanBack ("~"%char :: more)
              {| inBlockName := 0; charsScanned := n; blockType := ty ++ [];
                 blockName := name_ |}
            = {| inBlockName := 0; charsScanned := n + 1; blockType := ty ++ [];
                 blockName := name_ |}).
  { intros more n name_. simpl.
    destruct (streq (ty ++ []) []) eqn:E; [|reflexivity].
    apply streq_true in E. rewrite app_nil_r in E. contradiction. }
  split.
  - replace (rev (pre ++ "~"%char :: ty ++ sp1 ++ "["%char :: nm ++ "]"%char :: sp2))
      with (rev sp2 ++ "]"%char :: (rev nm ++ "["%char :: (rev sp1 ++ (rev ty
              ++ "~"%char :: rev pre)))).
    2:{ repeat (rewrite ?rev_app_distr; simpl; rewrite <- ?app_assoc; simpl).
        reflexivity. }
    rewrite scanBack_spaces; [|assumption|reflexivity|reflexivity].
    simpl scanBack at 1. cbn [inBlockName charsScanned blockType blockName].
    replace (0 + 1 =? 1) with true by reflexivity.
    cbn [eqb Ascii.eqb Bool.eqb andb].
    rewrite scanBack_name; [|assumption|reflexivity].
    cbn [inBlockName charsScanned blockType blockName].
    simpl scanBack at 1. cbn [inBlockName charsScanned blockType blockName].
    replace (1 - 1 =? 1) with false by reflexivity.
    cbn [eqb Ascii.eqb Bool.eqb andb negb].
    rewrite scanBack_spaces; [|assumption|reflexivity|reflexivity].
    cbn [inBlockName charsScanned blockType blockName].
    rewrite scanBack_type; [|assumption|reflexivity].
    cbn [inBlockName charsScanned blockType blockName].
    rewrite Htilde. rewrite !app_nil_r. f_equal. unfold scanStart. simpl. lia.
  - replace (rev (pre ++ "~"%char :: ty ++ sp2))
      with (rev sp2 ++ (rev ty ++ "~"%char :: rev pre)).
    2:{ repeat (rewrite ?rev_app_distr; simpl; rewrite <- ?app_assoc; simpl).
        reflexivity. }
    rewrite scanBack_spaces; [|assumption|reflexivity|reflexivity].
    cbn [inBlockName charsScanned blockType blockName].
    rewrite scanBack_type; [|assumption|reflexivity].
    cbn [inBlockName charsScanned blockType blockName].
    rewrite Htilde. rewrite !app_nil_r. f_equal. unfold scanStart. simpl. lia.
Qed.

Lemma splitByte_no_sep (sep : byte) (s : gostring) :
  sep ∉ s -> splitByte sep s = [s].
Proof.
  induction s as [|c s IH]; intros H; [reflexivity|].
  apply not_elem_of_cons in H as [Hc Hs]. simpl.
  assert (E : eqb c sep = false) by (apply eqb_false; congruence).
  rewrite E, (IH Hs). reflexivity.
Qed.

Lemma splitByte_app_sep (sep : byte) (piece rest : gostring) :
  sep ∉ piece -> splitByte sep (piece ++ sep :: rest) = piece :: splitByte sep rest.
Proof.
  induction piece as [|c piece IH]; intros H; simpl.
  - unfold eqb. rewrite Ascii.eqb_refl. reflexivity.
  - apply not_elem_of_cons in H as [Hc Hs].
    assert (E : eqb c sep = false) by (apply eqb_false; congruence).
    rewrite E, (IH Hs). reflexivity.
Qed.

Lemma splitByte_joinByte (sep : byte) (pieces : list gostring) :
  pieces <> [] -> Forall (fun piece => sep ∉ piece) pieces ->
  splitByte sep (joinByte sep pieces) = pieces.
Proof.
  induction pieces as [|piece more IH]; intros Hne Hp; [contradiction|].
  inversion Hp as [|? ? H1 H2]; subst.
  destruct more as [|piece2 more].
  - simpl. apply splitByte_no_sep. exact H1.
  - change (joinByte sep (piece :: piece2 :: more))
      with (piece ++ sep :: joinByte sep (piece2 :: more)).
    rewrite splitByte_app_sep by exact H1.
    rewrite IH; [reflexivity|discriminate|exact H2].
Qed.

Lemma splitClasses_joinByte (t : gostring) (cls : list gostring) :
  Forall (fun piece => "."%char ∉ piece) (t :: cls) ->
  splitClasses (joinByte "."%char (t :: cls)) = (t, cls).
Proof.
  intros H. unfold splitClasses.
  rewrite splitByte_joinByte; [|discriminate|exact H].
  destruct cls; reflexivity.
Qed.

(** X9. [headerOf] (the lines that follow the scan) on a scanned type
    made of pieces joined by dots: the first piece is the type and the
    others are the classes, with the scanned name; if the type starts with
    [$] the block is a [model] named by the rest of the first piece, and
    the scanned name is dropped; if the first piece is empty the type is
    [map]. *)
Theorem headerOf_decodes_type (t nm : gostring) (cls : list gostring) (st : scanState) :
  Forall (fun piece => "."%char ∉ piece) (t :: cls) ->
  blockName st = nm ->
  (blockType st = joinByte "."%char (t :: cls) -> t <> [] -> head t <> Some "$"%char ->
     headerOf st = (t, nm, cls))
  /\ (blockType st = "$"%char :: joinByte "."%char (t :: cls) ->
      headerOf st = (lit "model", t, cls))
  /\ (blockType st = joinByte "."%char ([] :: cls) ->
      headerOf st = (lit "map", nm, cls)).
Proof.
  intros Hp Hn. inversion Hp as [|? ? Ht Hcls]; subst.
  split; [|split].
  - intros Hb Hne Hd. unfold headerOf. rewrite Hb, (splitClasses_joinByte t cls Hp).
    destruct t as [|c t]; [contradiction|].
    replace (streq (c :: t) []) with false by reflexivity.
    destruct (eqb c "$"%char) eqn:E; [|reflexivity].
    apply eqb_true in E. subst c. simpl in Hd. contradiction.
  - intros Hb. unfold headerOf.
    replace (blockType st) with (joinByte "."%char (("$"%char :: t) :: cls))
      by (rewrite Hb; destruct cls; reflexivity).
    rewrite splitClasses_joinByte.
    + reflexivity.
    + constructor; [|exact Hcls].
      apply not_elem_of_cons. split; [discriminate|exact Ht].
  - intros Hb. unfold headerOf. rewrite Hb, splitClasses_joinByte.
    + reflexivity.
    + constructor; [apply not_elem_of_nil|exact Hcls].
Qed.

End HeaderProperties.

(** ** The parser: opening and closing a block *)

Section BlockProperties.

Import Parser.

Lemma gc_set_gc (g : genericCatch) (o : catchObj) : gc (set_gc g o) = g.
Proof. destruct o; reflexivity. Qed.

Lemma setLastContent_snoc (v w : iface) (q : Position) (l0 : list posContent)
    (c : genericCatch) :
  positioned c = l0 ++ [PosContent w q] ->
  setLastContent v c = Some (setPositioned (l0 ++ [PosContent v q]) c).
Proof. intros H. unfold setLastContent. rewrite H, setLast_snoc. reflexivity. Qed.

Lemma lastString_nonempty (c : genericCatch) :
  lastString c <> [] ->
  exists l0 q, positioned c = l0 ++ [PosContent (IString (lastString c)) q].
Proof.
  unfold lastString, lastContent. intros H.
  destruct (list.last (positioned c)) as [[w q]|] eqn:E; [|contradiction].
  simpl in *. destruct w; try contradiction.
  apply last_Some_snoc in E as [l0 E]. eauto.
Qed.

Lemma appendString_onto_empty (s : gostring) (at_ : Position) (c : genericCatch) :
  s <> [] -> endsWith s LF = false -> positioned c = [] ->
  appendString s at_ c = Some (pushContent (IString s) at_ (setLine (line c ++ s) c)).
Proof.
  intros Hs Hn Hp.
  rewrite (appendString_after_noteLine s at_ c Hs). cbv zeta.
  assert (Hc1 : noteLine s c = setLine (line c ++ s) c).
  { unfold noteLine. rewrite Hn. reflexivity. }
  rewrite Hc1. unfold lastContent. simpl. rewrite Hp. reflexivity.
Qed.

Lemma appendString_after_block (s : gostring) (at_ q : Position) (r : ref)
    (l0 : list posContent) (c : genericCatch) :
  s <> [] -> endsWith s LF = false -> positioned c = l0 ++ [PosContent (IBlock r) q] ->
  appendString s at_ c = Some (pushContent (IString s) at_ (setLine (line c ++ s) c)).
Proof.
  intros Hs Hn Hp.
  rewrite (appendString_after_noteLine s at_ c Hs). cbv zeta.
  assert (Hc1 : noteLine s c = setLine (line c ++ s) c).
  { unfold noteLine. rewrite Hn. reflexivity. }
  rewrite Hc1. unfold lastContent. simpl. rewrite Hp, last_snoc. reflexivity.
Qed.

(** What an unescaped [{] does, with the state that it leaves. *)
Lemma open_block_step (p : parser) (r : ref) (o : catchObj)
    (l0 : list posContent) (q : Position) :
  braceLevel p = 0 -> commentLevel p = 0 -> escape p = false ->
  next p <> "@"%char ->
  catch p = Some r -> heap p !! r = Some o ->
  lastString (gc o) <> [] ->
  positioned (gc o) = l0 ++ [PosContent (IString (lastString (gc o))) q] ->
  let s := lastString (gc o) in
  let st := scanHeader s in
  let n := length (heap p) in
  let o' := set_gc (setPositioned
                      (l0 ++ [PosContent (IString (take (Z.to_nat (len s - charsScanned st)) s)) q])
                      (gc o)) o in
  let blk := {| typ := fst (fst (headerOf st)); name := snd (fst (headerOf st));
                classes := snd (headerOf st); openPos := pos p;
                closePos := {| pos_line := 0; pos_column := 0 |};
                closed := false; parent := block p;
                blockCatch := pushContent (IString (lit "{")) (pos p)
                                (setLine (lit "{") emptyCatch) |} in
  exists p' : parser,
    parseByte "{"%char p = Ok p'
    /\ heap p' = <[r := o']> (heap p) ++ [CBlock blk]
    /\ block p' = Some n /\ catch p' = Some n
    /\ braceFirst p' = (if eqb (next p) "{"%char then true else braceFirst p)
    /\ braceLevel p' = (if eqb (next p) "{"%char then 1 else 0)
    /\ commentLevel p' = 0 /\ escape p' = false /\ ignore p' = false
    /\ skip p' = skip p /\ pos p' = pos p.
Proof.
  intros Hb Hc He Hn Hcatch Ho Hl Hpos s st n o' blk.
  assert (Hpb : parseByte "{"%char p
                = (openBlock (set_ignore true p) ≫= handleByte "{"%char)).
  { unfold parseByte. rewrite Hb, Hc. simpl. rewrite He. reflexivity. }
  rewrite Hpb. unfold openBlock. simpl next.
  apply eqb_false in Hn. rewrite Hn.
  unfold deref. simpl catch. simpl heap. rewrite Hcatch, Ho.
  cbn [mbind outcome_bind orPanic].
  fold s. pose proof Hl as Hl'. apply streq_false in Hl'. fold s in Hl'. rewrite Hl'.
  fold s in Hpos. fold st.
  set (kept := take (Z.to_nat (len s - charsScanned st)) s) in *.
  unfold onCatch at 1. simpl catch. simpl heap. rewrite Hcatch, Ho.
  cbn [mbind outcome_bind orPanic].
  rewrite (setLastContent_snoc (IString kept) _ q l0 (gc o) Hpos).
  cbn [mbind outcome_bind orPanic]. fold o'.
  set (h1 := <[r := o']> (heap p)).
  assert (Hlen : length h1 = n) by (subst h1; apply length_insert).
  destruct (headerOf st) as [[ty nm] cls] eqn:Eh. simpl fst in blk. simpl snd in blk.
  set (blk0 := {| typ := ty; name := nm; classes := cls; openPos := pos p;
                  closePos := {| pos_line := 0; pos_column := 0 |};
                  closed := false; parent := block p; blockCatch := emptyCatch |}).
  set (g := pushContent (IString (lit "{")) (pos p) (setLine (lit "{") emptyCatch)).
  assert (Hg : forall l : byte,
            appendString (if true && false then [l; "{"%char] else stringOfByte "{"%char)
              (pos p) (blockCatch blk0) = Some g).
  { intros l. simpl andb. cbv iota.
    replace (stringOfByte "{"%char) with (lit "{") by reflexivity.
    apply appendString_onto_empty; [discriminate|reflexivity|reflexivity]. }
  simpl heap. fold h1. rewrite Hlen.
  match goal with
  | |- context [(?m ≫= handleByte _)] =>
      assert (Hm : exists p1, m = Ok p1 /\ catch p1 = Some n
                /\ heap p1 = h1 ++ [CBlock blk0] /\ ignore p1 = true /\ escape p1 = false
                /\ pos p1 = pos p
                /\ p1 = (if eqb (next p) "{"%char
                         then fun x => set_braceLevel 1 (set_braceFirst true x)
                         else fun x => x)
                          (set_catch (Some n) (set_block (Some n)
                             (set_heap (h1 ++ [CBlock blk0])
                                (set_heap h1 (set_ignore true p))))))
  end.
  { change (next (set_heap h1 (set_ignore true p))) with (next p).
    match goal with |- context [incr ?x] => change x with (braceLevel p) end.
    rewrite Hb. change (incr 0) with 1.
    destruct (eqb (next p) "{"%char); eexists; (split; [reflexivity|]); simpl;
      rewrite ?He, ?Hb; repeat split; reflexivity. }
  destruct Hm as (p1 & -> & Hc1 & Hh1 & Hi1 & He1 & Hp1 & Hp1eq).
  cbn [mbind outcome_bind].
  assert (Hr1 : heap p1 !! n = Some (CBlock blk0)).
  { rewrite Hh1, lookup_app_r by lia. rewrite Hlen, Nat.sub_diag. reflexivity. }
  rewrite (handleByte_block_eq "{"%char p1 n blk0 g Hc1 Hr1).
  2:{ rewrite Hi1, He1, Hp1. apply Hg. }
  assert (Hins : <[n := CBlock (set_blockCatch g blk0)]> (h1 ++ [CBlock blk0])
                 = h1 ++ [CBlock blk]).
  { rewrite <- Hlen. replace (length h1) with (length h1 + 0)%nat by lia.
    rewrite insert_app_r. reflexivity. }
  rewrite Hh1. unfold ref in *. rewrite Hins, Hp1eq.
  eexists. split; [reflexivity|].
  destruct (eqb (next p) "{"%char); simpl; rewrite ?He, ?Hb, ?Hc;
    repeat split; reflexivity.
Qed.

(** What an unescaped [}] does, with the state that it leaves. *)
Lemma close_block_step (p : parser) (r r0 : ref) (blk pb : parserBlock) :
  braceLevel p = 0 -> commentLevel p = 0 -> escape p = false ->
  block p = Some r -> catch p = Some r -> heap p !! r = Some (CBlock blk) ->
  typ blk <> lit "main" ->
  parent blk = Some r0 -> heap p !! r0 = Some (CBlock pb) -> r0 <> r ->
  let g := setPositioned
             (positioned (blockCatch pb)
              ++ [PosContent (IBlock r) (pos p); PosContent (IString (lit "}")) (pos p)])
             (setLine (line (blockCatch pb) ++ lit "}") (blockCatch pb)) in
  exists p' : parser,
    parseByte "}"%char p = Ok p'
    /\ heap p' = <[r0 := CBlock (set_blockCatch g pb)]>
                   (<[r := CBlock (markClosed (pos p) blk)]> (heap p))
    /\ block p' = Some r0 /\ catch p' = Some r0
    /\ braceLevel p' = 0 /\ commentLevel p' = 0 /\ escape p' = false
    /\ ignore p' = false /\ skip p' = skip p /\ pos p' = pos p.
Proof.
  intros Hb Hc He Hblock Hcatch Hr Ht Hparent Hr0 Hne g.
  assert (Hpb : parseByte "}"%char p
                = (closeBlock (set_ignore true p) ≫= handleByte "}"%char)).
  { unfold parseByte. rewrite Hb, Hc. simpl. rewrite He. reflexivity. }
  rewrite Hpb. unfold closeBlock, derefBlock, deref.
  simpl block. simpl heap. rewrite Hblock, Hr.
  cbn [mbind outcome_bind orPanic].
  apply streq_false in Ht. rewrite Ht.
  unfold popCatch, deref.
  cbn [pos heap catch block set_ignore set_heap set_block set_catch]. rewrite Hcatch.
  set (h1 := <[r := CBlock (markClosed (pos p) blk)]> (heap p)).
  assert (Hr1 : h1 !! r = Some (CBlock (markClosed (pos p) blk))).
  { subst h1. apply list_lookup_insert_eq. eapply lookup_lt_Some; eauto. }
  assert (Hr01 : h1 !! r0 = Some (CBlock pb)).
  { subst h1. rewrite list_lookup_insert_ne by congruence. exact Hr0. }
  rewrite Hr1. cbn [mbind outcome_bind orPanic getParentCatch markClosed parent].
  rewrite Hparent.
  unfold onCatch.
  cbn [pos heap catch block set_ignore set_heap set_block set_catch]. rewrite Hr01.
  cbn [mbind outcome_bind orPanic set_gc gc appendContent].
  set (g0 := pushContent (IBlock r) (pos p) (blockCatch pb)).
  set (h2 := <[r0 := CBlock (set_blockCatch g0 pb)]> h1).
  set (g1 := pushContent (IString (lit "}")) (pos p) (setLine (line g0 ++ lit "}") g0)).
  match goal with
  | |- context [handleByte _ ?x] => set (p2 := x)
  end.
  assert (Hr2 : heap p2 !! r0 = Some (CBlock (set_blockCatch g0 pb))).
  { subst p2 h2. simpl. apply list_lookup_insert_eq. eapply lookup_lt_Some; eauto. }
  rewrite (handleByte_block_eq "}"%char p2 r0 (set_blockCatch g0 pb) g1 eq_refl Hr2).
  2:{ change (appendString (if true && escape p then [last p; "}"%char] else lit "}")
                (pos p) g0 = Some g1).
      rewrite He. cbn [andb].
      eapply appendString_after_block; [discriminate|reflexivity|].
      subst g0. simpl. reflexivity. }
  unfold nextByte. simpl.
  eexists. split; [reflexivity|]. simpl.
  split.
  - subst h2. rewrite list_insert_insert_eq. f_equal.
    subst g g1 g0. unfold set_blockCatch, pushContent, setPositioned, setLine. simpl.
    rewrite <- app_assoc. reflexivity.
  - rewrite ?Hb, ?Hc. repeat split; reflexivity.
Qed.

(** X10. An unescaped [{] that is not followed by [@], outside comments
    and brace escapes, when the last string of the catch is not empty:
    [parseByte] succeeds; the header that the scan has counted is cut off
    the last string of the catch, which keeps its other elements; a new
    block with the type, name and classes of the header, the position of
    the brace, the current block as parent and not closed, is the new
    current block and catch; the [{] itself is the first content of the new
    block; and a brace escape begins if the next byte is [{]. *)
Theorem open_block_strips_header (p : parser) (r : ref) (o : catchObj) :
  braceLevel p = 0 -> commentLevel p = 0 -> escape p = false ->
  next p <> "@"%char ->
  catch p = Some r -> heap p !! r = Some o ->
  lastString (gc o) <> [] ->
  let s := lastString (gc o) in
  let st := scanHeader s in
  let n := length (heap p) in
  exists (p' : parser) (g : genericCatch) (o' : catchObj),
    parseByte "{"%char p = Ok p'
    /\ block p' = Some n /\ catch p' = Some n /\ length (heap p') = S n
    /\ heap p' !! n
       = Some (CBlock {| typ := fst (fst (headerOf st)); name := snd (fst (headerOf st));
                         classes := snd (headerOf st); openPos := pos p;
                         closePos := {| pos_line := 0; pos_column := 0 |};
                         closed := false; parent := block p; blockCatch := g |})
    /\ positioned g = [PosContent (IString (lit "{")) (pos p)]
    /\ heap p' !! r = Some o'
    /\ lastString (gc o') = take (Z.to_nat (len s - charsScanned st)) s
    /\ length (positioned (gc o')) = length (positioned (gc o))
    /\ braceFirst p' = (if eqb (next p) "{"%char then true else braceFirst p)
    /\ braceLevel p' = (if eqb (next p) "{"%char then 1 else 0).
Proof.
  intros Hb Hc He Hn Hcatch Ho Hl s st n.
  destruct (lastString_nonempty (gc o) Hl) as (l0 & q & Hpos).
  destruct (open_block_step p r o l0 q Hb Hc He Hn Hcatch Ho Hl Hpos)
    as (p' & Hp' & Hh & Hblock & Hcatch' & Hbf & Hbl & _).
  fold s st n in Hh, Hblock, Hcatch'.
  assert (Hrn : (r < n)%nat) by (eapply lookup_lt_Some; eauto).
  eexists p', _, _. split; [exact Hp'|].
  split; [exact Hblock|]. split; [exact Hcatch'|].
  split; [rewrite Hh, length_app, length_insert; simpl; fold n; lia|].
  split.
  { rewrite Hh, lookup_app_r by (rewrite length_insert; fold n; lia).
    rewrite length_insert. fold n. rewrite Nat.sub_diag. reflexivity. }
  split; [reflexivity|].
  split.
  { rewrite Hh, lookup_app_l by (rewrite length_insert; fold n; lia).
    apply list_lookup_insert_eq. exact Hrn. }
  rewrite gc_set_gc. unfold lastString, lastContent. simpl. rewrite last_snoc. simpl.
  split; [reflexivity|].
  split; [rewrite Hpos, !length_app; reflexivity|].
  split; assumption.
Qed.

(** X11. An unescaped [}] outside comments and brace escapes, when the
    current block is the catch, is not of type [main] and has a parent
    block: [parseByte] marks the block closed at the position of the
    brace, goes back to the parent as block and catch, and adds two
    elements to the content of the parent, the block and then the string
    [}]. *)
Theorem close_block_appends_block_and_brace
    (p : parser) (r r0 : ref) (blk pb : parserBlock) :
  braceLevel p = 0 -> commentLevel p = 0 -> escape p = false ->
  block p = Some r -> catch p = Some r -> heap p !! r = Some (CBlock blk) ->
  typ blk <> lit "main" ->
  parent blk = Some r0 -> heap p !! r0 = Some (CBlock pb) -> r0 <> r ->
  exists (p' : parser) (g : genericCatch),
    parseByte "}"%char p = Ok p'
    /\ block p' = Some r0 /\ catch p' = Some r0
    /\ heap p' = <[r0 := CBlock (set_blockCatch g pb)]>
                   (<[r := CBlock (markClosed (pos p) blk)]> (heap p))
    /\ positioned g
       = positioned (blockCatch pb)
         ++ [PosContent (IBlock r) (pos p); PosContent (IString (lit "}")) (pos p)].
Proof.
  intros Hb Hc He Hblock Hcatch Hr Ht Hparent Hr0 Hne.
  destruct (close_block_step p r r0 blk pb Hb Hc He Hblock Hcatch Hr Ht Hparent Hr0 Hne)
    as (p' & Hp' & Hh & Hblock' & Hcatch' & _).
  eexists p', _. split; [exact Hp'|]. split; [exact Hblock'|]. split; [exact Hcatch'|].
  split; [exact Hh|]. reflexivity.
Qed.

End BlockProperties.

(** ** The parser: comments and backslashes on a line *)

Section LineProperties.

Import Parser.

(** X12. A comment on one line, [/*], bytes that are neither [/] nor [*],
    and [*/], met outside a brace escape when the [/] is not escaped: the
    line goes on after it with the heap, the catch, the block and the
    comment level as they were before it, and no escape or skip pending. *)
Theorem whole_comment_leaves_no_trace
    (w rest : list byte) (i : nat) (p : parser) :
  braceLevel p = 0 -> escape p = false -> skip p = false ->
  0 <= commentLevel p < 2 ^ 62 ->
  Forall (fun b => b <> "/"%char /\ b <> "*"%char) w ->
  exists p' : parser,
    parseLineFrom i ("/"%char :: "*"%char :: w ++ "*"%char :: "/"%char :: rest) p
    = parseLineFrom (i + length w + 4) rest p'
    /\ heap p' = heap p /\ catch p' = catch p /\ block p' = block p
    /\ commentLevel p' = commentLevel p /\ braceLevel p' = 0
    /\ escape p' = false /\ skip p' = false.
Proof.
  intros Hb He Hs Hc Hw.
  (* the opening delimiter *)
  rewrite (parseLineFrom_cons i _ _ p Hs).
  match goal with |- context [parseByte _ ?x] => set (pm := x) end.
  assert (H1 : exists p1, parseByte "/"%char pm = Ok p1
             /\ heap p1 = heap p /\ catch p1 = catch p /\ block p1 = block p
             /\ commentLevel p1 = commentLevel p + 1 /\ braceLevel p1 = 0
             /\ skip p1 = false).
  { unfold parseByte. replace (braceLevel pm) with 0 by (symmetry; exact Hb).
    cbn [negb Z.eqb]. change (next pm) with "*"%char. cbn [eqb Ascii.eqb Bool.eqb andb].
    change (escape (set_ignore true pm)) with (escape p). rewrite He.
    change (commentLevel (set_ignore true pm)) with (commentLevel p).
    rewrite incr_small by lia.
    unfold nextByte. cbn [eqb Ascii.eqb Bool.eqb andb BACKSLASH].
    eexists. split; [reflexivity|]. simpl. repeat split; assumption. }
  destruct H1 as (p1 & -> & Hh1 & Hc1 & Hbl1 & Hcl1 & Hbr1 & Hs1).
  cbn [mbind outcome_bind].
  rewrite (parseLineFrom_cons (S i) _ _ p1 Hs1).
  match goal with |- context [parseByte _ ?x] => set (pm1 := x) end.
  assert (Hnext : next pm1 <> "/"%char).
  { subst pm1. simpl. destruct w as [|c w]; simpl; [discriminate|].
    inversion Hw as [|? ? [Hc' _] _]. exact Hc'. }
  assert (H2 : exists p2, parseByte "*"%char pm1 = Ok p2
             /\ heap p2 = heap p /\ catch p2 = catch p /\ block p2 = block p
             /\ commentLevel p2 = commentLevel p + 1 /\ braceLevel p2 = 0
             /\ skip p2 = false).
  { unfold parseByte. replace (braceLevel pm1) with 0 by (symmetry; exact Hbr1).
    apply eqb_false in Hnext. rewrite Hnext.
    cbn [negb Z.eqb eqb Ascii.eqb Bool.eqb andb].
    change (commentLevel pm1) with (commentLevel p1). rewrite Hcl1.
    replace (commentLevel p + 1 =? 0) with false by (symmetry; apply Z.eqb_neq; lia).
    cbn [negb]. unfold nextByte. cbn [eqb Ascii.eqb Bool.eqb andb BACKSLASH].
    eexists. split; [reflexivity|]. simpl. repeat split; assumption. }
  destruct H2 as (p2 & -> & Hh2 & Hc2 & Hbl2 & Hcl2 & Hbr2 & Hs2).
  cbn [mbind outcome_bind].
  (* the inside *)
  destruct (comment_bytes_discarded w ("*"%char :: "/"%char :: rest) (S (S i)) p2)
    as (p3 & Hrun & Hh3 & Hc3 & Hbl3 & Hcl3 & Hbr3 & Hs3); try assumption; [lia|].
  rewrite Hrun.
  (* the closing delimiter *)
  rewrite (parseLineFrom_cons _ _ _ p3 Hs3).
  match goal with |- context [parseByte _ ?x] => set (pm3 := x) end.
  assert (H4 : exists p4, parseByte "*"%char pm3 = Ok p4
             /\ heap p4 = heap p /\ catch p4 = catch p /\ block p4 = block p
             /\ commentLevel p4 = commentLevel p /\ braceLevel p4 = 0
             /\ escape p4 = false /\ skip p4 = true).
  { unfold parseByte. replace (braceLevel pm3) with 0 by (symmetry; exact Hbr3).
    change (next pm3) with "/"%char.
    cbn [negb Z.eqb eqb Ascii.eqb Bool.eqb andb].
    change (commentLevel pm3) with (commentLevel p3). rewrite Hcl3, Hcl2.
    replace (commentLevel p + 1 =? 0) with false by (symmetry; apply Z.eqb_neq; lia).
    rewrite decr_small by lia.
    unfold nextByte. cbn [eqb Ascii.eqb Bool.eqb andb BACKSLASH].
    eexists. split; [reflexivity|]. simpl.
    repeat split; try congruence. lia. }
  destruct H4 as (p4 & -> & Hh4 & Hc4 & Hbl4 & Hcl4 & Hbr4 & He4 & Hs4).
  cbn [mbind outcome_bind].
  cbn [parseLineFrom]. rewrite Hs4.
  exists (set_skip false p4).
  replace (S (S (S (S i) + length w))) with (i + length w + 4)%nat by lia.
  split; [reflexivity|]. simpl. repeat split; assumption.
Qed.

(** X13. Two backslashes, outside comments and brace escapes, while the
    catch is a block whose last element is a string that does not end in
    a newline: the first one alone sets [escape] and adds nothing, and the
    two together add one backslash to that string and leave [escape]
    unset. *)
Theorem escaped_backslash_is_content
    (i : nat) (rest : list byte) (p : parser) (r : ref) (blk : parserBlock)
    (l0 : list posContent) (v : gostring) (q : Position) :
  braceLevel p = 0 -> commentLevel p = 0 -> escape p = false -> skip p = false ->
  catch p = Some r -> heap p !! r = Some (CBlock blk) ->
  positioned (blockCatch blk) = l0 ++ [PosContent (IString v) q] ->
  endsWith v LF = false ->
  exists (p1 p' : parser) (g : genericCatch),
    parseLineFrom i [BACKSLASH] p = Ok p1
    /\ escape p1 = true /\ heap p1 = heap p
    /\ parseLineFrom i (BACKSLASH :: BACKSLASH :: rest) p
       = parseLineFrom (S (S i)) rest p'
    /\ escape p' = false /\ skip p' = false
    /\ catch p' = Some r /\ block p' = block p
    /\ heap p' = <[r := CBlock (set_blockCatch g blk)]> (heap p)
    /\ positioned g = l0 ++ [PosContent (IString (v ++ [BACKSLASH])) q].
Proof.
  intros Hb Hc He Hs Hcatch Hr Hp Hv.
  assert (H1 : forall nxt : byte,
            parseByte BACKSLASH
              (set_next nxt (set_this BACKSLASH
                 (set_pos {| pos_line := pos_line (pos p);
                             pos_column := Z.of_nat i + 1 |} p)))
            = Ok (set_escape true (set_last BACKSLASH (set_ignore false
                   (set_next nxt (set_this BACKSLASH
                      (set_pos {| pos_line := pos_line (pos p);
                                  pos_column := Z.of_nat i + 1 |} p))))))).
  { intros nxt. unfold parseByte.
    match goal with |- context [braceLevel ?x =? 0] =>
      change (braceLevel x) with (braceLevel p) end.
    rewrite Hb.
    match goal with |- context [commentLevel ?x =? 0] =>
      change (commentLevel x) with (commentLevel p) end.
    rewrite Hc.
    cbn [negb Z.eqb eqb Ascii.eqb Bool.eqb andb BACKSLASH].
    match goal with |- context [if escape ?x then _ else _] =>
      change (escape x) with (escape p) end.
    rewrite He. unfold nextByte.
    match goal with |- context [negb (escape ?x)] =>
      change (escape x) with (escape p) end.
    match goal with |- context [braceLevel ?x =? 0] =>
      change (braceLevel x) with (braceLevel p) end.
    rewrite He, Hb. reflexivity. }
  eexists. 
  destruct (appendString_onto_string [BACKSLASH] v
              {| pos_line := pos_line (pos p); pos_column := Z.of_nat (S i) + 1 |}
              q l0 (blockCatch blk))
    as (g & Hg & Hpg); try assumption; try discriminate; [reflexivity|].
  eexists. exists g.
  split; [rewrite (parseLineFrom_cons i _ _ p Hs), H1; reflexivity|].
  split; [reflexivity|]. split; [reflexivity|].
  rewrite (parseLineFrom_cons i _ _ p Hs), H1. cbn [mbind outcome_bind].
  rewrite parseLineFrom_cons by exact Hs.
  match goal with |- context [parseByte _ ?x] => set (pm := x) end.
  assert (H2 : parseByte BACKSLASH pm = handleByte BACKSLASH pm).
  { unfold parseByte. change (braceLevel pm) with (braceLevel p). rewrite Hb.
    change (commentLevel pm) with (commentLevel p). rewrite Hc.
    reflexivity. }
  rewrite H2.
  rewrite (handleByte_block_eq BACKSLASH pm r blk g Hcatch Hr).
  2:{ exact Hg. }
  unfold nextByte. change (escape (set_last _ _)) with true.
  cbn [negb andb]. cbn [mbind outcome_bind].
  split; [reflexivity|]. simpl. repeat split; try assumption; reflexivity.
Qed.

End LineProperties.

(** ** Parse: text *)

Section TextProperties.

Import Parser.

Lemma stringOfByte_facts (b : byte) :
  stringOfByte b <> [] /\ (b <> LF -> endsWith (stringOfByte b) LF = false).
Proof.
  destruct b as [[] [] [] [] [] [] [] []];
    (split; [discriminate|]); intros H;
    first [ vm_compute; reflexivity | exfalso; apply H; reflexivity ].
Qed.

Lemma syntaxByte_false (b : byte) :
  syntaxByte b = false ->
  eqb b "{"%char = false /\ eqb b "}"%char = false /\ eqb b BACKSLASH = false
  /\ eqb b "/"%char = false /\ eqb b "*"%char = false /\ variableTokens b = false.
Proof.
  unfold syntaxByte. intros H.
  repeat (apply orb_false_iff in H as [H ?]). auto 10.
Qed.

Lemma textOnly_step (t : gostring) (p : parser) (b nxt : byte) (at_ : Position) :
  textOnly t p -> syntaxByte b = false -> b <> LF ->
  exists p', parseByte b (set_next nxt (set_this b (set_pos at_ p))) = Ok p'
             /\ textOnly (t ++ stringOfByte b) p'.
Proof.
  intros (Hb & Hc & He & Hs & Hi & Hcatch & Hblock & Hlf & g & Hh & Hshape) Hsyn Hnl.
  destruct (syntaxByte_false b Hsyn) as (E1 & E2 & E3 & E4 & E5 & E6).
  destruct (stringOfByte_facts b) as [Hne Hend]. specialize (Hend Hnl).
  set (pm := set_next nxt (set_this b (set_pos at_ p))).
  assert (Hr : heap pm !! mainRef = Some (CBlock (set_blockCatch g mainBlock))).
  { subst pm. simpl. rewrite Hh. reflexivity. }
  assert (Hpb : parseByte b pm = handleByte b pm).
  { unfold parseByte. change (braceLevel pm) with (braceLevel p). rewrite Hb.
    change (commentLevel pm) with (commentLevel p). rewrite Hc.
    rewrite E1, E2, E3, E4, E5. cbn [negb Z.eqb andb].
    unfold derefBlock, deref. change (block pm) with (block p). rewrite Hblock, Hr.
    cbn [mbind outcome_bind orPanic]. rewrite E6.
    rewrite andb_false_r. reflexivity. }
  assert (Hadd : exists g', appendString (stringOfByte b) (pos pm)
                              (blockCatch (set_blockCatch g mainBlock)) = Some g'
                   /\ exists q, positioned g' = [PosContent (IString (t ++ stringOfByte b)) q]).
  { destruct Hshape as [[Hp ->] | (q & Hp & Ht)].
    - eexists. split; [apply appendString_onto_empty; assumption|].
      simpl. rewrite Hp. eauto.
    - destruct (appendString_onto_string (stringOfByte b) t (pos pm) q []
                  (blockCatch (set_blockCatch g mainBlock)))
        as (g' & Hg' & Hpg'); try assumption.
      exists g'. split; [exact Hg'|]. eauto. }
  destruct Hadd as (g' & Hg' & q' & Hpg').
  rewrite Hpb.
  rewrite (handleByte_block_eq b pm mainRef (set_blockCatch g mainBlock) g' Hcatch Hr).
  2:{ change (ignore pm) with (ignore p). rewrite Hi. exact Hg'. }
  unfold nextByte. rewrite E3. cbn [andb].
  eexists. split; [reflexivity|].
  unfold textOnly. simpl. rewrite Hh. simpl.
  repeat (split; [first [assumption | reflexivity]|]).
  split; [rewrite endsWith_app by assumption; exact Hend|].
  exists g'. split; [reflexivity|]. right. exists q'. split; [exact Hpg'|].
  intros Happ. apply app_eq_nil in Happ as [_ Happ]. contradiction.
Qed.

Lemma textOnly_line (w : list byte) :
  forall (i : nat) (t : gostring) (p : parser),
    textOnly t p ->
    Forall (fun b => syntaxByte b = false /\ b <> LF) w ->
    exists p', parseLineFrom i w p = Ok p' /\ textOnly (t ++ reencoded w) p'.
Proof.
  induction w as [|b w IH]; intros i t p Ht Hw.
  - exists p. simpl. rewrite app_nil_r. auto.
  - inversion Hw as [|? ? [Hb1 Hb2] Hw']; subst.
    assert (Hs : skip p = false) by (destruct Ht as (_ & _ & _ & Hs & _); exact Hs).
    rewrite (parseLineFrom_cons i b w p Hs).
    destruct (textOnly_step t p b (match w with n :: _ => n | [] => NUL end)
                {| pos_line := pos_line (pos p); pos_column := Z.of_nat i + 1 |}
                Ht Hb1 Hb2) as (p1 & -> & Ht1).
    cbn [mbind outcome_bind].
    destruct (IH (S i) _ p1 Ht1 Hw') as (p' & Hrun & Ht').
    exists p'. split; [exact Hrun|].
    unfold reencoded in *. simpl. rewrite app_assoc. exact Ht'.
Qed.

Lemma textOnly_lines (lines : list gostring) :
  forall (i : nat) (t : gostring) (p : parser),
    textOnly t p ->
    Forall (Forall (fun b => syntaxByte b = false /\ b <> LF)) lines ->
    exists p', parseLines i lines p = Ok p' /\ textOnly (t ++ reencoded (concat lines)) p'.
Proof.
  induction lines as [|l lines IH]; intros i t p Ht Hl.
  - exists p. simpl. rewrite app_nil_r. auto.
  - inversion Hl as [|? ? Hl1 Hl2]; subst.
    cbn [parseLines]. unfold parseLine.
    match goal with |- context [parseLineFrom 0 l ?x] => set (pm := x) end.
    assert (Htm : textOnly t pm) by exact Ht.
    destruct (textOnly_line l 0 t pm Htm Hl1) as (p1 & -> & Ht1).
    cbn [mbind outcome_bind].
    destruct (IH (S i) _ p1 Ht1 Hl2) as (p' & Hrun & Ht').
    exists p'. split; [exact Hrun|].
    unfold reencoded in *. simpl. rewrite flat_map_app, app_assoc. exact Ht'.
Qed.

Lemma splitByte_pieces (P : byte -> Prop) (sep : byte) (s : gostring) :
  Forall P s -> Forall (Forall (fun b => P b /\ b <> sep)) (splitByte sep s).
Proof.
  induction s as [|c s IH]; intros H.
  - simpl. repeat constructor.
  - inversion H as [|? ? Hc Hs]; subst. specialize (IH Hs). simpl.
    destruct (eqb c sep) eqn:E.
    + constructor; [constructor|exact IH].
    + apply eqb_false in E.
      destruct (splitByte sep s) as [|piece more]; [repeat constructor; assumption|].
      inversion IH; subst. constructor; [constructor; auto|assumption].
Qed.

Lemma reencoded_ascii (w : list byte) :
  Forall (fun b => byteVal b < 128) w -> reencoded w = w.
Proof.
  induction 1 as [|b w Hb _ IH]; [reflexivity|].
  unfold reencoded in *. simpl. rewrite IH, (stringOfByte_plain b Hb). reflexivity.
Qed.

(** X16. For an input without a byte that has a meaning for the parser
    (braces, backslash, [/], [*], variable tokens), [Parse] succeeds,
    creates no block and stays in the main block, whose content is one
    string, the lines of the input put end to end (the newlines are
    dropped) with every byte [b] converted by [string(b)], or is empty when
    all the lines are; for bytes of ASCII that string is the text itself. *)
Theorem plain_text_is_main_content (input : gostring) :
  Forall (fun b => syntaxByte b = false) input ->
  let text := concat (splitByte LF input) in
  exists p : parser,
    Parse input = Ok p
    /\ length (heap p) = 1%nat /\ block p = Some mainRef /\ catch p = Some mainRef
    /\ contentOf mainRef p
       = match text with
         | [] => []
         | _ => [IString (reencoded text)]
         end
    /\ (Forall (fun b => byteVal b < 128) text -> reencoded text = text).
Proof.
  intros Hin text.
  assert (H0 : textOnly [] newParser).
  { unfold textOnly. repeat (split; [reflexivity|]).
    exists emptyCatch. split; [reflexivity|]. left. split; reflexivity. }
  destruct (textOnly_lines (splitByte LF input) 0 [] newParser H0
              (splitByte_pieces _ LF input Hin))
    as (p & Hp & (_ & _ & _ & _ & _ & Hcatch & Hblock & _ & g & Hh & Hshape)).
  exists p. split; [exact Hp|]. fold text in Hshape. simpl in Hshape.
  split; [rewrite Hh; reflexivity|]. split; [exact Hblock|]. split; [exact Hcatch|].
  split; [|apply reencoded_ascii].
  unfold contentOf. rewrite Hh. simpl.
  destruct Hshape as [[Hg Ht] | (q & Hg & Ht)]; rewrite Hg.
  - destruct text as [|c text']; [reflexivity|].
    unfold reencoded in Ht. simpl in Ht.
    destruct (stringOfByte_facts c) as [Hne _].
    apply app_eq_nil in Ht as [Ht _]. contradiction.
  - destruct text as [|c text']; [contradiction|]. reflexivity.
Qed.

Lemma splitByte_app (sep : byte) (a b : gostring) :
  splitByte sep (a ++ sep :: b) = splitByte sep a ++ splitByte sep b.
Proof.
  induction a as [|c a IH]; simpl.
  - unfold eqb. rewrite Ascii.eqb_refl. reflexivity.
  - rewrite IH. destruct (eqb c sep); [reflexivity|].
    pose proof (splitByte_nonempty sep a) as Hne.
    destruct (splitByte sep a); [contradiction|reflexivity].
Qed.

Lemma parseLines_app (l1 l2 : list gostring) :
  forall (i : nat) (p : parser),
    parseLines i (l1 ++ l2) p = (parseLines i l1 p ≫= parseLines (i + length l1) l2).
Proof.
  induction l1 as [|l l1 IH]; intros i p.
  - simpl. rewrite Nat.add_0_r. reflexivity.
  - simpl. destruct (parseLine l _) as [p1| |]; simpl; try reflexivity.
    rewrite IH. replace (S i + length l1)%nat with (i + S (length l1))%nat by lia.
    reflexivity.
Qed.

(** X17. [Parse] goes line by line: the parse of a text, a newline and
    a second text is the parse of the first text followed by the lines of
    the second, numbered after those of the first, from the state that the
    first leaves; an error or panic of the first is that of the whole. *)
Theorem Parse_continues_line_by_line (a b : gostring) :
  Parse (a ++ LF :: b)
  = (Parse a ≫= parseLines (length (splitByte LF a)) (splitByte LF b)).
Proof.
  unfold Parse. rewrite splitByte_app, parseLines_app. reflexivity.
Qed.

End TextProperties.

(** ** Parse: a block in the text *)

Section WholeBlock.

Import Parser.

(** A byte of text, met in a block that is the catch: it is added to the
    last string of the block, or is its first content. *)
Lemma text_step (b nxt : byte) (at_ : Position) (p : parser) (r : ref)
    (blk : parserBlock) :
  braceLevel p = 0 -> commentLevel p = 0 -> escape p = false -> ignore p = false ->
  catch p = Some r -> block p = Some r -> heap p !! r = Some (CBlock blk) ->
  syntaxByte b = false -> plainByte b ->
  let pm := set_next nxt (set_this b (set_pos at_ p)) in
  forall g : genericCatch,
    appendString [b] at_ (blockCatch blk) = Some g ->
    parseByte b pm
    = Ok (set_escape false (set_last b (set_ignore false
            (set_heap (<[r := CBlock (set_blockCatch g blk)]> (heap p)) pm)))).
Proof.
  intros Hb Hc He Hi Hcatch Hblock Hr Hsyn [Hascii Hnl] pm g Hg.
  destruct (syntaxByte_false b Hsyn) as (E1 & E2 & E3 & E4 & E5 & E6).
  assert (Hpb : parseByte b pm = handleByte b pm).
  { unfold parseByte. change (braceLevel pm) with (braceLevel p). rewrite Hb.
    change (commentLevel pm) with (commentLevel p). rewrite Hc.
    rewrite E1, E2, E3, E4, E5. cbn [negb Z.eqb andb].
    unfold derefBlock, deref. change (block pm) with (block p).
    change (heap pm) with (heap p). rewrite Hblock, Hr.
    cbn [mbind outcome_bind orPanic]. rewrite E6.
    rewrite andb_false_r. reflexivity. }
  rewrite Hpb.
  rewrite (handleByte_block_eq b pm r blk g Hcatch Hr).
  2:{ change (ignore pm) with (ignore p). rewrite Hi. cbn [andb].
      rewrite (stringOfByte_plain b Hascii). exact Hg. }
  unfold nextByte. rewrite E3. reflexivity.
Qed.

(** Bytes of text on a line, met in a block that is the catch and whose
    last element is a string: they are added to that string. *)
Lemma text_run (w rest : list byte) :
  forall (i : nat) (p : parser) (r : ref) (blk : parserBlock)
         (l0 : list posContent) (v : gostring) (q : Position),
    braceLevel p = 0 -> commentLevel p = 0 -> escape p = false -> ignore p = false ->
    skip p = false ->
    catch p = Some r -> block p = Some r -> heap p !! r = Some (CBlock blk) ->
    positioned (blockCatch blk) = l0 ++ [PosContent (IString v) q] ->
    endsWith v LF = false ->
    Forall (fun b => syntaxByte b = false /\ plainByte b) w ->
    exists (p' : parser) (g : genericCatch),
      parseLineFrom i (w ++ rest) p = parseLineFrom (i + length w) rest p'
      /\ braceLevel p' = 0 /\ commentLevel p' = 0 /\ escape p' = false
      /\ ignore p' = false /\ skip p' = false
      /\ catch p' = Some r /\ block p' = Some r
      /\ heap p' = <[r := CBlock (set_blockCatch g blk)]> (heap p)
      /\ positioned g = l0 ++ [PosContent (IString (v ++ w)) q]
      /\ pos_line (pos p') = pos_line (pos p).
Proof.
  induction w as [|b w IH];
    intros i p r blk l0 v q Hb Hc He Hi Hs Hcatch Hblock Hr Hp Hv Hw.
  - exists p, (blockCatch blk). simpl. rewrite Nat.add_0_r, app_nil_r.
    repeat split; try assumption; try reflexivity.
    rewrite set_blockCatch_same. symmetry. apply list_insert_id. exact Hr.
  - inversion Hw as [|? ? [Hsyn Hplain] Hw']; subst.
    rewrite <- app_comm_cons, (parseLineFrom_cons i b (w ++ rest) p Hs).
    set (at_ := {| pos_line := pos_line (pos p); pos_column := Z.of_nat i + 1 |}).
    destruct (appendString_onto_string [b] v at_ q l0 (blockCatch blk))
      as (g1 & Hg1 & Hpg1); try assumption; try discriminate.
    { rewrite endsWith_single. apply eqb_false. apply Hplain. }
    rewrite (text_step b _ at_ p r blk Hb Hc He Hi Hcatch Hblock Hr Hsyn Hplain g1 Hg1).
    cbn [mbind outcome_bind].
    match goal with |- context [parseLineFrom (S i) _ ?x] => set (p1 := x) end.
    assert (Hr1 : heap p1 !! r = Some (CBlock (set_blockCatch g1 blk))).
    { subst p1. simpl. apply list_lookup_insert_eq. eapply lookup_lt_Some; eauto. }
    destruct (IH (S i) p1 r (set_blockCatch g1 blk) l0 (v ++ [b]) q)
      as (p' & g & Hrun & Hb' & Hc' & He' & Hi' & Hs' & Hcatch' & Hblock' & Hh & Hg & Hl);
      try assumption; try reflexivity.
    { rewrite endsWith_app by discriminate. rewrite endsWith_single.
      apply eqb_false. apply Hplain. }
    exists p', g. rewrite Hrun.
    replace (S i + length w)%nat with (i + length (b :: w))%nat by (simpl; lia).
    split; [reflexivity|].
    repeat (split; [assumption|]).
    split; [|split].
    + rewrite Hh. subst p1. simpl. rewrite list_insert_insert_eq. reflexivity.
    + rewrite Hg, <- app_assoc. reflexivity.
    + rewrite Hl. reflexivity.
Qed.

(** The byte that follows, when text and then [c] follow: neither [@] nor
    [{], if [c] is neither. *)
Lemma next_after_text (w rest : list byte) (c : byte) :
  Forall (fun b => syntaxByte b = false /\ plainByte b) w ->
  c <> "@"%char -> c <> "{"%char ->
  forall d, match w ++ c :: rest with n :: _ => n | [] => d end <> "@"%char
            /\ match w ++ c :: rest with n :: _ => n | [] => d end <> "{"%char.
Proof.
  intros Hw H1 H2 d. destruct w as [|b w]; simpl; [auto|].
  inversion Hw as [|? ? [Hsyn _] _]; subst.
  destruct (syntaxByte_false b Hsyn) as (E1 & _ & _ & _ & _ & E6).
  split.
  - intros ->. discriminate.
  - intros ->. discriminate.
Qed.

(** X26. A line [pre hdr { body } post] whose four parts are text (ASCII
    bytes other than the newline, none with a meaning for the parser), where
    [hdr] is what the backward scan counts as the header and the type it
    decodes is not [main]: [Parse] succeeds and ends in the main block, with
    two blocks in all. The main block holds [pre], the new block and the
    string [} post]: the header is cut off and the closing brace kept. The
    new block has the type, name and classes of the header, the main block
    as parent, is closed, is opened and closed at the columns of the two
    braces, and holds one string, the opening brace followed by [body]. *)
Theorem simple_block_becomes_a_child_of_main (pre hdr body post : gostring) :
  Forall (fun b => syntaxByte b = false /\ plainByte b) (pre ++ hdr ++ body ++ post) ->
  pre ++ hdr <> [] ->
  charsScanned (scanHeader (pre ++ hdr)) = len hdr ->
  fst (fst (headerOf (scanHeader (pre ++ hdr)))) <> lit "main" ->
  let h := headerOf (scanHeader (pre ++ hdr)) in
  exists (p : parser) (blk : parserBlock),
    Parse (pre ++ hdr ++ "{"%char :: body ++ "}"%char :: post) = Ok p
    /\ length (heap p) = 2%nat /\ block p = Some mainRef /\ catch p = Some mainRef
    /\ contentOf mainRef p
       = [IString pre; IBlock 1%nat; IString ("}"%char :: post)]
    /\ heap p !! 1%nat = Some (CBlock blk)
    /\ typ blk = fst (fst h) /\ name blk = snd (fst h) /\ classes blk = snd h
    /\ parent blk = Some mainRef /\ closed blk = true
    /\ openPos blk = {| pos_line := 1; pos_column := len (pre ++ hdr) + 1 |}
    /\ closePos blk = {| pos_line := 1; pos_column := len (pre ++ hdr) + len body + 2 |}
    /\ contents (positioned (blockCatch blk)) = [IString ("{"%char :: body)].
Proof.
  intros Hall Hne Hscan Hty h.
  apply Forall_app in Hall as [Hpre Hall].
  apply Forall_app in Hall as [Hhdr Hall].
  apply Forall_app in Hall as [Hbody Hpost].
  assert (Hhead : Forall (fun b => syntaxByte b = false /\ plainByte b) (pre ++ hdr))
    by (apply Forall_app; split; assumption).
  set (line_ := pre ++ hdr ++ "{"%char :: body ++ "}"%char :: post).
  assert (Hnolf : LF ∉ line_).
  { subst line_. intros Hin.
    repeat (apply elem_of_app in Hin as [Hin|Hin] || apply elem_of_cons in Hin as [Hin|Hin]);
      try discriminate;
      match goal with
      | H : Forall _ ?l, Hin : LF ∈ ?l |- _ =>
          rewrite Forall_forall in H; destruct (H _ Hin) as [_ [_ Hn]]; contradiction
      end. }
  unfold Parse. fold line_. rewrite (splitByte_no_sep LF line_ Hnolf).
  cbn [parseLines]. unfold parseLine.
  set (p0 := set_pos {| pos_line := Z.of_nat 0 + 1;
                        pos_column := pos_column (pos newParser) |} newParser).
  (* the first byte *)
  assert (Ehead : exists c w1, pre ++ hdr = c :: w1).
  { destruct (pre ++ hdr) as [|c w1]; [contradiction|]. eauto. }
  destruct Ehead as (c & w1 & Ehead).
  rewrite Ehead in Hhead.
  inversion Hhead as [|? ? [Hsync Hplainc] Hw1]; subst.
  assert (Hline : line_ = c :: w1 ++ "{"%char :: body ++ "}"%char :: post).
  { subst line_. rewrite app_assoc, Ehead. reflexivity. }
  rewrite Hline.
  rewrite (parseLineFrom_cons 0 c _ p0 eq_refl).
  set (at0 := {| pos_line := pos_line (pos p0); pos_column := Z.of_nat 0 + 1 |}).
  rewrite (text_step c _ at0 p0 mainRef mainBlock eq_refl eq_refl eq_refl eq_refl
             eq_refl eq_refl eq_refl Hsync Hplainc
             (pushContent (IString [c]) at0 (setLine [c] emptyCatch))).
  2:{ apply appendString_onto_empty; [discriminate| |reflexivity].
      rewrite endsWith_single. apply eqb_false. apply Hplainc. }
  cbn [mbind outcome_bind].
  match goal with |- context [parseLineFrom 1 _ ?x] => set (p1 := x) end.
  (* the rest of the text before the brace *)
  set (m1 := set_blockCatch (pushContent (IString [c]) at0 (setLine [c] emptyCatch))
               mainBlock).
  destruct (text_run w1 ("{"%char :: body ++ "}"%char :: post) 1 p1 mainRef m1
              [] [c] at0)
    as (p2 & g2 & Hrun2 & Hb2 & Hc2 & He2 & Hi2 & Hs2 & Hcatch2 & Hblock2 & Hh2 & Hg2 & Hl2);
    try reflexivity; try assumption.
  { rewrite endsWith_single. apply eqb_false. apply Hplainc. }
  rewrite Hrun2. simpl in Hh2, Hg2, Hl2.
  (* the opening brace *)
  rewrite (parseLineFrom_cons _ _ _ p2 Hs2).
  match goal with |- context [parseByte "{"%char ?x] => set (pm2 := x) end.
  set (m2 := set_blockCatch g2 m1) in *.
  assert (Hnext2 : next pm2 <> "@"%char /\ next pm2 <> "{"%char).
  { subst pm2. simpl.
    apply (next_after_text body post "}"%char Hbody);
      discriminate. }
  assert (Hlast2 : lastString (gc (CBlock m2)) = c :: w1).
  { unfold lastString, lastContent. simpl. rewrite Hg2. reflexivity. }
  destruct (open_block_step pm2 mainRef (CBlock m2) [] at0)
    as (p3 & Hp3 & Hh3 & Hblock3 & Hcatch3 & _ & Hbl3 & Hc3 & He3 & Hi3 & Hs3 & Hpos3).
  { exact Hb2. } { exact Hc2. } { exact He2. } { apply Hnext2. } { exact Hcatch2. }
  { change (heap pm2) with (heap p2). rewrite Hh2. reflexivity. }
  { rewrite Hlast2. discriminate. }
  { rewrite Hlast2. simpl. exact Hg2. }
  rewrite Hp3. cbn [mbind outcome_bind].
  rewrite Hlast2, <- Ehead in Hh3. fold h in Hh3.
  change (heap pm2) with (heap p2) in Hh3, Hblock3, Hcatch3.
  rewrite Hh2 in Hh3, Hblock3, Hcatch3. simpl in Hh3, Hblock3, Hcatch3.
  rewrite Hscan in Hh3.
  replace (take (Z.to_nat (len (pre ++ hdr) - len hdr)) (pre ++ hdr)) with pre in Hh3.
  2:{ unfold len. rewrite length_app.
      replace (Z.to_nat (Z.of_nat (length pre + length hdr) - Z.of_nat (length hdr)))
        with (length pre + 0)%nat by lia.
      rewrite take_app_add'; [|reflexivity]. rewrite take_0, app_nil_r. reflexivity. }
  destruct Hnext2 as [_ Hnb].
  assert (Hnb' : eqb (next pm2) "{"%char = false) by (apply eqb_false; apply Hnb).
  rewrite Hnb' in Hbl3.
  match type of Hh3 with _ = [CBlock ?m; CBlock ?b] => set (m3 := m) in *; set (blk3 := b) in * end.
  assert (Hs3' : skip p3 = false) by (rewrite Hs3; exact Hs2).
  (* the text of the block *)
  destruct (text_run body ("}"%char :: post) (S (1 + length w1)) p3 1%nat blk3 [] (lit "{") (pos pm2))
    as (p4 & g4 & Hrun4 & Hb4 & Hc4 & He4 & Hi4 & Hs4 & Hcatch4 & Hblock4 & Hh4 & Hg4 & Hl4);
    try assumption; try reflexivity.
  { rewrite Hh3. reflexivity. }
  rewrite Hrun4. rewrite Hh3 in Hh4. simpl in Hh4, Hg4.
  (* the closing brace *)
  rewrite (parseLineFrom_cons _ _ _ p4 Hs4).
  match goal with |- context [parseByte "}"%char ?x] => set (pm4 := x) end.
  destruct (close_block_step pm4 1%nat mainRef (set_blockCatch g4 blk3) m3)
    as (p5 & Hp5 & Hh5 & Hblock5 & Hcatch5 & Hb5 & Hc5 & He5 & Hi5 & Hs5 & Hpos5);
    try assumption; try reflexivity; try discriminate.
  { change (heap pm4) with (heap p4). rewrite Hh4. reflexivity. }
  { change (heap pm4) with (heap p4). rewrite Hh4. reflexivity. }
  rewrite Hp5. cbn [mbind outcome_bind].
  change (heap pm4) with (heap p4) in Hh5. rewrite Hh4 in Hh5. simpl in Hh5.
  match type of Hh5 with _ = [CBlock ?m; CBlock ?b] => set (m5 := m) in *; set (blk5 := b) in * end.
  assert (Hs5' : skip p5 = false) by (rewrite Hs5; exact Hs4).
  (* the text after the block *)
  destruct (text_run post [] (S (S (1 + length w1) + length body)) p5 mainRef m5
              [PosContent (IString pre) at0; PosContent (IBlock 1%nat) (pos pm4)]
              (lit "}") (pos pm4))
    as (p6 & g6 & Hrun6 & Hb6 & Hc6 & He6 & Hi6 & Hs6 & Hcatch6 & Hblock6 & Hh6 & Hg6 & Hl6);
    try assumption; try reflexivity.
  { rewrite Hh5. reflexivity. }
  rewrite app_nil_r in Hrun6. rewrite Hrun6. cbn [parseLineFrom mbind outcome_bind].
  rewrite Hh5 in Hh6. simpl in Hh6.
  exists p6, blk5. split; [reflexivity|].
  split; [rewrite Hh6; reflexivity|]. split; [exact Hblock6|]. split; [exact Hcatch6|].
  split; [unfold contentOf; rewrite Hh6; simpl; rewrite Hg6; reflexivity|].
  split; [rewrite Hh6; reflexivity|].
  split; [reflexivity|]. split; [reflexivity|]. split; [reflexivity|].
  split; [exact Hblock2|]. split; [reflexivity|].
  assert (Hlen : len (pre ++ hdr) = Z.of_nat (S (length w1)))
    by (rewrite Ehead; reflexivity).
  split.
  { subst blk5 blk3. simpl. rewrite Hl2, Hlen. reflexivity. }
  split.
  { subst blk5. simpl. rewrite Hl4, Hpos3. subst pm2. simpl. rewrite Hl2, Hlen.
    f_equal. unfold len. lia. }
  subst blk5. simpl. rewrite Hg4. reflexivity.
Qed.

End WholeBlock.

(** ** Parse: errors *)

Section ErrorProperties.

Import Parser.

Lemma bind_Err {A B} (m : outcome A) (k : A -> outcome B) (e : gostring) :
  (m ≫= k) = Err e -> m = Err e \/ exists a, m = Ok a /\ k a = Err e.
Proof.
  destruct m as [a| |]; simpl; intros H.
  - right. exists a. split; [reflexivity|exact H].
  - left. injection H as ->. reflexivity.
  - discriminate.
Qed.

Ltac bind_err H x :=
  apply bind_Err in H as [H | (x & _ & H)]; [|cbv beta in H].

Lemma orPanic_Err {A} (o : option A) (e : gostring) : orPanic o <> Err e.
Proof. destruct o; discriminate. Qed.

Lemma onCatch_Err f p e : onCatch f p <> Err e.
Proof.
  unfold onCatch. destruct (catch p); [|discriminate].
  intros H. bind_err H o; [eapply orPanic_Err; eauto|].
  bind_err H g; [eapply orPanic_Err; eauto|discriminate].
Qed.

Lemma deref_Err x p e : deref x p <> Err e.
Proof. unfold deref. destruct x; [apply orPanic_Err|discriminate]. Qed.

Lemma derefBlock_Err p e : derefBlock p <> Err e.
Proof.
  unfold derefBlock. intros H.
  bind_err H o; [eapply deref_Err; eauto|].
  destruct o; discriminate.
Qed.

Lemma popCatch_Err p e : popCatch p <> Err e.
Proof.
  unfold popCatch. intros H.
  bind_err H o; [eapply deref_Err; eauto|discriminate].
Qed.

Lemma nextByte_Err b p e : nextByte b p <> Err e.
Proof. unfold nextByte. destruct (_ && _); discriminate. Qed.

Lemma handleByte_Err b p e : handleByte b p = Err e -> knownError e.
Proof.
  unfold handleByte. destruct (catch p) as [r|].
  - intros H. bind_err H o;
      [exfalso; eapply orPanic_Err; eauto|].
    bind_err H p1.
    + destruct (shouldSkipByte o b); [exfalso; eapply onCatch_Err; eauto|].
      destruct (negb (byteOK o b)); [|discriminate].
      injection H as <-. right. right. right. eauto.
    + bind_err H p2;
        exfalso; [eapply onCatch_Err | eapply nextByte_Err]; eauto.
  - intros H. injection H as <-. right. right. left. eauto.
Qed.

Lemma openBlock_Err p e : openBlock p = Err e -> knownError e.
Proof.
  unfold openBlock. destruct (eqb (next p) "@"%char); [discriminate|].
  intros H. bind_err H o;
    [exfalso; eapply deref_Err; eauto|].
  destruct (streq (lastString (gc o)) []).
  - injection H as <-. left. reflexivity.
  - bind_err H p1;
      [exfalso; eapply onCatch_Err; eauto|].
    destruct (headerOf _) as [[ty nm] cls].
    destruct (eqb _ "{"%char); discriminate.
Qed.

Lemma closeBlock_Err p e : closeBlock p = Err e -> knownError e.
Proof.
  unfold closeBlock. intros H.
  bind_err H blk;
    [exfalso; eapply derefBlock_Err; eauto|].
  destruct (streq (typ blk) (lit "main")).
  - injection H as <-. right. left. reflexivity.
  - destruct (block p); [|discriminate].
    bind_err H p1;
      exfalso; [eapply popCatch_Err | eapply onCatch_Err]; eauto.
Qed.

Lemma variableToken_Err b p e : variableToken b p <> Err e.
Proof.
  unfold variableToken.
  destruct (_ && bool_decide _).
  - destruct (eqb b "%"%char); destruct (eqb (last _) "-"%char); discriminate.
  - destruct (eqb b ":"%char); [|destruct (eqb b ";"%char)];
      intros H; try discriminate;
      bind_err H x0; try discriminate;
      eapply deref_Err; eauto.
Qed.

Lemma braceEscape_Err b p e : braceEscape b p = Err e -> knownError e.
Proof.
  unfold braceEscape. intros H.
  bind_err H p1.
  - exfalso. destruct (_ && _); [discriminate|].
    destruct (eqb b "}"%char); [|discriminate].
    destruct (_ =? 0); [eapply popCatch_Err; eauto|discriminate].
  - destruct (_ || _); [exfalso; eapply nextByte_Err; eauto|].
    eapply handleByte_Err; eauto.
Qed.

Lemma parseByte_Err b p e : parseByte b p = Err e -> knownError e.
Proof.
  unfold parseByte.
  repeat match goal with
         | |- (if ?c then _ else _) = _ -> _ => destruct c
         | |- (let _ := _ in _) = _ -> _ => cbv zeta
         end;
    try (intros H; eapply braceEscape_Err; eauto; fail);
    try (intros H; eapply handleByte_Err; eauto; fail);
    try (intros H; exfalso; eapply nextByte_Err; eauto; fail).
  - intros H. bind_err H p1;
      [eapply openBlock_Err | eapply handleByte_Err]; eauto.
  - intros H. bind_err H p1;
      [eapply closeBlock_Err | eapply handleByte_Err]; eauto.
  - intros H. bind_err H blk;
      [exfalso; eapply derefBlock_Err; eauto|].
    revert H.
    repeat match goal with
           | |- (if ?c then _ else _) = _ -> _ => destruct c
           end;
      try (intros H; eapply handleByte_Err; eauto; fail).
    intros H. bind_err H p1;
      [exfalso; eapply variableToken_Err; eauto | eapply handleByte_Err; eauto].
Qed.

Lemma parseLineFrom_Err bytes : forall i p e,
  parseLineFrom i bytes p = Err e -> knownError e.
Proof.
  induction bytes as [|b rest IH]; intros i p e; simpl; [discriminate|].
  destruct (skip p); [apply IH|].
  intros H. bind_err H p1;
    [eapply parseByte_Err | eapply IH]; eauto.
Qed.

Lemma parseLines_Err lines : forall i p e,
  parseLines i lines p = Err e -> knownError e.
Proof.
  induction lines as [|l rest IH]; intros i p e; simpl; [discriminate|].
  intros H. bind_err H p1;
    [eapply parseLineFrom_Err | eapply IH]; eauto.
Qed.

(** X18. An error that [Parse] returns is one of: "Block has no type",
    "Attempted to close main block", "Nothing to catch byte: " followed by
    the byte, or the "Invalid byte" message of [handleByte]. *)
Theorem Parse_errors_are_known (input e : gostring) :
  Parse input = Err e ->
  e = lit "Block has no type" \/ e = lit "Attempted to close main block"
  \/ (exists b, e = lit "Nothing to catch byte: " ++ stringOfByte b)
  \/ (exists b o, e = invalidByteError b o).
Proof. unfold Parse. apply parseLines_Err. Qed.

End ErrorProperties.

(** ** Parse: the tree of the blocks *)

Section TreeProperties.

Import Parser.

Lemma skeleton_set_gc (g : genericCatch) (o : catchObj) : skeleton (set_gc g o) = skeleton o.
Proof. destruct o; reflexivity. Qed.

Lemma skeleton_insert (h : list catchObj) (r : ref) (o o' : catchObj) :
  h !! r = Some o -> skeleton o' = skeleton o ->
  skeleton <$> <[r := o']> h = skeleton <$> h.
Proof.
  intros Hr Hs. rewrite list_fmap_insert, Hs.
  apply list_insert_id. rewrite list_lookup_fmap.
  unfold ref in *. rewrite Hr. reflexivity.
Qed.

Lemma onCatch_skeleton f p p' :
  onCatch f p = Ok p' ->
  skeleton <$> heap p' = skeleton <$> heap p /\ block p' = block p.
Proof.
  intros H. apply onCatch_Ok in H as (r & o & g & _ & Ho & _ & ->). simpl.
  split; [|reflexivity]. eapply skeleton_insert; [exact Ho|apply skeleton_set_gc].
Qed.

Lemma popCatch_skeleton p p' :
  popCatch p = Ok p' ->
  skeleton <$> heap p' = skeleton <$> heap p /\ block p' = block p.
Proof.
  unfold popCatch. intros H. apply bind_Ok in H as (o & _ & H).
  injection H as <-. auto.
Qed.

Lemma nextByte_skeleton b p p' :
  nextByte b p = Ok p' ->
  skeleton <$> heap p' = skeleton <$> heap p /\ block p' = block p.
Proof.
  unfold nextByte. destruct (_ && _); intros H; injection H as <-; auto.
Qed.

Lemma handleByte_skeleton b p p' :
  handleByte b p = Ok p' ->
  skeleton <$> heap p' = skeleton <$> heap p /\ block p' = block p.
Proof.
  unfold handleByte. destruct (catch p) as [r|] eqn:Ec; [|discriminate].
  intros H. apply bind_Ok in H as (o & Ho & H).
  apply bind_Ok in H as (p1 & H1 & H).
  apply bind_Ok in H as (p2 & H2 & H).
  apply nextByte_skeleton in H as [-> ->].
  apply onCatch_skeleton in H2 as [-> ->].
  destruct (shouldSkipByte o b).
  - apply onCatch_skeleton in H1 as [-> ->]. auto.
  - destruct (negb (byteOK o b)); [discriminate|].
    injection H1 as <-. auto.
Qed.

Lemma structured_same p p' :
  skeleton <$> heap p' = skeleton <$> heap p -> block p' = block p ->
  structured p -> structured p'.
Proof. unfold structured. intros -> ->. auto. Qed.

Lemma treeSkeleton_parent sk cur par ty c :
  treeSkeleton sk -> sk !! cur = Some (Some (ty, Some par, c)) ->
  (par < cur)%nat /\ exists x, sk !! par = Some (Some x).
Proof.
  intros [H0 H] Hc.
  destruct (H _ _ _ _ Hc) as [_ Hp].
  destruct (decide (cur = mainRef)) as [->|Hne].
  - unfold ref in *. rewrite H0 in Hc. discriminate.
  - destruct (Hp Hne) as (r' & x & E & Hlt & Hx). injection E as <-. eauto.
Qed.

Lemma onPath_le sk cur r : treeSkeleton sk -> onPath sk cur r -> (r <= cur)%nat.
Proof.
  intros Ht H. induction H as [cur|cur par r ty c Hc _ IH]; [lia|].
  destruct (treeSkeleton_parent _ _ _ _ _ Ht Hc) as [Hlt _]. lia.
Qed.

Lemma onPath_snoc sk x cur r :
  treeSkeleton sk -> (cur < length sk)%nat ->
  onPath (sk ++ [x]) cur r <-> onPath sk cur r.
Proof.
  intros Ht Hlt. split; intros H.
  - induction H as [cur|cur par r ty c Hc _ IH]; [constructor|].
    rewrite lookup_app_l in Hc by assumption.
    destruct (treeSkeleton_parent _ _ _ _ _ Ht Hc) as [Hp _].
    econstructor; [exact Hc|]. apply IH. lia.
  - induction H as [cur|cur par r ty c Hc _ IH]; [constructor|].
    destruct (treeSkeleton_parent _ _ _ _ _ Ht Hc) as [Hp _].
    econstructor; [rewrite lookup_app_l by assumption; exact Hc|]. apply IH. lia.
Qed.

Lemma onPath_close sk cur0 ty par c c' a r :
  sk !! cur0 = Some (Some (ty, par, c)) ->
  onPath (<[cur0 := Some (ty, par, c')]> sk) a r <-> onPath sk a r.
Proof.
  intros Hc0. pose proof (lookup_lt_Some _ _ _ Hc0) as Hlt. split; intros H.
  - induction H as [cur|cur par1 r ty1 c1 Hc _ IH]; [constructor|].
    destruct (decide (cur = cur0)) as [->|Hne].
    + rewrite list_lookup_insert_eq in Hc by assumption.
      injection Hc as ? ? ?; subst.
      econstructor; [exact Hc0|exact IH].
    + rewrite list_lookup_insert_ne in Hc by congruence.
      econstructor; [exact Hc|exact IH].
  - induction H as [cur|cur par1 r ty1 c1 Hc _ IH]; [constructor|].
    destruct (decide (cur = cur0)) as [->|Hne].
    + unfold ref in *. rewrite Hc0 in Hc. injection Hc as ? ? ?; subst.
      econstructor; [|exact IH]. apply list_lookup_insert_eq. assumption.
    + econstructor; [|exact IH]. rewrite list_lookup_insert_ne by congruence. exact Hc.
Qed.

Lemma treeSkeleton_snoc_None sk : treeSkeleton sk -> treeSkeleton (sk ++ [None]).
Proof.
  intros [H0 H]. split.
  - rewrite lookup_app_l by (eapply lookup_lt_Some; eauto). exact H0.
  - intros r ty par c Hl.
    destruct (decide (r < length sk)%nat) as [Hlt|Hge].
    + rewrite lookup_app_l in Hl by assumption.
      destruct (H r ty par c Hl) as [Hty Hp]. split; [exact Hty|].
      intros Hr. destruct (Hp Hr) as (r' & x & E & Hlt' & Hx).
      exists r', x. split; [assumption|]. split; [assumption|].
      rewrite lookup_app_l by lia. exact Hx.
    + rewrite lookup_app_r in Hl by lia.
      destruct (r - length sk)%nat; simpl in Hl; discriminate.
Qed.

Lemma treeSkeleton_snoc_block sk ty r0 x c :
  treeSkeleton sk -> sk !! r0 = Some (Some x) -> ty <> [] ->
  treeSkeleton (sk ++ [Some (ty, Some r0, c)]).
Proof.
  intros [H0 H] Hr0 Hty. pose proof (lookup_lt_Some _ _ _ Hr0) as Hlt0. split.
  - rewrite lookup_app_l by (eapply lookup_lt_Some; eauto). exact H0.
  - intros r ty' par c' Hl.
    destruct (decide (r < length sk)%nat) as [Hlt|Hge].
    + rewrite lookup_app_l in Hl by assumption.
      destruct (H r ty' par c' Hl) as [Hty' Hp]. split; [exact Hty'|].
      intros Hr. destruct (Hp Hr) as (r' & x' & E & Hlt' & Hx).
      exists r', x'. split; [assumption|]. split; [assumption|].
      rewrite lookup_app_l by lia. exact Hx.
    + rewrite lookup_app_r in Hl by lia.
      destruct (r - length sk)%nat eqn:E; simpl in Hl; [|discriminate].
      injection Hl as <- <- <-. split; [exact Hty|]. intros _.
      exists r0, x. split; [reflexivity|]. split; [lia|].
      rewrite lookup_app_l by lia. exact Hr0.
Qed.

Lemma treeSkeleton_close sk cur ty par c :
  treeSkeleton sk -> sk !! cur = Some (Some (ty, par, c)) -> ty <> lit "main" ->
  treeSkeleton (<[cur := Some (ty, par, true)]> sk).
Proof.
  intros [H0 H] Hc Hty. pose proof (lookup_lt_Some _ _ _ Hc) as Hlt.
  assert (Hne : cur <> mainRef).
  { intros ->. unfold ref in *. rewrite H0 in Hc. injection Hc as E _ _. congruence. }
  assert (Hkeep : forall r' x, sk !! r' = Some (Some x) ->
            exists x', <[cur := Some (ty, par, true)]> sk !! r' = Some (Some x')).
  { intros r' x Hx. destruct (decide (r' = cur)) as [->|Hn].
    - rewrite list_lookup_insert_eq by assumption. eauto.
    - rewrite list_lookup_insert_ne by congruence. eauto. }
  split.
  - rewrite list_lookup_insert_ne by congruence. exact H0.
  - intros r ty' par' c' Hl.
    destruct (decide (r = cur)) as [->|Hn].
    + rewrite list_lookup_insert_eq in Hl by assumption. injection Hl as <- <- <-.
      destruct (H _ _ _ _ Hc) as [Hty' Hp]. split; [exact Hty'|].
      intros Hr. destruct (Hp Hr) as (r' & x & E & Hlt' & Hx).
      destruct (Hkeep _ _ Hx) as [x' Hx']. eauto.
    + rewrite list_lookup_insert_ne in Hl by congruence.
      destruct (H _ _ _ _ Hl) as [Hty' Hp]. split; [exact Hty'|].
      intros Hr. destruct (Hp Hr) as (r' & x & E & Hlt' & Hx).
      destruct (Hkeep _ _ Hx) as [x' Hx']. eauto.
Qed.

Lemma headerOf_type_nonempty (st : scanState) : fst (fst (headerOf st)) <> [].
Proof.
  unfold headerOf. destruct (splitClasses _) as [ty cls].
  destruct (streq ty []) eqn:E.
  - simpl. discriminate.
  - apply streq_false in E. destruct ty as [|c ty]; [contradiction|].
    destruct (eqb c "$"%char); simpl; discriminate.
Qed.

Lemma openBlock_structured p p' : openBlock p = Ok p' -> structured p -> structured p'.
Proof.
  unfold openBlock. destruct (eqb (next p) "@"%char).
  { intros H. injection H as <-. auto. }
  intros H Hst. apply bind_Ok in H as (o & Ho & H).
  destruct (streq (lastString (gc o)) []); [discriminate|].
  apply bind_Ok in H as (p1 & H1 & H).
  apply onCatch_skeleton in H1 as [Hs1 Hb1].
  destruct Hst as (Htree & cur & x & Hcur & Hx & Hopen).
  rewrite <- Hs1 in Htree, Hx, Hopen. rewrite <- Hb1 in Hcur.
  pose proof (headerOf_type_nonempty (scanHeader (lastString (gc o)))) as Hne.
  destruct (headerOf _) as [[ty nm] cls]. simpl in Hne.
  set (sk := skeleton <$> heap p1) in *.
  assert (Hlen : length sk = length (heap p1)) by (subst sk; apply length_fmap).
  assert (Hcurlt : (cur < length sk)%nat) by (eapply lookup_lt_Some; eauto).
  assert (Hgoal : forall blk, typ blk = ty -> parent blk = block p1 -> closed blk = false ->
            treeSkeleton (skeleton <$> (heap p1 ++ [CBlock blk]))
            /\ exists cur' x', Some (length (heap p1)) = Some cur'
                 /\ (skeleton <$> (heap p1 ++ [CBlock blk])) !! cur' = Some (Some x')
                 /\ openOnPath (skeleton <$> (heap p1 ++ [CBlock blk])) cur').
  { intros blk Hty Hpar Hcl. rewrite fmap_app. simpl. rewrite Hty, Hpar, Hcur, Hcl.
    fold sk.
    assert (Htree' : treeSkeleton (sk ++ [Some (ty, Some cur, false)]))
      by (eapply treeSkeleton_snoc_block; eauto).
    assert (Hnew : (sk ++ [Some (ty, Some cur, false)]) !! length (heap p1)
                   = Some (Some (ty, Some cur, false))).
    { rewrite lookup_app_r by lia. rewrite Hlen, Nat.sub_diag. reflexivity. }
    split; [exact Htree'|].
    exists (length (heap p1)), (ty, Some cur, false).
    split; [reflexivity|]. split; [exact Hnew|].
    intros r ty' par' c' Hl.
    destruct (decide (r < length sk)%nat) as [Hlt|Hge].
    - rewrite lookup_app_l in Hl by assumption.
      rewrite (Hopen _ _ _ _ Hl). split; intros H'.
      + econstructor; [exact Hnew|]. apply onPath_snoc; assumption.
      + inversion H' as [|? par1 ? ty1 c1 Hc1 Hp1]; subst; [lia|].
        unfold ref in *. rewrite Hnew in Hc1. injection Hc1 as ? ? ?; subst.
        apply onPath_snoc in Hp1; assumption.
    - rewrite lookup_app_r in Hl by lia.
      destruct (r - length sk)%nat eqn:E; simpl in Hl; [|discriminate].
      injection Hl as <- <- <-.
      replace r with (length (heap p1)) by lia.
      split; [intros _; constructor|reflexivity]. }
  destruct (eqb _ "{"%char); injection H as <-; apply Hgoal; reflexivity.
Qed.

Lemma closeBlock_structured p p' : closeBlock p = Ok p' -> structured p -> structured p'.
Proof.
  unfold closeBlock. intros H (Htree & cur & x & Hcur & Hx & Hopen).
  apply bind_Ok in H as (blk & Hb & H).
  apply derefBlock_Ok in Hb as (r & Hr & Hblk).
  rewrite Hcur in Hr. injection Hr as <-.
  destruct (streq (typ blk) (lit "main")) eqn:Em; [discriminate|].
  apply streq_false in Em.
  rewrite Hcur in H.
  apply bind_Ok in H as (p1 & H1 & H).
  apply popCatch_skeleton in H1 as [Hs1 Hb1].
  apply onCatch_skeleton in H as [Hs Hb].
  simpl in Hs1, Hb1.
  set (sk := skeleton <$> heap p) in *.
  assert (Hl : sk !! cur = Some (Some (typ blk, parent blk, closed blk))).
  { subst sk. rewrite list_lookup_fmap. unfold ref in *. rewrite Hblk. reflexivity. }
  assert (Hsk : skeleton <$> heap p'
                = <[cur := Some (typ blk, parent blk, true)]> sk).
  { rewrite Hs, Hs1. subst sk. rewrite list_fmap_insert. reflexivity. }
  assert (Hbk : block p' = parent blk) by congruence.
  assert (Hne : cur <> mainRef).
  { intros ->. destruct Htree as [H0 _]. unfold ref in *. rewrite H0 in Hl.
    injection Hl as E _ _. congruence. }
  destruct Htree as [H0 Hrest]. destruct (Hrest _ _ _ _ Hl) as [_ Hp].
  destruct (Hp Hne) as (par & xp & Epar & Hlt & Hxp).
  assert (Htree : treeSkeleton sk) by (split; assumption).
  unfold structured. rewrite Hsk, Hbk, Epar. split.
  - rewrite <- Epar. eapply treeSkeleton_close; eauto.
  - exists par, xp. split; [reflexivity|].
    split; [rewrite list_lookup_insert_ne by lia; exact Hxp|].
    intros r ty c0 c' Hlr. rewrite <- Epar. rewrite (onPath_close sk cur _ _ _ true _ _ Hl).
    destruct (decide (r = cur)) as [->|Hn].
    + rewrite list_lookup_insert_eq in Hlr by (eapply lookup_lt_Some; eauto).
      injection Hlr as <- <- <-. split; [discriminate|].
      intros Hpath. apply (onPath_le _ _ _ Htree) in Hpath. lia.
    + rewrite list_lookup_insert_ne in Hlr by congruence.
      rewrite (Hopen _ _ _ _ Hlr). split; intros H'.
      * inversion H' as [|? par1 ? ty1 c1 Hc1 Hp1]; subst; [contradiction|].
        unfold ref in *. rewrite Hl, Epar in Hc1. injection Hc1 as _ <- _. exact Hp1.
      * econstructor; [rewrite Hl, Epar; reflexivity|exact H'].
Qed.

Lemma variableToken_structured b p p' :
  variableToken b p = Ok p' -> structured p -> structured p'.
Proof.
  unfold variableToken. intros H (Htree & cur & x & Hcur & Hx & Hopen).
  destruct (_ && bool_decide _).
  - assert (Hgoal : treeSkeleton ((skeleton <$> heap p) ++ [None])
                    /\ exists cur' x', block p = Some cur'
                         /\ ((skeleton <$> heap p) ++ [None]) !! cur' = Some (Some x')
                         /\ openOnPath ((skeleton <$> heap p) ++ [None]) cur').
    { split; [apply treeSkeleton_snoc_None; exact Htree|].
      pose proof (lookup_lt_Some _ _ _ Hx) as Hlt.
      exists cur, x. split; [exact Hcur|].
      split; [rewrite lookup_app_l by assumption; exact Hx|].
      intros r ty par c Hl.
      destruct (decide (r < length (skeleton <$> heap p))%nat) as [Hr|Hr].
      - rewrite lookup_app_l in Hl by assumption.
        rewrite (Hopen _ _ _ _ Hl). symmetry. apply onPath_snoc; assumption.
      - rewrite lookup_app_r in Hl by lia.
        destruct (r - length (skeleton <$> heap p))%nat; simpl in Hl; discriminate. }
    destruct (eqb b "%"%char); destruct (eqb (last _) "-"%char);
      injection H as <-;
      (unfold structured; simpl; rewrite fmap_app; simpl; exact Hgoal).
  - assert (Hp : p' = p).
    { destruct (eqb b ":"%char); [|destruct (eqb b ";"%char)];
        try (apply bind_Ok in H as (? & _ & H)); injection H as <-; reflexivity. }
    subst p'. split; eauto.
Qed.

Lemma braceEscape_structured b p p' :
  braceEscape b p = Ok p' -> structured p -> structured p'.
Proof.
  unfold braceEscape. intros H Ht. apply bind_Ok in H as (p1 & H1 & H).
  assert (E1 : skeleton <$> heap p1 = skeleton <$> heap p /\ block p1 = block p).
  { destruct (_ && _); [injection H1 as <-; auto|].
    destruct (eqb b "}"%char); [|injection H1 as <-; auto].
    destruct (_ =? 0); [apply popCatch_skeleton in H1; exact H1|].
    injection H1 as <-. auto. }
  destruct E1 as [Es Eb].
  assert (E2 : skeleton <$> heap p' = skeleton <$> heap p1 /\ block p' = block p1).
  { destruct (_ || _); [apply nextByte_skeleton in H | apply handleByte_skeleton in H];
      exact H. }
  destruct E2 as [Es2 Eb2].
  eapply structured_same; [| |exact Ht]; congruence.
Qed.

Lemma parseByte_structured b p p' :
  parseByte b p = Ok p' -> structured p -> structured p'.
Proof.
  assert (Hh : forall q q', handleByte b q = Ok q' -> structured q -> structured q').
  { intros q q' H. apply handleByte_skeleton in H as [Hs Hb].
    apply structured_same; assumption. }
  assert (Hn : forall q q', nextByte b q = Ok q' -> structured q -> structured q').
  { intros q q' H. apply nextByte_skeleton in H as [Hs Hb].
    apply structured_same; assumption. }
  unfold parseByte.
  repeat match goal with
         | |- (if ?c then _ else _) = _ -> _ => destruct c
         | |- (let _ := _ in _) = _ -> _ => cbv zeta
         end;
    try (intros H Ht; eapply braceEscape_structured; eauto; fail);
    try (intros H Ht; eapply Hh; [exact H|exact Ht]; fail);
    try (intros H Ht; eapply Hn; [exact H|exact Ht]; fail).
  - intros H Ht. apply bind_Ok in H as (p1 & H1 & H).
    eapply Hh; [exact H|]. eapply openBlock_structured; [exact H1|exact Ht].
  - intros H Ht. apply bind_Ok in H as (p1 & H1 & H).
    eapply Hh; [exact H|]. eapply closeBlock_structured; [exact H1|exact Ht].
  - intros H Ht. apply bind_Ok in H as (blk & _ & H). revert H.
    repeat match goal with
           | |- (if ?c then _ else _) = _ -> _ => destruct c
           end;
      try (intros H; eapply Hh; [exact H|exact Ht]; fail).
    intros H. apply bind_Ok in H as (p1 & H1 & H).
    eapply Hh; [exact H|]. eapply variableToken_structured; [exact H1|exact Ht].
Qed.

Lemma parseLineFrom_structured bytes : forall i p p',
  parseLineFrom i bytes p = Ok p' -> structured p -> structured p'.
Proof.
  induction bytes as [|b rest IH]; intros i p p'; simpl.
  - intros H. injection H as <-. auto.
  - destruct (skip p).
    + intros H Ht. eapply IH; [exact H|exact Ht].
    + intros H Ht. apply bind_Ok in H as (p1 & H1 & H).
      eapply IH; [exact H|]. eapply parseByte_structured; [exact H1|exact Ht].
Qed.

Lemma parseLines_structured lines : forall i p p',
  parseLines i lines p = Ok p' -> structured p -> structured p'.
Proof.
  induction lines as [|l rest IH]; intros i p p'; simpl.
  - intros H. injection H as <-. auto.
  - intros H Ht. apply bind_Ok in H as (p1 & H1 & H).
    eapply IH; [exact H|]. eapply parseLineFrom_structured; [exact H1|exact Ht].
Qed.

Lemma newParser_structured : structured newParser.
Proof.
  split; [split|].
  - reflexivity.
  - intros [|r] ty par c Hl; simpl in Hl; [|discriminate].
    injection Hl as <- <- <-. split; [discriminate|]. intros H. contradiction.
  - exists mainRef, (lit "main", None, false). split; [reflexivity|].
    split; [reflexivity|].
    intros [|r] ty par c Hl; simpl in Hl; [|discriminate].
    injection Hl as <- <- <-. split; [intros _; constructor|reflexivity].
Qed.

Lemma Parse_structured input p : Parse input = Ok p -> structured p.
Proof.
  intros H. eapply parseLines_structured; [exact H|apply newParser_structured].
Qed.

Lemma skeleton_block (h : list catchObj) (r : ref) x :
  (skeleton <$> h) !! r = Some (Some x) ->
  exists b, h !! r = Some (CBlock b) /\ x = (typ b, parent b, closed b).
Proof.
  intros Hl. rewrite list_lookup_fmap in Hl. unfold ref in *.
  destruct (h !! r) as [[b|v]|]; simpl in Hl; try discriminate.
  injection Hl as <-. eauto.
Qed.

Lemma block_skeleton (h : list catchObj) (r : ref) (b : parserBlock) :
  h !! r = Some (CBlock b) ->
  (skeleton <$> h) !! r = Some (Some (typ b, parent b, closed b)).
Proof.
  intros H. rewrite list_lookup_fmap. unfold ref in *. rewrite H. reflexivity.
Qed.

(** X19. After a successful [Parse] the blocks form a tree: the first
    block is of type [main] and has no parent, every block has a type that
    is not empty, every other block has a parent that is a block created
    before it, and the current block is one of the blocks. *)
Theorem Parse_blocks_form_a_tree (input : gostring) (p : parser) :
  Parse input = Ok p ->
  (exists b0, heap p !! mainRef = Some (CBlock b0)
              /\ typ b0 = lit "main" /\ parent b0 = None)
  /\ (forall (r : ref) (b : parserBlock),
        heap p !! r = Some (CBlock b) ->
        typ b <> []
        /\ (r <> mainRef ->
            exists r' b', parent b = Some r' /\ (r' < r)%nat
                          /\ heap p !! r' = Some (CBlock b')))
  /\ (exists r b, block p = Some r /\ heap p !! r = Some (CBlock b)).
Proof.
  intros H. destruct (Parse_structured _ _ H) as ((Hm & Ht) & r & x & Hr & Hx & _).
  split; [|split].
  - destruct (skeleton_block _ _ _ Hm) as (b0 & Hb0 & E). injection E as E1 E2 E3. eauto.
  - intros r1 b Hb.
    destruct (Ht _ _ _ _ (block_skeleton _ _ _ Hb)) as [Hty Hp].
    split; [exact Hty|]. intros Hne.
    destruct (Hp Hne) as (r' & x' & E & Hlt & Hx').
    destruct (skeleton_block _ _ _ Hx') as (b' & Hb' & _). eauto.
  - destruct (skeleton_block _ _ _ Hx) as (b & Hb & _). eauto.
Qed.

(** X20. After a successful [Parse] the blocks that are not closed are
    the current block and the blocks around it (its parent, the parent of
    its parent, up to the main block): every other block is closed, and
    none of these is. *)
Theorem Parse_open_blocks_enclose_current (input : gostring) (p : parser) :
  Parse input = Ok p ->
  exists cur : ref,
    block p = Some cur
    /\ forall (r : ref) (b : parserBlock),
         heap p !! r = Some (CBlock b) ->
         (closed b = false <-> onPath (skeleton <$> heap p) cur r).
Proof.
  intros H. destruct (Parse_structured _ _ H) as (_ & cur & x & Hcur & _ & Hopen).
  exists cur. split; [exact Hcur|].
  intros r b Hb. apply (Hopen _ _ _ _ (block_skeleton _ _ _ Hb)).
Qed.

End TreeProperties.

(** ** The gallery block: images and warnings *)

Section GalleryOrder.

Import Gallery.

Context {Page imageExtra : Type}.
Variable rootImage : Page -> gostring.
Variable imageParse : Page -> imageBlock imageExtra -> Page * imageBlock imageExtra.

Local Abbreviation parseKey := (parseKey Page rootImage imageExtra imageParse).
Local Abbreviation parseKeys := (parseKeys Page rootImage imageExtra imageParse).
Local Abbreviation addImage := (addImage Page rootImage imageExtra imageParse).
Local Abbreviation parse := (Gallery.parse Page rootImage imageExtra imageParse).
Local Abbreviation state := (state Page imageExtra).

Lemma addImage_images (r : imgRef) (st : state) :
  (r < length (imgs _ _ st))%nat ->
  img <$> images (gallery _ _ (addImage r st)) = (img <$> images (gallery _ _ st)) ++ [r]
  /\ length (imgs _ _ (addImage r st)) = length (imgs _ _ st)
  /\ warnings _ _ (addImage r st) = warnings _ _ st.
Proof.
  intros Hr. unfold Gallery.addImage.
  destruct (lookup_lt_is_Some_2 _ _ Hr) as [im Him].
  unfold imgRef in *. rewrite Him.
  destruct (imageParse _ _) as [pg parsed]. simpl.
  rewrite fmap_app, length_insert. auto.
Qed.

Lemma addImage_warnings (r : imgRef) (st : state) :
  warnings _ _ (addImage r st) = warnings _ _ st.
Proof.
  unfold Gallery.addImage. destruct (imgs _ _ st !! r) as [im|]; [|reflexivity].
  destruct (imageParse _ _) as [pg parsed]. reflexivity.
Qed.

Lemma parseKey_images (k : gostring) (st : state) :
  (forall r, imageOf (Map (gallery _ _ st)) k = Some r -> (r < length (imgs _ _ st))%nat) ->
  img <$> images (gallery _ _ (parseKey k st))
  = (img <$> images (gallery _ _ st)) ++ option_list (imageOf (Map (gallery _ _ st)) k)
  /\ length (imgs _ _ (parseKey k st)) = length (imgs _ _ st).
Proof.
  unfold Gallery.parseKey, imageOf, GetStr, GetBlock.
  destruct (streq k (lit "thumb_height")).
  - intros _. destruct (lookupKey k _) as [[s| | |]|]; simpl;
      rewrite ?app_nil_r; auto.
    destruct (Atoi s); simpl; rewrite ?app_nil_r; auto.
  - destruct (negb _); simpl; [intros _; rewrite app_nil_r; auto|].
    destruct (lookupKey k _) as [[s|r| |]|]; simpl;
      try (intros _; rewrite app_nil_r; auto; fail).
    intros Hr. destruct (addImage_images r st (Hr r eq_refl)) as (H1 & H2 & _). auto.
Qed.

Lemma parseKey_warnings (k : gostring) (st : state) :
  exists more,
    warnings _ _ (parseKey k st) = warnings _ _ st ++ more
    /\ length more = (if keyAccepted (Map (gallery _ _ st)) k then 0 else 1)%nat.
Proof.
  unfold Gallery.parseKey, keyAccepted, GetStr, GetBlock, warn.
  destruct (streq k (lit "thumb_height")).
  - destruct (lookupKey k _) as [[s| | |]|]; simpl; try (eexists; split; reflexivity).
    destruct (Atoi s) eqn:E; simpl.
    + exists []. rewrite app_nil_r. split; reflexivity.
    + eexists. split; reflexivity.
  - destruct (negb _); simpl; [eexists; split; reflexivity|].
    destruct (lookupKey k _) as [[s|r| |]|]; simpl; try (eexists; split; reflexivity).
    exists []. rewrite app_nil_r. split; [apply addImage_warnings|reflexivity].
Qed.

(** X21. When the image blocks of the map are in the store, [parse]
    adds the images of the gallery in the order of the keys: the images
    after it are those before it followed by the image of every key that is
    not [thumb_height], starts with [anon_] and holds an image block; and
    the store keeps its size. *)
Theorem gallery_images_follow_key_order (st : state) :
  (forall k r, k ∈ OrderedKeys (gallery _ _ st) ->
     imageOf (Map (gallery _ _ st)) k = Some r -> (r < length (imgs _ _ st))%nat) ->
  img <$> images (gallery _ _ (parse st))
  = (img <$> images (gallery _ _ st))
    ++ omap (imageOf (Map (gallery _ _ st))) (OrderedKeys (gallery _ _ st))
  /\ length (imgs _ _ (parse st)) = length (imgs _ _ st).
Proof.
  unfold Gallery.parse.
  generalize (OrderedKeys (gallery _ _ st)) as keys.
  intros keys. revert st. induction keys as [|k keys IH]; intros st Hv.
  - simpl. rewrite app_nil_r. auto.
  - destruct (parseKey_gallery rootImage imageParse k st) as (M1 & _ & _).
    destruct (parseKey_images k st) as (I1 & L1).
    { intros r Hr. apply (Hv k r); [apply list_elem_of_here|exact Hr]. }
    destruct (IH (parseKey k st)) as (I2 & L2).
    { intros k' r Hk' Hr. rewrite L1. rewrite M1 in Hr.
      apply (Hv k' r); [apply list_elem_of_further; exact Hk'|exact Hr]. }
    unfold Gallery.parseKeys in *. simpl.
    split; [|congruence].
    rewrite I2, I1, M1, <- app_assoc. f_equal.
    destruct (imageOf (Map (gallery _ _ st)) k); reflexivity.
Qed.

(** X22. [parse] only adds warnings, one for each key that is neither a
    [thumb_height] with an integer nor an anonymous image block; when all
    the keys are of these two kinds it gives none. *)
Theorem gallery_warns_once_per_rejected_key (st : state) :
  let m := Map (gallery _ _ st) in
  let keys := OrderedKeys (gallery _ _ st) in
  warnings _ _ st `prefix_of` warnings _ _ (parse st)
  /\ length (warnings _ _ (parse st))
     = (length (warnings _ _ st)
        + length (List.filter (fun k => negb (keyAccepted m k)) keys))%nat
  /\ (forallb (keyAccepted m) keys = true -> warnings _ _ (parse st) = warnings _ _ st).
Proof.
  intros m keys.
  assert (H : exists more,
            warnings _ _ (parse st) = warnings _ _ st ++ more
            /\ length more = length (List.filter (fun k => negb (keyAccepted m k)) keys)).
  { unfold Gallery.parse. fold keys. subst m. clearbody keys.
    revert st. induction keys as [|k keys IH]; intros st.
    - exists []. simpl. rewrite app_nil_r. auto.
    - destruct (parseKey_gallery rootImage imageParse k st) as (M1 & _ & _).
      destruct (parseKey_warnings k st) as (more1 & W1 & L1).
      destruct (IH (parseKey k st)) as (more2 & W2 & L2).
      exists (more1 ++ more2). unfold Gallery.parseKeys in *. simpl.
      rewrite W2, W1, <- app_assoc. split; [reflexivity|].
      rewrite length_app, L1, L2, M1.
      destruct (keyAccepted (Map (gallery _ _ st)) k); reflexivity. }
  destruct H as (more & Hw & Hl).
  split; [rewrite Hw; apply prefix_app_r; reflexivity|].
  split; [rewrite Hw, length_app, Hl; reflexivity|].
  intros Hall.
  assert (Hnil : List.filter (fun k => negb (keyAccepted m k)) keys = []).
  { clear Hl Hw. induction keys as [|k keys IH]; [reflexivity|].
    simpl in Hall. apply andb_true_iff in Hall as [Hk Hall].
    simpl. rewrite Hk. simpl. apply IH. exact Hall. }
  rewrite Hnil in Hl. destruct more; [|discriminate].
  rewrite Hw, app_nil_r. reflexivity.
Qed.

End GalleryOrder.

(** ** Configuration: maps and required variables *)

Section ConfigMaps.

Import Config.

Variable getWhere : Config -> gostring -> bool -> option (gmap gostring cvalue * gostring).
Variable getWarn : Config -> gostring -> gostring.

(** X23. [RequireMany] returns nil exactly when [Get] gives a value other
    than the empty string and "0" for every name, and otherwise the error
    of the first name for which it does not. *)
Theorem RequireMany_reports_first_missing (conf : Config) (varNames : list gostring) :
  (RequireMany getWhere getWarn conf varNames = None
   <-> Forall (fun v => isTrueString (Get getWhere conf v) = true) varNames)
  /\ (forall pre v post,
        varNames = pre ++ v :: post ->
        Forall (fun v' => isTrueString (Get getWhere conf v') = true) pre ->
        isTrueString (Get getWhere conf v) = false ->
        RequireMany getWhere getWarn conf varNames
        = Some (getWarn conf (lit "@" ++ v ++ lit " is required"))).
Proof.
  split.
  - induction varNames as [|v vs IH]; simpl.
    + split; [constructor|reflexivity].
    + unfold Require_. destruct (isTrueString (Get getWhere conf v)) eqn:E; simpl.
      * rewrite IH. split; [intros H; constructor; assumption|].
        intros H. inversion H; assumption.
      * split; [discriminate|]. intros H. inversion H; congruence.
  - intros pre v post -> Hpre Hv.
    induction Hpre as [|v' pre Hv' _ IH]; simpl.
    + unfold Require_. rewrite Hv. reflexivity.
    + unfold Require_ at 1. rewrite Hv'. simpl. exact IH.
Qed.

(** X24. [GetStringMap] holds a key with a string exactly when [GetMap]
    gives a map that holds this string under the key: the other values of
    the map are left out; it is the empty map when [GetMap] gives nil; and
    [GetMap] gives nil for a variable of which [Get] gives a non-empty
    string. *)
Theorem GetStringMap_keeps_the_strings (conf : Config) (varName : gostring) :
  (forall k s,
     GetStringMap getWhere conf varName !! k = Some s
     <-> exists aMap, GetMap getWhere conf varName = Some aMap
                      /\ aMap !! k = Some (CString s))
  /\ (GetMap getWhere conf varName = None -> GetStringMap getWhere conf varName = ∅)
  /\ (Get getWhere conf varName <> [] -> GetMap getWhere conf varName = None).
Proof.
  split; [|split].
  - intros k s. unfold GetStringMap.
    destruct (GetMap getWhere conf varName) as [aMap|].
    + rewrite lookup_omap. split.
      * intros H. exists aMap. split; [reflexivity|].
        destruct (aMap !! k) as [[str| |]|]; simpl in H; try discriminate.
        injection H as <-. reflexivity.
      * intros (m & Hm & Hk). injection Hm as <-. rewrite Hk. reflexivity.
    + rewrite lookup_empty. split; [discriminate|]. intros (m & Hm & _). discriminate.
  - intros H. unfold GetStringMap. rewrite H. reflexivity.
  - unfold Get, GetMap. destruct (getWhere conf varName false) as [[where_ lastPart]|];
      [|reflexivity].
    destruct (where_ !! lastPart) as [[str| |]|]; try reflexivity.
    intros H. contradiction.
Qed.

End ConfigMaps.

(** ** The renderer: the choice of the brace escape *)

Section RendererProperties.

Import Parser Renderer.

Lemma braceScan_spec (code : list byte) :
  forall l c : Z,
    0 <= l ->
    let '(l', c') := braceScan code l c in
    c <= c'
    /\ (staysInside (l + 1) code = true
        /\ l' + 1 = depthAfter (l + 1) code /\ 0 <= l'
        /\ (c' = c <-> "{"%char ∉ code)
        \/ staysInside (l + 1) code = false /\ l' < 0).
Proof.
  induction code as [|b code IH]; intros l c Hl.
  - simpl. split; [lia|]. left. split; [reflexivity|]. split; [reflexivity|].
    split; [lia|]. split; [intros _; apply not_elem_of_nil|reflexivity].
  - cbn [braceScan staysInside]. unfold depthAfter. cbn [fold_left].
    fold (depthAfter (braceStep (l + 1) b) code).
    destruct (eqb b "{"%char) eqn:E1.
    + assert (Hstep : braceStep (l + 1) b = l + 1 + 1)
        by (unfold braceStep; rewrite E1; reflexivity).
      rewrite Hstep.
      apply eqb_true in E1. subst b.
      specialize (IH (l + 1) (c + 1) ltac:(lia)).
      destruct (braceScan code (l + 1) (c + 1)) as [l' c'].
      destruct IH as [Hc IH]. split; [lia|].
      replace (0 <? l + 1 + 1) with true by (symmetry; apply Z.ltb_lt; lia).
      destruct IH as [(H1 & H2 & H3 & H4) | (H1 & H2)]; [left|right; auto].
      split; [exact H1|]. split; [exact H2|]. split; [exact H3|].
      split; [lia|]. intros Hn. exfalso. apply Hn. apply list_elem_of_here.
    + destruct (eqb b "}"%char) eqn:E2.
      * assert (Hstep : braceStep (l + 1) b = l)
          by (unfold braceStep; rewrite E1, E2; lia).
        rewrite Hstep. cbv zeta.
        destruct (l - 1 <? 0) eqn:E3.
        -- apply Z.ltb_lt in E3. split; [lia|]. right.
           replace (0 <? l) with false by (symmetry; apply Z.ltb_ge; lia).
           split; [reflexivity|lia].
        -- apply Z.ltb_ge in E3.
           specialize (IH (l - 1) c ltac:(lia)).
           destruct (braceScan code (l - 1) c) as [l' c'].
           replace (l - 1 + 1) with l in IH by lia.
           destruct IH as [Hc IH]. split; [exact Hc|].
           replace (0 <? l) with true by (symmetry; apply Z.ltb_lt; lia).
           destruct IH as [(H1 & H2 & H3 & H4) | (H1 & H2)]; [left|right; auto].
           split; [exact H1|]. split; [exact H2|]. split; [exact H3|].
           rewrite H4. apply eqb_false in E1.
           rewrite not_elem_of_cons. split; [intros H; split; [congruence|exact H]|tauto].
      * assert (Hstep : braceStep (l + 1) b = l + 1)
          by (unfold braceStep; rewrite E1, E2; reflexivity).
        rewrite Hstep.
        specialize (IH l c Hl).
        destruct (braceScan code l c) as [l' c'].
        destruct IH as [Hc IH]. split; [exact Hc|].
        replace (0 <? l + 1) with true by (symmetry; apply Z.ltb_lt; lia).
        destruct IH as [(H1 & H2 & H3 & H4) | (H1 & H2)]; [left|right; auto].
        split; [exact H1|]. split; [exact H2|]. split; [exact H3|].
        rewrite H4. apply eqb_false in E1.
        rewrite not_elem_of_cons. split; [intros H; split; [congruence|exact H]|tauto].
Qed.

(** X25. [renderCodeBlockLang] chooses the brace escape exactly when the
    code has an opening brace and the brace-escape region of the parser,
    entered at the level 1, holds all of the code: no byte of it brings the
    level to 0, and the level is 1 again after it. *)
Theorem brace_escape_chosen_iff_region_holds_code (code : list byte) :
  useBraceEscape code = true
  <-> "{"%char ∈ code /\ staysInside 1 code = true /\ depthAfter 1 code = 1.
Proof.
  unfold useBraceEscape.
  pose proof (braceScan_spec code 0 0 ltac:(lia)) as H.
  destruct (braceScan code 0 0) as [l' c']. change (0 + 1) with 1 in H.
  destruct H as [Hc [(H1 & H2 & H3 & H4) | (H1 & H2)]].
  - rewrite andb_true_iff, Z.eqb_eq, negb_true_iff, Z.eqb_neq. split.
    + intros [Hl Hn]. split; [|split; [exact H1|lia]].
      destruct (decide ("{"%char ∈ code)) as [|Hno]; [assumption|].
      apply H4 in Hno. contradiction.
    + intros (Hin & _ & Hd). split; [lia|]. intros Hz. apply H4 in Hz. contradiction.
  - split.
    + intros H. apply andb_true_iff in H as [H _]. apply Z.eqb_eq in H. lia.
    + intros (_ & Hs & _). congruence.
Qed.

End RendererProperties.

(** ** The renderer: the sections of the headings *)

Section HeadingProperties.

Import Renderer.

Lemma braceDepth_app (a b : gostring) :
  braceDepth (a ++ b) = braceDepth a + braceDepth b.
Proof.
  induction a as [|c a IH]; [reflexivity|]. simpl. rewrite IH. lia.
Qed.

Lemma braceDepth_repeat (add : gostring) (n : nat) :
  braceDepth (concat (repeat add n)) = Z.of_nat n * braceDepth add.
Proof.
  induction n as [|n IH]; [reflexivity|].
  cbn [repeat concat]. rewrite braceDepth_app, IH. lia.
Qed.

(** A loop that counts [i] up to [hi] with [i++] and writes [add] at each
    turn: it ends when [hi] is not the largest [int], after [hi - i + 1]
    turns, or none when [i] is above [hi]. *)
Lemma loop_counts_up (hi : Z) (add : gostring) (n : nat) :
  forall (fuel : nat) (i : Z) (w : gostring),
    - 2 ^ 63 <= i -> hi < 2 ^ 63 - 1 ->
    n = Z.to_nat (hi - i + 1) -> (n < fuel)%nat ->
    exists i' : Z,
      loop fuel (fun '(i, _) => i <=? hi) (fun '(i, w) => (incr i, w ++ add)) (i, w)
      = Some (i', w ++ concat (repeat add n)).
Proof.
  induction n as [|n IH]; intros fuel i w Hi Hhi Hn Hfuel.
  - destruct fuel as [|fuel]; [lia|]. exists i. simpl.
    destruct (Z.leb_spec i hi); [lia|]. rewrite app_nil_r. reflexivity.
  - destruct fuel as [|fuel]; [lia|]. cbn [loop]. cbv beta iota.
    destruct (Z.leb_spec i hi); [|lia].
    rewrite incr_small by lia.
    destruct (IH fuel (i + 1) (w ++ add)) as (i' & Hloop); try lia.
    exists i'. etransitivity; [exact Hloop|].
    cbn [repeat concat]. rewrite <- app_assoc. reflexivity.
Qed.

(** X27. A heading of the level [level], when that level and the level
    of the last heading are in the range of [int] and below its largest
    value, with fuel for the turns of the two loops: on entering,
    [renderHeading] closes the sections of the levels from [level] to that
    of the last heading, opens sections without a title for the levels
    that are passed over, begins the title of a new section and takes
    [level] as the level; after the title, on leaving, it opens the section.
    In all, the blocks that the output leaves open grow by as much as the
    level does, when the braces of the title are balanced. *)
Theorem heading_sections_follow_level (fuel : nat) (level : Z) (r : Renderer)
    (w : gostring) :
  - 2 ^ 63 <= headingLevel r < 2 ^ 63 - 1 -> - 2 ^ 63 <= level < 2 ^ 63 - 1 ->
  let closed := Z.to_nat (headingLevel r - level + 1) in
  let opened := Z.to_nat (level - headingLevel r - 1) in
  (closed + opened < fuel)%nat ->
  let w1 := w ++ concat (repeat ([LF] ++ lit "}" ++ [LF]) closed)
              ++ concat (repeat (lit "~sec{" ++ [LF]) opened) ++ lit "~sec[" in
  renderHeading fuel level true (r, w) = Some (set_headingLevel level r, w1)
  /\ forall title : gostring,
       exists w2 : gostring,
         renderHeading fuel level false (set_headingLevel level r, w1 ++ title)
         = Some (set_headingLevel level r, w2)
         /\ braceDepth w2 - level = braceDepth w + braceDepth title - headingLevel r.
Proof.
  intros Hhl Hlevel closed opened Hfuel w1. split.
  - unfold renderHeading.
    destruct (loop_counts_up (headingLevel r) ([LF] ++ lit "}" ++ [LF]) closed
                fuel level w) as (i1 & ->); try lia.
    cbn [mbind option_bind]. cbv beta iota.
    rewrite incr_small by lia.
    destruct (Z.gtb_spec level (headingLevel r + 1)) as [Hgt|Hle].
    + unfold wrap64. rewrite Z.mod_small by lia.
      replace (headingLevel r + 2 + 2 ^ 63 - 2 ^ 63) with (headingLevel r + 2) by lia.
      destruct (loop_counts_up level (lit "~sec{" ++ [LF]) opened
                  fuel (headingLevel r + 2)
                  (w ++ concat (repeat ([LF] ++ lit "}" ++ [LF]) closed)))
        as (i2 & Hl2); try lia.
      etransitivity; [apply (f_equal (fun o => o ≫= _) Hl2)|].
      cbn [mbind option_bind]. subst w1. rewrite <- !app_assoc. reflexivity.
    + cbn [mbind option_bind]. subst w1.
      replace opened with 0%nat by lia. cbn [repeat concat].
      rewrite <- !app_assoc. reflexivity.
  - intros title. eexists. split; [reflexivity|].
    subst w1. rewrite !braceDepth_app, !braceDepth_repeat.
    change (braceDepth ([LF] ++ lit "}" ++ [LF])) with (-1).
    change (braceDepth (lit "~sec{" ++ [LF])) with 1.
    change (braceDepth (lit "~sec[")) with 0.
    change (braceDepth (lit "]")) with 0. change (braceDepth (lit "{")) with 1.
    change (braceDepth [LF]) with 0.
    subst closed opened. lia.
Qed.

(** [quikiEscFmt] is not in [renderer.go]. *)
Variable quikiEscFmt : gostring -> gostring.

Lemma loop_closes_sections (n : nat) :
  forall (fuel : nat) (r : Renderer) (w : gostring),
    headingLevel r < 2 ^ 63 ->
    n = Z.to_nat (headingLevel r) -> (n < fuel)%nat ->
    loop fuel (fun '(r, _) => headingLevel r >? 0)
      (fun '(r, w) => (set_headingLevel (decr (headingLevel r)) r, w ++ [LF] ++ lit "}"))
      (r, w)
    = Some (set_headingLevel (Z.min (headingLevel r) 0) r,
            w ++ concat (repeat ([LF] ++ lit "}") n)).
Proof.
  induction n as [|n IH]; intros fuel r w Hhl Hn Hfuel.
  - destruct fuel as [|fuel]; [lia|]. simpl.
    destruct (Z.gtb_spec (headingLevel r) 0); [lia|].
    rewrite app_nil_r. replace (Z.min (headingLevel r) 0) with (headingLevel r) by lia.
    destruct r; reflexivity.
  - destruct fuel as [|fuel]; [lia|]. cbn [loop]. cbv beta iota.
    destruct (Z.gtb_spec (headingLevel r) 0); [|lia].
    rewrite decr_small by lia.
    rewrite (IH fuel); cbn [headingLevel set_headingLevel]; try lia.
    cbn [repeat concat]. rewrite <- !app_assoc.
    replace (Z.min (headingLevel r - 1) 0) with (Z.min (headingLevel r) 0) by lia.
    reflexivity.
Qed.

(** X28. At the end of the document, with a level that is not negative
    and fuel for the turns of the loop, [renderDocument] closes as many
    sections as the level of the last heading counts and leaves the level
    at 0, then writes the title of the page when there is one: of the
    blocks open before, it closes that many. *)
Theorem document_end_closes_open_sections (fuel : nat) (r : Renderer) (w : gostring) :
  0 <= headingLevel r < 2 ^ 63 -> (Z.to_nat (headingLevel r) < fuel)%nat ->
  let closing := concat (repeat ([LF] ++ lit "}") (Z.to_nat (headingLevel r))) in
  let title := if negb (streq (PageTitle r) [])
               then [LF] ++ lit "@page.title: " ++ quikiEscFmt (PageTitle r)
                      ++ lit ";" ++ [LF]
               else [] in
  renderDocument quikiEscFmt fuel false (r, w)
  = Some (set_headingLevel 0 r, w ++ closing ++ title)
  /\ braceDepth (w ++ closing) = braceDepth w - headingLevel r.
Proof.
  intros Hhl Hfuel closing title. split.
  - unfold renderDocument.
    rewrite (loop_closes_sections (Z.to_nat (headingLevel r))) by (lia || reflexivity).
    cbn [mbind option_bind]. replace (Z.min (headingLevel r) 0) with 0 by lia.
    cbn [PageTitle set_headingLevel]. subst title closing.
    destruct (negb (streq (PageTitle r) [])).
    + rewrite <- !app_assoc. reflexivity.
    + rewrite app_nil_r. reflexivity.
  - subst closing. rewrite braceDepth_app, braceDepth_repeat.
    change (braceDepth ([LF] ++ lit "}")) with (-1). lia.
Qed.

End HeadingProperties.

(** ** The further properties on concrete inputs *)

Section MoreConcrete.

Import Parser Examples.

Lemma appendContent_fails_iff_empty_string_witness :
  appendContent sliceWithEmpty somewhere emptyCatch = None.
Proof.
  apply (proj2 (appendContent_fails_iff_empty_string sliceWithEmpty somewhere emptyCatch)).
  reflexivity.
Defined.

Lemma appendContent_continues_content_witness :
  exists c', appendContent stringAndBlock somewhere catchWithA = Some c'
             /\ continues (positioned catchWithA) (positioned c').
Proof.
  eexists. split; [vm_compute; reflexivity|].
  apply (appendContent_continues_content stringAndBlock somewhere catchWithA).
  vm_compute. reflexivity.
Defined.

Lemma finishLine_strips_indent_witness :
  positioned (finishLine indentedCatch) = [PosContent (IString (lit "x")) somewhere].
Proof.
  assert (Hb : blankIndent indentedCatch).
  { constructor; [left; reflexivity|constructor]. }
  apply (proj2 (proj2 (finishLine_strips_indent indentedCatch Hb)) [] (lit "x") somewhere).
  - reflexivity.
  - apply (bool_decide_unpack _). vm_compute. exact I.
Defined.

Lemma appendString_line_bookkeeping_witness :
  exists c', appendString (lit "b") somewhere catchWithA = Some c'
             /\ line c' = line catchWithA ++ lit "b".
Proof.
  eexists. split; [vm_compute; reflexivity|].
  apply (proj1 (appendString_line_bookkeeping (lit "b") somewhere catchWithA _
                  ltac:(vm_compute; reflexivity))).
Defined.

Lemma setLastContent_replaces_last_witness :
  exists c', setLastContent (IBlock 1%nat) catchWithA = Some c'
             /\ lastContent c' = Some (IBlock 1%nat).
Proof.
  eexists. split; [vm_compute; reflexivity|].
  apply (proj1 (proj2 (setLastContent_replaces_last (IBlock 1%nat) catchWithA)) _
           ltac:(vm_compute; reflexivity)).
Defined.

Lemma appendString_in_two_steps_witness :
  (appendString (lit "b") somewhere catchWithA ≫= appendString (lit "c") somewhere)
  = appendString (lit "bc") somewhere catchWithA.
Proof.
  apply (appendString_in_two_steps (lit "b") (lit "c") somewhere somewhere catchWithA);
    first [discriminate | reflexivity].
Defined.

Lemma scanHeader_reads_type_and_name_witness :
  scanHeader (lit "intro ~sec [Title] ")
  = {| inBlockName := 0; charsScanned := 13;
       blockType := lit "sec"; blockName := lit "Title" |}.
Proof.
  apply (proj1 (scanHeader_reads_type_and_name
                  (lit "intro ") (lit "sec") (lit " ") (lit "Title") (lit " ")
                  ltac:(discriminate)
                  ltac:(repeat constructor)
                  ltac:(repeat constructor)
                  ltac:(repeat constructor)
                  ltac:(repeat (constructor;
                                [split; [discriminate|split; [discriminate|reflexivity]]|]);
                        constructor))).
Defined.

Lemma headerOf_decodes_type_witness :
  headerOf dottedScan = (lit "infobox", lit "N", [lit "wide"]).
Proof.
  apply (proj1 (headerOf_decodes_type (lit "infobox") (lit "N") [lit "wide"] dottedScan
                  ltac:(repeat (constructor;
                                [apply (bool_decide_unpack _); vm_compute; exact I|]);
                        constructor)
                  eq_refl));
    [reflexivity|discriminate|discriminate].
Defined.

Lemma open_block_strips_header_witness :
  exists (p' : parser) (g : genericCatch) (o' : catchObj),
    parseByte "{"%char beforeOpening = Ok p'
    /\ block p' = Some 1%nat
    /\ heap p' !! 1%nat
       = Some (CBlock {| typ := lit "sec"; name := lit "Title"; classes := [];
                         openPos := pos beforeOpening;
                         closePos := {| pos_line := 0; pos_column := 0 |};
                         closed := false; parent := Some mainRef; blockCatch := g |})
    /\ heap p' !! mainRef = Some o'
    /\ lastString (gc o') = lit "intro ".
Proof.
  destruct (open_block_strips_header beforeOpening mainRef
              (CBlock (set_blockCatch
                         (pushContent (IString (lit "intro ~sec[Title] "))
                            {| pos_line := 1; pos_column := 1 |}
                            (setLine (lit "intro ~sec[Title] ") emptyCatch))
                         mainBlock))
              eq_refl eq_refl eq_refl ltac:(vm_compute; discriminate) eq_refl
              ltac:(vm_compute; reflexivity) ltac:(vm_compute; discriminate))
    as (p' & g & o' & H1 & H2 & _ & _ & H5 & _ & H7 & H8 & _).
  exists p', g, o'. split; [exact H1|]. split; [exact H2|].
  split; [exact H5|]. split; [exact H7|]. exact H8.
Defined.

Lemma close_block_appends_block_and_brace_witness :
  exists (p' : parser) (g : genericCatch),
    parseByte "}"%char beforeClosing = Ok p'
    /\ block p' = Some mainRef /\ catch p' = Some mainRef
    /\ contents (positioned g)
       = [IString []; IBlock 1%nat; IString (lit "}")].
Proof.
  destruct (heap beforeClosing !! 1%nat) as [[blk|v]|] eqn:E1;
    try (vm_compute in E1; discriminate E1).
  destruct (heap beforeClosing !! mainRef) as [[pb|v]|] eqn:E0;
    try (vm_compute in E0; discriminate E0).
  assert (Hpb : contents (positioned (blockCatch pb)) = [IString []]).
  { vm_compute in E0. injection E0 as <-. reflexivity. }
  destruct (close_block_appends_block_and_brace beforeClosing 1%nat mainRef blk pb
              eq_refl eq_refl eq_refl eq_refl eq_refl E1
              ltac:(vm_compute in E1; injection E1 as <-; vm_compute; discriminate)
              ltac:(vm_compute in E1; injection E1 as <-; reflexivity)
              E0 ltac:(discriminate))
    as (p' & g & H1 & H2 & H3 & _ & H5).
  exists p', g. split; [exact H1|]. split; [exact H2|]. split; [exact H3|].
  unfold contents in *. rewrite H5, map_app, Hpb. reflexivity.
Defined.

Lemma whole_comment_leaves_no_trace_witness :
  exists p' : parser,
    parseLineFrom 0 (lit "/* note */x") newParser = parseLineFrom 10 (lit "x") p'
    /\ heap p' = heap newParser /\ commentLevel p' = 0.
Proof.
  destruct (whole_comment_leaves_no_trace (lit " note ") (lit "x") 0 newParser
              eq_refl eq_refl eq_refl ltac:(vm_compute; split; [discriminate|reflexivity])
              ltac:(repeat (constructor; [split; discriminate|]); constructor))
    as (p' & H1 & H2 & _ & _ & H5 & _).
  exists p'. split; [exact H1|]. split; [exact H2|exact H5].
Defined.

Lemma escaped_backslash_is_content_witness :
  exists (p' : parser) (g : genericCatch),
    parseLineFrom 1 (BACKSLASH :: BACKSLASH :: lit "b") (parserAfter (lit "a"))
    = parseLineFrom 3 (lit "b") p'
    /\ escape p' = false
    /\ contents (positioned g) = [IString (lit "a\")].
Proof.
  destruct (heap (parserAfter (lit "a")) !! mainRef) as [[blk|v]|] eqn:E0;
    try (vm_compute in E0; discriminate E0).
  destruct (escaped_backslash_is_content 1 (lit "b") (parserAfter (lit "a")) mainRef blk
              [] (lit "a") {| pos_line := 1; pos_column := 1 |}
              eq_refl eq_refl eq_refl eq_refl eq_refl E0
              ltac:(vm_compute in E0; injection E0 as <-; reflexivity) eq_refl)
    as (p1 & p' & g & _ & _ & _ & H4 & H5 & _ & _ & _ & _ & H10).
  exists p', g. split; [exact H4|]. split; [exact H5|].
  unfold contents. rewrite H10. reflexivity.
Defined.

Lemma escaped_byte_added_witness :
  exists (p' : parser) (g : genericCatch),
    parseByte "{"%char afterBackslash = Ok p'
    /\ contents (positioned g) = [IString (lit "a\{")].
Proof.
  destruct (heap afterBackslash !! mainRef) as [[blk|v]|] eqn:E0;
    try (vm_compute in E0; discriminate E0).
  destruct (proj1 (escaped_byte_added "{"%char afterBackslash mainRef blk blk
                     [] (lit "a") {| pos_line := 1; pos_column := 1 |}
                     eq_refl eq_refl eq_refl eq_refl
                     ltac:(vm_compute in E0; injection E0 as <-; vm_compute; reflexivity)
                     eq_refl E0
                     ltac:(vm_compute in E0; injection E0 as <-; reflexivity) eq_refl)
             (or_introl eq_refl))
    as (p' & g & H1 & _ & H3).
  exists p', g. split; [exact H1|]. unfold contents. rewrite H3. reflexivity.
Defined.

Lemma brace_escape_region_witness :
  exists (p' : parser) (g : genericCatch),
    parseLineFrom 2 (lit "{a{b}c}") enteringEscape = parseLineFrom 9 [] p'
    /\ braceLevel p' = 0
    /\ contents (positioned g) = [IString (lit "{a{b}c")].
Proof.
  destruct (heap enteringEscape !! 1%nat) as [[blk|v]|] eqn:E1;
    try (vm_compute in E1; discriminate E1).
  destruct (brace_escape_region (lit "a{b}c") [] 2 enteringEscape 1%nat blk
              [] (lit "{") {| pos_line := 1; pos_column := 2 |}
              eq_refl eq_refl eq_refl eq_refl ltac:(vm_compute; reflexivity) eq_refl E1
              ltac:(vm_compute in E1; injection E1 as <-; reflexivity) eq_refl
              ltac:(repeat (constructor; [split; [reflexivity|discriminate]|]); constructor)
              eq_refl eq_refl)
    as (p' & g & H1 & H2 & _ & _ & _ & _ & _ & _ & H9).
  exists p', g. split; [exact H1|]. split; [exact H2|].
  unfold contents. rewrite H9. reflexivity.
Defined.

Lemma plain_text_is_main_content_witness :
  exists p : parser,
    Parse twoLines = Ok p
    /\ contentOf mainRef p = [IString (lit "helloworld")].
Proof.
  destruct (plain_text_is_main_content twoLines
              ltac:(apply (bool_decide_unpack _); vm_compute; exact I))
    as (p & H1 & _ & _ & _ & H5 & _).
  exists p. split; [exact H1|exact H5].
Defined.

Lemma Parse_errors_are_known_witness :
  lit "Attempted to close main block" = lit "Block has no type"
  \/ lit "Attempted to close main block" = lit "Attempted to close main block"
  \/ (exists b, lit "Attempted to close main block"
                = lit "Nothing to catch byte: " ++ stringOfByte b)
  \/ (exists b o, lit "Attempted to close main block" = invalidByteError b o).
Proof.
  apply (Parse_errors_are_known (lit "a}") (lit "Attempted to close main block")).
  vm_compute. reflexivity.
Defined.

Lemma Parse_blocks_form_a_tree_witness :
  exists r b, block (parserAfter (lit "a{b}c{d")) = Some r
              /\ heap (parserAfter (lit "a{b}c{d")) !! r = Some (CBlock b).
Proof.
  apply (Parse_blocks_form_a_tree (lit "a{b}c{d") (parserAfter (lit "a{b}c{d"))).
  vm_compute. reflexivity.
Defined.

Lemma Parse_open_blocks_enclose_current_witness :
  exists cur : ref,
    block (parserAfter (lit "a{b}c{d")) = Some cur
    /\ forall (r : ref) (b : parserBlock),
         heap (parserAfter (lit "a{b}c{d")) !! r = Some (CBlock b) ->
         (closed b = false
          <-> onPath (skeleton <$> heap (parserAfter (lit "a{b}c{d"))) cur r).
Proof.
  apply (Parse_open_blocks_enclose_current (lit "a{b}c{d") (parserAfter (lit "a{b}c{d"))).
  vm_compute. reflexivity.
Defined.

Lemma gallery_images_follow_key_order_witness :
  Gallery.img <$> Gallery.images (Gallery.gallery _ _ (galleryParse heightFirst))
  = [0%nat].
Proof.
  apply (proj1 (gallery_images_follow_key_order (fun _ => lit "/images") thumbParse
                  (galleryState heightFirst)
                  ltac:(intros k r Hk Hr;
                        repeat (apply elem_of_cons in Hk as [-> | Hk]);
                        [vm_compute in Hr; discriminate Hr
                        |vm_compute in Hr; injection Hr as <-; vm_compute; reflexivity
                        |apply elem_of_nil in Hk; contradiction]))).
Defined.

Lemma gallery_warns_once_per_rejected_key_witness :
  Gallery.warnings _ _ (galleryParse imageFirst) = [].
Proof.
  apply (proj2 (proj2 (gallery_warns_once_per_rejected_key (fun _ => lit "/images")
                         thumbParse (galleryState imageFirst)))).
  vm_compute. reflexivity.
Defined.

Lemma RequireMany_reports_first_missing_witness :
  Config.RequireMany Config.getWhereDotted Config.getWarnPath zeroConf
    [lit "debug"; lit "verbose"]
  = Some (lit "quiki.conf: @debug is required").
Proof.
  apply (proj2 (RequireMany_reports_first_missing Config.getWhereDotted Config.getWarnPath
                  zeroConf [lit "debug"; lit "verbose"])
           [] (lit "debug") [lit "verbose"] eq_refl).
  - constructor.
  - vm_compute. reflexivity.
Defined.

Lemma GetStringMap_keeps_the_strings_witness :
  Config.GetStringMap Config.getWhereDotted mapConf (lit "nav") !! lit "home"
  = Some (lit "/").
Proof.
  apply (proj2 (proj1 (GetStringMap_keeps_the_strings Config.getWhereDotted mapConf
                         (lit "nav")) (lit "home") (lit "/"))).
  eexists. split; vm_compute; reflexivity.
Defined.

Lemma simple_block_becomes_a_child_of_main_witness :
  exists (p : parser) (blk : parserBlock),
    Parse (lit "intro sec.wide[Title] {some text} outro") = Ok p
    /\ contentOf mainRef p
       = [IString (lit "intro "); IBlock 1%nat; IString (lit "} outro")]
    /\ heap p !! 1%nat = Some (CBlock blk)
    /\ typ blk = lit "sec" /\ name blk = lit "Title" /\ classes blk = [lit "wide"]
    /\ parent blk = Some mainRef /\ closed blk = true
    /\ openPos blk = {| pos_line := 1; pos_column := 23 |}
    /\ closePos blk = {| pos_line := 1; pos_column := 33 |}
    /\ contents (positioned (blockCatch blk)) = [IString (lit "{some text")].
Proof.
  destruct (simple_block_becomes_a_child_of_main
              (lit "intro ") (lit "sec.wide[Title] ") (lit "some text") (lit " outro")
              ltac:(apply (bool_decide_unpack _); vm_compute; exact I)
              ltac:(vm_compute; discriminate)
              ltac:(vm_compute; reflexivity)
              ltac:(vm_compute; discriminate))
    as (p & blk & H1 & _ & _ & _ & H5 & H6 & H7 & H8 & H9 & H10 & H11 & H12 & H13 & H14).
  exists p, blk. split; [exact H1|]. split; [exact H5|]. split; [exact H6|].
  split; [exact H7|]. split; [exact H8|]. split; [exact H9|]. split; [exact H10|].
  split; [exact H11|]. split; [exact H12|]. split; [exact H13|]. exact H14.
Defined.

Lemma brace_escape_chosen_iff_region_holds_code_witness :
  Renderer.useBraceEscape (lit "if x { y }") = true.
Proof.
  apply (proj2 (brace_escape_chosen_iff_region_holds_code (lit "if x { y }"))).
  split; [|split; reflexivity].
  apply (bool_decide_unpack _). vm_compute. exact I.
Defined.

Lemma heading_sections_follow_level_witness :
  Renderer.renderHeading 5 3 true
    ({| Renderer.PartialPage := false; Renderer.TableOfContents := false;
        Renderer.PageTitle := []; Renderer.headingLevel := 1 |}, lit "x")
  = Some ({| Renderer.PartialPage := false; Renderer.TableOfContents := false;
             Renderer.PageTitle := []; Renderer.headingLevel := 3 |},
          lit "x~sec{" ++ [LF] ++ lit "~sec[").
Proof.
  apply (proj1 (heading_sections_follow_level 5 3
                  {| Renderer.PartialPage := false; Renderer.TableOfContents := false;
                     Renderer.PageTitle := []; Renderer.headingLevel := 1 |}
                  (lit "x")
                  ltac:(simpl; lia) ltac:(lia) ltac:(vm_compute; lia))).
Defined.

Lemma document_end_closes_open_sections_witness :
  Renderer.renderDocument (fun s => s) 3 false
    ({| Renderer.PartialPage := false; Renderer.TableOfContents := false;
        Renderer.PageTitle := lit "T"; Renderer.headingLevel := 2 |}, lit "x")
  = Some ({| Renderer.PartialPage := false; Renderer.TableOfContents := false;
             Renderer.PageTitle := lit "T"; Renderer.headingLevel := 0 |},
          lit "x" ++ [LF] ++ lit "}" ++ [LF] ++ lit "}" ++ [LF]
            ++ lit "@page.title: T;" ++ [LF]).
Proof.
  apply (proj1 (document_end_closes_open_sections (fun s => s) 3
                  {| Renderer.PartialPage := false; Renderer.TableOfContents := false;
                     Renderer.PageTitle := lit "T"; Renderer.headingLevel := 2 |}
                  (lit "x")
                  ltac:(simpl; lia) ltac:(vm_compute; lia))).
Defined.

End MoreConcrete.
